(** * The Tagging Project: the tag store, the edit distance, the wildcard
    matcher and auto-categorisation of [data_manager.py] and
    [category_organizer.py], as a shallow embedding in Rocq. *)

From Stdlib Require Import Ascii String.
From Stdlib Require Import Arith Lia List Bool Sorting.Sorted Sorting.Permutation.
Import ListNotations.
Open Scope list_scope.

(* ------------------------------------------------------------------ *)
(** ** Python strings *)
(* ------------------------------------------------------------------ *)

(** A Python [str] over the ASCII range, as its list of characters. *)
Definition str := list ascii.

(** String literals for examples. *)
Definition s (x : string) : str := list_ascii_of_string x.

Definition str_eqb (a b : str) : bool :=
  if list_eq_dec ascii_dec a b then true else false.

(** [x in xs] for a Python list or set of strings. *)
Definition mem (x : str) (xs : list str) : bool := existsb (str_eqb x) xs.

(** [str.isspace] on one ASCII character: \t \n \v \f \r, \x1c-\x1f and
    the space. *)
Definition is_space (c : ascii) : bool :=
  let n := nat_of_ascii c in
  ((9 <=? n) && (n <=? 13)) || ((28 <=? n) && (n <=? 32)).

Fixpoint lstrip (x : str) : str :=
  match x with
  | [] => []
  | c :: r => if is_space c then lstrip r else x
  end.

Definition rstrip (x : str) : str := rev (lstrip (rev x)).

(** [str.strip()]. *)
Definition strip (x : str) : str := rstrip (lstrip x).

(** [str.lower()] on one ASCII character. *)
Definition lower_char (c : ascii) : ascii :=
  let n := nat_of_ascii c in
  if (65 <=? n) && (n <=? 90) then ascii_of_nat (n + 32) else c.

Definition lower (x : str) : str := map lower_char x.

(** [sep.join(xs)]. *)
Fixpoint join (sep : str) (xs : list str) : str :=
  match xs with
  | [] => []
  | [x] => x
  | x :: r => x ++ sep ++ join sep r
  end.

(** [x.split(c)] for a one-character separator. *)
Fixpoint split_on (c : ascii) (x : str) : list str :=
  match x with
  | [] => [[]]
  | d :: r =>
      if ascii_dec d c then [] :: split_on c r
      else match split_on c r with
           | [] => [[d]]
           | h :: t => (d :: h) :: t
           end
  end.

(* ------------------------------------------------------------------ *)
(** ** Python dicts as association lists (insertion ordered) *)
(* ------------------------------------------------------------------ *)

Fixpoint dict_get {V} (d : list (str * V)) (k : str) : option V :=
  match d with
  | [] => None
  | (k', v) :: r => if str_eqb k k' then Some v else dict_get r k
  end.

(** [d[k] = v]: an existing key keeps its place, a new key goes last. *)
Fixpoint dict_set {V} (d : list (str * V)) (k : str) (v : V) : list (str * V) :=
  match d with
  | [] => [(k, v)]
  | (k', v') :: r => if str_eqb k k' then (k', v) :: r else (k', v') :: dict_set r k v
  end.

(** [del d[k]]. *)
Fixpoint dict_del {V} (d : list (str * V)) (k : str) : list (str * V) :=
  match d with
  | [] => []
  | (k', v') :: r => if str_eqb k k' then r else (k', v') :: dict_del r k
  end.

(* ------------------------------------------------------------------ *)
(** ** DataManager *)
(* ------------------------------------------------------------------ *)

(** The [AppConfig] values the tag store reads. *)
Record Config := mkConfig {
  ENFORCE_LOWERCASE : bool;
  TAG_SEPARATOR : str;
  HISTORY_MAX_DEPTH : nat }.

(** The configuration of [main.py]. *)
Definition AppConfig : Config := mkConfig false (s ", ") 10.

(** [collections.Counter]: tag counts in insertion order; a missing key
    reads as 0. *)
Definition counter := list (str * nat).

Definition counter_get (c : counter) (k : str) : nat :=
  match dict_get c k with Some n => n | None => 0 end.

Fixpoint counter_add (c : counter) (k : str) : counter :=
  match c with
  | [] => [(k, 1)]
  | (k', n) :: r => if str_eqb k k' then (k', S n) :: r else (k', n) :: counter_add r k
  end.

(** [Counter.update(iterable)]. *)
Definition counter_update (c : counter) (xs : list str) : counter :=
  fold_left counter_add xs c.

(** The state of a [DataManager].  Python lists are mutable objects, and
    [add_tag_globally] mutates the list stored in [self.data] through an
    alias, so [data] maps a filename to the id of a list object, and
    [heap] holds the objects.  [files] holds the sidecar [.txt] contents,
    keyed by the sidecar path ([txt_path] of the image filename). *)
Record DM := mkDM {
  data : list (str * nat);
  heap : list (list str);
  image_files : list str;
  tag_frequency : counter;
  history_stack : list (str * list str);
  files : list (str * str) }.

Definition deref (st : DM) (o : nat) : list str := nth o (heap st) [].

(** [self.data.get(filename, [])], read as a value. *)
Definition get_tags (st : DM) (filename : str) : list str :=
  match dict_get (data st) filename with
  | Some o => deref st o
  | None => []
  end.

(** The tag lists of [self.data.values()], in dict order. *)
Definition data_values (st : DM) : list (list str) :=
  map (fun fo => deref st (snd fo)) (data st).

Definition with_data st d h :=
  mkDM d h (image_files st) (tag_frequency st) (history_stack st) (files st).
Definition with_freq st c :=
  mkDM (data st) (heap st) (image_files st) c (history_stack st) (files st).
Definition with_history st hs :=
  mkDM (data st) (heap st) (image_files st) (tag_frequency st) hs (files st).
Definition with_files st fs :=
  mkDM (data st) (heap st) (image_files st) (tag_frequency st) (history_stack st) fs.

(** [self.data[filename] = l] for a freshly built list [l]. *)
Definition assign_new (st : DM) (filename : str) (l : list str) : DM :=
  with_data st (dict_set (data st) filename (length (heap st))) (heap st ++ [l]).

(** [recalculate_frequency]. *)
Definition recalculate_frequency (st : DM) : DM :=
  with_freq st (fold_left counter_update (data_values st) []).

(** [_push_history]: append, then [pop(0)] when over the maximum depth. *)
Definition push_history (cfg : Config) (hs : list (str * list str))
    (e : str * list str) : list (str * list str) :=
  let hs' := hs ++ [e] in
  if HISTORY_MAX_DEPTH cfg <? length hs' then tl hs' else hs'.

Definition is_nil (x : str) : bool := match x with [] => true | _ => false end.

(** The cleaning loop of [save_tags] (lines 90-98), [seen] a set. *)
Fixpoint clean_loop (lc : bool) (seen : list str) (xs : list str) : list str :=
  match xs with
  | [] => []
  | tag :: r =>
      let tag := strip tag in
      if negb (is_nil tag) && negb (mem tag seen) then
        let tag := if lc then lower tag else tag in
        tag :: clean_loop lc (tag :: seen) r
      else clean_loop lc seen r
  end.

Definition clean_tags (cfg : Config) (xs : list str) : list str :=
  clean_loop (ENFORCE_LOWERCASE cfg) [] xs.

(** The outcome of [with open(txt_path, 'w', ...) as f: f.write(content)]:
    the write succeeds; [open] raises, and the file is left as it was; or
    the write or the close raises after [open] has truncated the file,
    which then holds the first [kept] characters of [content] (those
    flushed before the error, none at all for [kept = 0]). *)
Inductive write_result := Written | OpenFails | WriteFails (kept : nat).

(** The outcome of writing each sidecar path. *)
Definition Writable := str -> write_result.

(** [str.rfind(c)], [None] for [-1]. *)
Fixpoint rfind_from (c : ascii) (i : nat) (x : str) (found : option nat) : option nat :=
  match x with
  | [] => found
  | d :: r => rfind_from c (S i) r (if ascii_dec c d then Some i else found)
  end.

Definition rfind (c : ascii) (x : str) : option nat := rfind_from c 0 x None.

(** [PurePath.stem]: the name without its last suffix, the suffix
    starting at the last ['.'] when that dot is neither the first nor the
    last character. *)
Definition stem (name : str) : str :=
  match rfind "." name with
  | Some i => if (0 <? i) && (i <? length name - 1) then firstn i name else name
  | None => name
  end.

(** [str(Path(filename).with_suffix('.txt'))] for a normalised POSIX path
    with a non-empty last component: the last component becomes its stem
    followed by [.txt], so [a.png] and [a.jpg] share [a.txt]. *)
Definition txt_path (filename : str) : str :=
  let comps := split_on "/" filename in
  join (s "/") (removelast comps ++ [stem (last comps []) ++ s ".txt"]).

(** [save_tags(filename, new_tags_list)]: the new list object is
    committed to [self.data] before the write is attempted. *)
Definition save_tags (cfg : Config) (wr : Writable) (st : DM) (filename : str)
    (new_tags_list : list str) : DM * bool :=
  let st := with_history st
              (push_history cfg (history_stack st) (filename, get_tags st filename)) in
  let cleaned_tags := clean_tags cfg new_tags_list in
  let st := assign_new st filename cleaned_tags in
  let txt := txt_path filename in
  let content := join (TAG_SEPARATOR cfg) cleaned_tags in
  match wr txt with
  | Written => (recalculate_frequency (with_files st (dict_set (files st) txt content)), true)
  | OpenFails => (st, false)
  | WriteFails kept => (with_files st (dict_set (files st) txt (firstn kept content)), false)
  end.

(** [list.pop()]: the last element and the rest. *)
Definition pop_last {A} (l : list A) : option (list A * A) :=
  match rev l with
  | [] => None
  | x :: r => Some (rev r, x)
  end.

(** [undo()]: the popped list object becomes [self.data[filename]]. *)
Definition undo (cfg : Config) (wr : Writable) (st : DM) : DM * option str :=
  match pop_last (history_stack st) with
  | None => (st, None)
  | Some (hs, (filename, old_tags)) =>
      let st := assign_new (with_history st hs) filename old_tags in
      let txt := txt_path filename in
      let content := join (TAG_SEPARATOR cfg) old_tags in
      match wr txt with
      | Written =>
          (recalculate_frequency (with_files st (dict_set (files st) txt content)),
           Some filename)
      | OpenFails => (st, None)
      | WriteFails kept => (with_files st (dict_set (files st) txt (firstn kept content)), None)
      end
  end.

(** Reading a file in text mode ([newline=None]): ['\r\n'] and a lone
    ['\r'] both become ['\n']. *)
Fixpoint universal_newlines (x : str) : str :=
  match x with
  | [] => []
  | c :: r =>
      if ascii_dec c "013"%char then
        match r with
        | d :: r' => if ascii_dec d "010"%char then "010"%char :: universal_newlines r'
                     else "010"%char :: universal_newlines r
        | [] => ["010"%char]
        end
      else c :: universal_newlines r
  end.

(** [_load_tags_from_file] on the bytes of the file. *)
Definition load_tags (raw : str) : list str :=
  let content := strip (universal_newlines raw) in
  if is_nil content then []
  else filter (fun t => negb (is_nil t)) (map strip (split_on "," content)).

(** [add_tag_globally(tag)].  [tags = self.data[filename]] is the stored
    list object itself, so [tags.append(tag)] updates it in the heap
    before [save_tags] reads [self.data.get(filename, [])].  A filename
    missing from [self.data] raises [KeyError] ([None]). *)
Fixpoint add_loop (cfg : Config) (wr : Writable) (tag : str) (st : DM)
    (fs : list str) (count : nat) : option (DM * nat) :=
  match fs with
  | [] => Some (st, count)
  | filename :: r =>
      match dict_get (data st) filename with
      | None => None
      | Some o =>
          let tags := deref st o in
          if negb (mem tag tags) then
            let st := with_data st (data st) (firstn o (heap st) ++ [tags ++ [tag]] ++ skipn (S o) (heap st)) in
            let st := fst (save_tags cfg wr st filename (deref st o)) in
            add_loop cfg wr tag st r (S count)
          else add_loop cfg wr tag st r count
      end
  end.

Definition add_tag_globally (cfg : Config) (wr : Writable) (st : DM) (tag : str)
    : option (DM * nat) :=
  let tag := strip tag in
  if is_nil tag then Some (st, 0) else add_loop cfg wr tag st (image_files st) 0.

(** [get_all_tags_by_frequency]: [Counter.most_common()] is
    [sorted(self.items(), key=count, reverse=True)], a stable sort, so
    items of equal count keep their insertion order.  Any stable sort
    gives that list; here an insertion sort that places an item after
    every item of greater or equal count. *)
Fixpoint insert_desc (x : str * nat) (acc : list (str * nat)) : list (str * nat) :=
  match acc with
  | [] => [x]
  | y :: r => if snd y <? snd x then x :: acc else y :: insert_desc x r
  end.

Definition most_common (c : counter) : list (str * nat) :=
  fold_left (fun acc x => insert_desc x acc) c [].

Definition get_all_tags_by_frequency (st : DM) : list (str * nat) :=
  most_common (tag_frequency st).

(* ------------------------------------------------------------------ *)
(** ** [_levenshtein_distance] *)
(* ------------------------------------------------------------------ *)

(** [enumerate(xs)]. *)
Fixpoint enumerate_from {A} (n : nat) (xs : list A) : list (nat * A) :=
  match xs with
  | [] => []
  | x :: r => (n, x) :: enumerate_from (S n) r
  end.

Definition enumerate {A} (xs : list A) := enumerate_from 0 xs.

(** [(c1 != c2)] as an int. *)
Definition cost (c1 c2 : ascii) : nat := if ascii_dec c1 c2 then 0 else 1.

(** One iteration of the inner loop: append the cell for column [j+1]. *)
Definition lev_cell (c1 : ascii) (previous_row : list nat) (current_row : list nat)
    (jc : nat * ascii) : list nat :=
  let (j, c2) := jc in
  let insertions := nth (j + 1) previous_row 0 + 1 in
  let deletions := nth j current_row 0 + 1 in
  let substitutions := nth j previous_row 0 + cost c1 c2 in
  current_row ++ [Nat.min (Nat.min insertions deletions) substitutions].

(** One iteration of the outer loop: the row for [i+1]. *)
Definition lev_row (s2 : str) (previous_row : list nat) (ic : nat * ascii) : list nat :=
  let (i, c1) := ic in
  fold_left (lev_cell c1 previous_row) (enumerate s2) [i + 1].

(** The body of [_levenshtein_distance] once [len(s1) >= len(s2)]. *)
Definition levenshtein_rows (s1 s2 : str) : nat :=
  if length s2 =? 0 then length s1
  else last (fold_left (lev_row s2) (enumerate s1) (seq 0 (length s2 + 1))) 0.

(** [_levenshtein_distance(s1, s2)]: the recursive call swaps the
    arguments once, after which [len(s1) >= len(s2)]. *)
Definition levenshtein_distance (s1 s2 : str) : nat :=
  if length s1 <? length s2 then levenshtein_rows s2 s1 else levenshtein_rows s1 s2.

(** The classic Levenshtein distance (unit-cost insertion, deletion and
    substitution), by recursion on the first characters. *)
Fixpoint lev (a b : str) : nat :=
  match a with
  | [] => length b
  | x :: a' =>
      (fix lev_a (b : str) : nat :=
         match b with
         | [] => length a
         | y :: b' => Nat.min (Nat.min (lev a' b + 1) (lev_a b' + 1)) (lev a' b' + cost x y)
         end) b
  end.

(* ------------------------------------------------------------------ *)
(** ** [_match_pattern] *)
(* ------------------------------------------------------------------ *)

Fixpoint prefixb (p x : str) : bool :=
  match p, x with
  | [], _ => true
  | c :: p', d :: x' => if ascii_dec c d then prefixb p' x' else false
  | _ :: _, [] => false
  end.

Fixpoint find_at (needle rest : str) (pos : nat) : option nat :=
  if prefixb needle rest then Some pos
  else match rest with
       | [] => None
       | _ :: r => find_at needle r (S pos)
       end.

(** [hay.find(needle, start)], [None] for [-1]. *)
Definition str_find (hay needle : str) (start : nat) : option nat :=
  if length hay <? start then None else find_at needle (skipn start hay) start.

Definition has_char (c : ascii) (x : str) : bool :=
  existsb (fun d => if ascii_dec c d then true else false) x.

(** The [for i, part in enumerate(parts)] loop: [None] when it returns
    [False], otherwise the final [current_pos]. *)
Fixpoint seg_loop (tag_lower : str) (starts_with_wildcard : bool)
    (parts : list (nat * str)) (current_pos : nat) : option nat :=
  match parts with
  | [] => Some current_pos
  | (i, part) :: r =>
      if is_nil part then seg_loop tag_lower starts_with_wildcard r current_pos
      else match str_find tag_lower part current_pos with
           | None => None
           | Some pos =>
               if (i =? 0) && negb starts_with_wildcard && negb (pos =? 0) then None
               else seg_loop tag_lower starts_with_wildcard r (pos + length part)
           end
  end.

Definition match_pattern (tag pattern : str) : bool :=
  let tag_lower := lower tag in
  let pattern_lower := lower pattern in
  if negb (has_char "*" pattern_lower) then str_eqb tag_lower pattern_lower
  else
    let parts := split_on "*" pattern_lower in
    let (parts, starts_with_wildcard) :=
      match parts with
      | p0 :: r => if is_nil p0 then (r, true) else (parts, false)
      | [] => (parts, false)
      end in
    (* [parts[-1]] exists: the split has at least two parts *)
    let (parts, ends_with_wildcard) :=
      match pop_last parts with
      | Some (init, lst) => if is_nil lst then (init, true) else (parts, false)
      | None => (parts, false)
      end in
    match parts with
    | [] => true
    | _ =>
        match seg_loop tag_lower starts_with_wildcard (enumerate parts) 0 with
        | None => false
        | Some current_pos =>
            if negb ends_with_wildcard && negb (current_pos =? length tag_lower)
            then false else true
        end
    end.

(** The matcher as the spec words it: [occurs_at t seg p] when [seg]
    occurs in [t] at [p]; [leftmost t seg c p] when [p] is the first
    occurrence at or after the cursor [c]. *)
Definition occurs_at (t seg : str) (p : nat) : Prop :=
  p + length seg <= length t /\ firstn (length seg) (skipn p t) = seg.

Definition leftmost (t seg : str) (c p : nat) : Prop :=
  c <= p /\ occurs_at t seg p /\ forall q, c <= q < p -> ~ occurs_at t seg q.

(** The segments found in order, each leftmost from the end of the
    previous one; [e] is the end of the last match. *)
Inductive seg_chain (t : str) : list str -> nat -> nat -> Prop :=
| chain_nil c : seg_chain t [] c c
| chain_cons seg r c p e :
    leftmost t seg c p -> seg_chain t r (p + length seg) e -> seg_chain t (seg :: r) c e.

Definition match_spec (tag pattern : str) : Prop :=
  let T := lower tag in
  let P := lower pattern in
  (has_char "*" P = false /\ T = P) \/
  (has_char "*" P = true /\
   exists seg0 rest p e,
     split_on "*" P = seg0 :: rest /\
     leftmost T seg0 0 p /\ seg_chain T rest (p + length seg0) e /\
     (hd_error P <> Some "*"%char -> p = 0) /\
     (last P " "%char <> "*"%char -> e = length T)).

(* ------------------------------------------------------------------ *)
(** ** [_auto_categorize] *)
(* ------------------------------------------------------------------ *)

(** A category dict: its name, its [auto_keywords] and its [tags]. *)
Record Category := mkCategory {
  cat_name : str;
  auto_keywords : list str;
  cat_tags : list str }.

(** Keyword indices with [float('inf')] as [None]. *)
Definition idx_lt (a b : option nat) : bool :=
  match a, b with
  | Some x, Some y => x <? y
  | Some _, None => true
  | None, _ => false
  end.

Definition idx_min (a b : option nat) : option nat :=
  match a, b with
  | Some x, Some y => Some (Nat.min x y)
  | Some x, None => Some x
  | None, b => b
  end.

(** The loop over all keywords for the new tag: [(matched,
    matched_keyword_index)]. *)
Fixpoint kw_scan (tag : str) (kws : list (nat * str)) (matched : bool)
    (m : option nat) : bool * option nat :=
  match kws with
  | [] => (matched, m)
  | (idx, keyword) :: r =>
      if match_pattern tag keyword then kw_scan tag r true (idx_min m (Some idx))
      else kw_scan tag r matched m
  end.

(** The loop for an existing tag, which [break]s at its first match. *)
Fixpoint kw_first (tag : str) (kws : list (nat * str)) : option nat :=
  match kws with
  | [] => None
  | (idx, keyword) :: r =>
      if match_pattern tag keyword then Some idx else kw_first tag r
  end.

(** [insert_pos]: the first [i] whose tag has a larger keyword index. *)
Fixpoint insert_pos_loop (kws : list (nat * str)) (mi : option nat)
    (tags : list (nat * str)) (default : nat) : nat :=
  match tags with
  | [] => default
  | (i, existing_tag) :: r =>
      if idx_lt mi (kw_first existing_tag kws) then i
      else insert_pos_loop kws mi r default
  end.

(** [list.insert(pos, x)]. *)
Definition list_insert {A} (pos : nat) (x : A) (l : list A) : list A :=
  firstn pos l ++ x :: skipn pos l.

(** The body of [if matched:] for one category: the category after the
    insertion. *)
Definition place_tag (tag : str) (mi : option nat) (c : Category) : Category :=
  if mem tag (cat_tags c) then c
  else
    let kws := enumerate (auto_keywords c) in
    let pos := insert_pos_loop kws mi (enumerate (cat_tags c)) (length (cat_tags c)) in
    mkCategory (cat_name c) (auto_keywords c) (list_insert pos tag (cat_tags c)).

(** [for category in self.categories]: [None] when no category matched,
    otherwise the categories after placing the tag in the first match. *)
Fixpoint cat_loop (tag : str) (cats : list Category) : option (list Category) :=
  match cats with
  | [] => None
  | c :: r =>
      let (matched, mi) := kw_scan tag (enumerate (auto_keywords c)) false None in
      if matched then Some (place_tag tag mi c :: r)
      else match cat_loop tag r with
           | None => None
           | Some r' => Some (c :: r')
           end
  end.

Fixpoint auto_loop (tags : list str) (cats : list Category) (uncat : counter)
    (categorized_count : nat) : list Category * counter * nat :=
  match tags with
  | [] => (cats, uncat, categorized_count)
  | tag :: r =>
      match cat_loop tag cats with
      | None => auto_loop r cats uncat categorized_count
      | Some cats' => auto_loop r cats' (dict_del uncat tag) (S categorized_count)
      end
  end.

(** [_auto_categorize] on [self.categories] and [self.uncategorized_tags]:
    the new categories, the new uncategorized tags and the
    [categorized_count] it reports.  The undo snapshot, the flags and the
    redraw are left out. *)
Definition auto_categorize (cats : list Category) (uncat : counter)
    : list Category * counter * nat :=
  auto_loop (map fst uncat) cats uncat 0.

(* ------------------------------------------------------------------ *)
(** ** Derived notions and concrete states *)
(* ------------------------------------------------------------------ *)

(** The true count of a tag: its occurrences over all images' committed
    lists, with multiplicity. *)
Definition true_count (st : DM) (t : str) : nat :=
  list_sum (map (fun tags => count_occ (list_eq_dec ascii_dec) tags t) (data_values st)).

(** Consecutive [save_tags] calls; also returns the entry each call
    pushes, [(filename, tags before the call)]. *)
Fixpoint run_saves (cfg : Config) (wr : Writable) (st : DM)
    (ops : list (str * list str)) : DM * list (str * list str) :=
  match ops with
  | [] => (st, [])
  | (f, l) :: r =>
      let e := (f, get_tags st f) in
      let (st', es) := run_saves cfg wr (fst (save_tags cfg wr st f l)) r in
      (st', e :: es)
  end.

(** The last [n] elements of a list. *)
Definition lastn {A} (n : nat) (l : list A) : list A := skipn (length l - n) l.

Definition wr_all : Writable := fun _ => Written.
Definition wr_none : Writable := fun _ => OpenFails.
Definition img : str := s "img.png".

(** A session holding one image [img] with the given tags. *)
Definition st_img (tags : list str) : DM :=
  mkDM [(img, 0)] [tags] [img] (counter_update [] tags) [] [(txt_path img, join (s ", ") tags)].

(** Keys in order of first occurrence. *)
Definition first_occurrences (l : list str) : list str :=
  fold_left (fun acc x => if mem x acc then acc else acc ++ [x]) l [].

(** Strict lexicographic order on strings, by character code. *)
Fixpoint str_ltb (a b : str) : bool :=
  match a, b with
  | [], [] => false
  | [], _ :: _ => true
  | _ :: _, [] => false
  | x :: a', y :: b' =>
      if nat_of_ascii x <? nat_of_ascii y then true
      else if nat_of_ascii x =? nat_of_ascii y then str_ltb a' b' else false
  end.

(** A session with two images, tagged [["b"]] and [["a"]], after the
    index was rebuilt. *)
Definition st_two : DM :=
  recalculate_frequency
    (mkDM [(s "1.png", 0); (s "2.png", 1)] [[s "b"]; [s "a"]] [s "1.png"; s "2.png"] [] []
          [(s "1.txt", s "b"); (s "2.txt", s "a")]).

(** The priority index of the first keyword of [kws] a tag matches. *)
Definition kw_index (kws : list str) (tag : str) : option nat :=
  kw_first tag (enumerate kws).

(** Whether some category, given by its keywords, matches the tag. *)
Definition matches_any (kwss : list (list str)) (tag : str) : bool :=
  existsb (fun kws => match kw_index kws tag with Some _ => true | None => false end) kwss.

(** [a <= b] on keyword indices, [None] being [float('inf')]. *)
Definition idx_le (a b : option nat) : bool := negb (idx_lt b a).

(** Insertion before the first element whose index is larger. *)
Fixpoint ins_by (key : str -> option nat) (mi : option nat) (x : str) (l : list str) : list str :=
  match l with
  | [] => [x]
  | t :: r => if idx_lt mi (key t) then x :: t :: r else t :: ins_by key mi x r
  end.

(* ------------------------------------------------------------------ *)
(** ** More of [DataManager] *)
(* ------------------------------------------------------------------ *)

(** [tags.remove(tag)]: drops the first occurrence.  The callers test
    [tag in tags] first, so the [ValueError] of a missing item is never
    raised. *)
Fixpoint remove_first (x : str) (l : list str) : list str :=
  match l with
  | [] => []
  | y :: r => if str_eqb x y then r else y :: remove_first x r
  end.

(** [tags[tags.index(old_tag)] = new_tag]. *)
Fixpoint replace_first (old_tag new_tag : str) (l : list str) : list str :=
  match l with
  | [] => []
  | y :: r => if str_eqb old_tag y then new_tag :: r else y :: replace_first old_tag new_tag r
  end.

(** An in-place update of the list object [o], as [tags.append(tag)] in
    [add_loop]. *)
Definition heap_set (st : DM) (o : nat) (l : list str) : DM :=
  with_data st (data st) (firstn o (heap st) ++ [l] ++ skipn (S o) (heap st)).

(** The loop of [remove_tag_globally] and [rename_tag_globally]:
    [tags = self.data[filename]] is the stored object; when [test tags]
    holds, [edit] updates it in place, [save_tags(filename, tags)] is
    called with it and [count] goes up.  A filename missing from
    [self.data] raises [KeyError] ([None]). *)
Fixpoint edit_loop (cfg : Config) (wr : Writable) (test : list str -> bool)
    (edit : list str -> list str) (st : DM) (fs : list str) (count : nat)
    : option (DM * nat) :=
  match fs with
  | [] => Some (st, count)
  | filename :: r =>
      match dict_get (data st) filename with
      | None => None
      | Some o =>
          let tags := deref st o in
          if test tags then
            let st := heap_set st o (edit tags) in
            let st := fst (save_tags cfg wr st filename (deref st o)) in
            edit_loop cfg wr test edit st r (S count)
          else edit_loop cfg wr test edit st r count
      end
  end.

(** [remove_tag_globally(tag)]. *)
Definition remove_tag_globally (cfg : Config) (wr : Writable) (st : DM) (tag : str)
    : option (DM * nat) :=
  let tag := strip tag in
  if is_nil tag then Some (st, 0)
  else edit_loop cfg wr (mem tag) (remove_first tag) st (image_files st) 0.

(** [rename_tag_globally(old_tag, new_tag)]. *)
Definition rename_tag_globally (cfg : Config) (wr : Writable) (st : DM)
    (old_tag new_tag : str) : option (DM * nat) :=
  let old_tag := strip old_tag in
  let new_tag := strip new_tag in
  if is_nil old_tag || is_nil new_tag || str_eqb old_tag new_tag then Some (st, 0)
  else edit_loop cfg wr (mem old_tag) (replace_first old_tag new_tag) st (image_files st) 0.

(** [needle in hay] for two strings. *)
Fixpoint contains (needle hay : str) : bool :=
  prefixb needle hay || match hay with [] => false | _ :: r => contains needle r end.

(** [filter_images_by_tag(search_term)]; [image_files.copy()] is a
    value here. *)
Definition filter_images_by_tag (st : DM) (search_term : str) : list str :=
  if is_nil search_term then image_files st
  else
    let search_term := lower search_term in
    filter (fun filename =>
              existsb (fun tag => contains search_term (lower tag)) (get_tags st filename))
           (image_files st).

(** [suggestions.add(x)] on a set kept as its elements in insertion
    order. *)
Definition set_add (x : str) (l : list str) : list str :=
  if mem x l then l else l ++ [x].

(** The two nested loops of [get_local_suggestions]. *)
Definition suggestion_set (threshold : nat) (st : DM) (current_tags : list str) : list str :=
  fold_left (fun suggestions current_tag =>
    fold_left (fun suggestions (gc : str * nat) =>
      let global_tag := fst gc in
      if negb (mem global_tag current_tags) then
        if levenshtein_distance current_tag global_tag <=? threshold
        then set_add global_tag suggestions else suggestions
      else suggestions)
      (most_common (tag_frequency st)) suggestions)
    current_tags [].

(** [get_local_suggestions(current_tags)] with [SIMILARITY_THRESHOLD]
    [threshold].  Iterating a Python [set] gives its elements in an order
    fixed by hashing: [set_order] is that order.  The
    [sort(key=count, reverse=True)] is stable, the same sort as
    [most_common]. *)
Definition get_local_suggestions (set_order : list str -> list str) (threshold : nat)
    (st : DM) (current_tags : list str) : list (str * nat) :=
  most_common (map (fun tag => (tag, counter_get (tag_frequency st) tag))
                   (set_order (suggestion_set threshold st current_tags))).

(** Distinct filenames of [self.data] hold distinct list objects, all
    allocated: true of every state [load_data] and [save_tags] build. *)
Definition heap_wf (st : DM) : Prop :=
  NoDup (map snd (data st)) /\ Forall (fun o => o < length (heap st)) (map snd (data st)).

(* ------------------------------------------------------------------ *)
(** ** The [CategoryOrganizer]: its edits, undo and redo *)
(* ------------------------------------------------------------------ *)

(** The state [_push_to_undo], [_undo] and [_redo] copy: the categories
    (through a JSON round trip, so as values), [uncategorized_tags] and
    [tag_renames].  A category's ['description'] is copied along but never
    changed by the organizer, and is left out with it. *)
Record Snapshot := mkSnapshot {
  snap_categories : list Category;
  snap_uncategorized : counter;
  snap_renames : list (str * str) }.

(** The attributes of a [CategoryOrganizer] its edits read and write. *)
Record Org := mkOrg {
  categories : list Category;
  uncategorized_tags : counter;
  tag_renames : list (str * str);
  undo_stack : list Snapshot;
  redo_stack : list Snapshot }.

Definition snapshot (o : Org) : Snapshot :=
  mkSnapshot (categories o) (uncategorized_tags o) (tag_renames o).

Definition with_categories (o : Org) (cats : list Category) : Org :=
  mkOrg cats (uncategorized_tags o) (tag_renames o) (undo_stack o) (redo_stack o).
Definition with_uncategorized (o : Org) (u : counter) : Org :=
  mkOrg (categories o) u (tag_renames o) (undo_stack o) (redo_stack o).
Definition with_renames (o : Org) (r : list (str * str)) : Org :=
  mkOrg (categories o) (uncategorized_tags o) r (undo_stack o) (redo_stack o).

(** [_push_to_undo]: append a snapshot, clear the redo stack. *)
Definition push_to_undo (o : Org) : Org :=
  mkOrg (categories o) (uncategorized_tags o) (tag_renames o)
        (undo_stack o ++ [snapshot o]) [].

(** [_undo]; with an empty stack it only shows "Nothing to undo". *)
Definition org_undo (o : Org) : Org :=
  match pop_last (undo_stack o) with
  | None => o
  | Some (us, previous_state) =>
      mkOrg (snap_categories previous_state) (snap_uncategorized previous_state)
            (snap_renames previous_state) us (redo_stack o ++ [snapshot o])
  end.

(** [_redo]; with an empty stack it only shows "Nothing to redo". *)
Definition org_redo (o : Org) : Org :=
  match pop_last (redo_stack o) with
  | None => o
  | Some (rs, next_state) =>
      mkOrg (snap_categories next_state) (snap_uncategorized next_state)
            (snap_renames next_state) (undo_stack o ++ [snapshot o]) rs
  end.

Definition set_tags (c : Category) (tags : list str) : Category :=
  mkCategory (cat_name c) (auto_keywords c) tags.

(** [for category in self.categories: if category['name'] == name:
    <update category['tags']>; break]. *)
Fixpoint update_named (name : str) (f : list str -> list str) (cats : list Category)
    : list Category :=
  match cats with
  | [] => []
  | c :: r =>
      if str_eqb (cat_name c) name then set_tags c (f (cat_tags c)) :: r
      else c :: update_named name f r
  end.

(** [if tag in tags: tags.remove(tag)]. *)
Definition remove_if_present (tag : str) (tags : list str) : list str :=
  if mem tag tags then remove_first tag tags else tags.

(** [if tag not in tags: tags.append(tag)]. *)
Definition append_if_absent (tag : str) (tags : list str) : list str :=
  if mem tag tags then tags else tags ++ [tag].

(** [if k in d: del d[k]]. *)
Definition del_if_present {V} (d : list (str * V)) (k : str) : list (str * V) :=
  match dict_get d k with Some _ => dict_del d k | None => d end.

(** [_move_tag_to_category(tag, from_category, to_category)]. *)
Definition move_tag_to_category (tag from_category to_category : str) (o : Org) : Org :=
  let o := push_to_undo o in
  let cats := update_named from_category (remove_if_present tag) (categories o) in
  with_categories o (update_named to_category (append_if_absent tag) cats).

(** [_add_uncategorized_to_category(tag, category_name)]. *)
Definition add_uncategorized_to_category (tag category_name : str) (o : Org) : Org :=
  let o := push_to_undo o in
  let o := with_uncategorized o (del_if_present (uncategorized_tags o) tag) in
  with_categories o (update_named category_name (append_if_absent tag) (categories o)).

(** [_add_tag_to_category(category_name)]; [answer] is what
    [simpledialog.askstring] returns, [None] when cancelled. *)
Definition add_tag_to_category (category_name : str) (answer : option str) (o : Org) : Org :=
  match answer with
  | None => o
  | Some new_tag =>
      if is_nil new_tag || is_nil (strip new_tag) then o
      else
        let new_tag := strip new_tag in
        let o := push_to_undo o in
        let o := with_categories o
                   (update_named category_name (append_if_absent new_tag) (categories o)) in
        with_uncategorized o (del_if_present (uncategorized_tags o) new_tag)
  end.

(** The loop of [_remove_from_category] over [self.tag_renames]:
    [actual_tag]. *)
Fixpoint actual_tag_of (tag : str) (renames : list (str * str)) : str :=
  match renames with
  | [] => tag
  | (orig, _) :: r => if str_eqb orig tag then orig else actual_tag_of tag r
  end.

(** [_remove_from_category(tag, category_name)], with the data manager
    [dm] and the organizer's [image_list]. *)
Definition remove_from_category (dm : DM) (image_list : list str)
    (tag category_name : str) (o : Org) : Org :=
  let o := push_to_undo o in
  let o := with_categories o (update_named category_name (remove_if_present tag) (categories o)) in
  match dict_get (uncategorized_tags o) tag with
  | Some _ => o
  | None =>
      let count :=
        length (filter (fun img_path =>
                          let tags := get_tags dm img_path in
                          let actual_tag := actual_tag_of tag (tag_renames o) in
                          mem actual_tag tags || mem tag tags) image_list) in
      with_uncategorized o (dict_set (uncategorized_tags o) tag count)
  end.

(** [_rename_tag_inline(original_tag)] with the dialog's [answer]. *)
Definition rename_tag_inline (original_tag : str) (answer : option str) (o : Org) : Org :=
  match answer with
  | None => o
  | Some new_name =>
      if negb (is_nil new_name) && negb (is_nil (strip new_name))
         && negb (str_eqb new_name original_tag) then
        let o := push_to_undo o in
        with_renames o (dict_set (tag_renames o) original_tag (strip new_name))
      else o
  end.

(** [_auto_categorize] on the organizer, with the count it reports. *)
Definition org_auto_categorize (o : Org) : Org * nat :=
  let o := push_to_undo o in
  let '(cats, uncat, n) := auto_categorize (categories o) (uncategorized_tags o) in
  (mkOrg cats uncat (tag_renames o) (undo_stack o) (redo_stack o), n).

(** [{v: k for k, v in self.tag_renames.items()}]. *)
Definition reverse_renames (renames : list (str * str)) : list (str * str) :=
  fold_left (fun d (kv : str * str) => dict_set d (snd kv) (fst kv)) renames [].

(** [[line.strip() for line in new_text.split('\n') if line.strip()]] of
    [new_text = text.strip()]. *)
Definition text_lines (text : str) : list str :=
  filter (fun line => negb (is_nil line)) (map strip (split_on "010" (strip text))).

(** The loop of [apply_changes] that maps the lines back to tags. *)
Definition new_order_of (renames : list (str * str)) (original_tags : list str)
    (new_lines : list str) : list str :=
  let rr := reverse_renames renames in
  fold_left (fun new_order line =>
    match dict_get rr line with
    | Some original_tag =>
        if mem original_tag original_tags then new_order ++ [original_tag] else new_order
    | None => if mem line original_tags then new_order ++ [line] else new_order
    end) new_lines [].

(** [set(a) == set(b)]. *)
Definition same_set (a b : list str) : bool :=
  forallb (fun x => mem x b) a && forallb (fun x => mem x a) b.

(** [_edit_category_as_text(category_name)] followed by a click on
    Apply with [text] in the text widget: the organizer after the click
    and whether the new order was applied (the dialog closes) or refused
    with the error box (the dialog stays).  With no such category the
    dialog never opens. *)
Definition edit_category_as_text (category_name text : str) (o : Org) : Org * bool :=
  match find (fun c => str_eqb (cat_name c) category_name) (categories o) with
  | None => (o, false)
  | Some category =>
      let original_tags := cat_tags category in
      let new_order := new_order_of (tag_renames o) original_tags (text_lines text) in
      if same_set new_order original_tags then
        let o := push_to_undo o in
        (with_categories o (update_named category_name (fun _ => new_order) (categories o)), true)
      else (o, false)
  end.

(** [_populate_uncategorized()]: the new [uncategorized_tags]. *)
Definition populate_uncategorized (dm : DM) (image_list : list str) (cats : list Category)
    : counter :=
  let all_tags := fold_left (fun c img_path => counter_update c (get_tags dm img_path))
                            image_list [] in
  let categorized_tags := concat (map cat_tags cats) in
  filter (fun tc => negb (mem (fst tc) categorized_tags)) all_tags.

(** A loop [for img_path in self.image_list: current_tags =
    get_tags(img_path); ...; save_tags(img_path, new_tags)]:
    [step current_tags] is [Some new_tags] when the body saves; the saves
    are counted. *)
Fixpoint save_each (cfg : Config) (wr : Writable) (step : list str -> option (list str))
    (st : DM) (image_list : list str) (count : nat) : DM * nat :=
  match image_list with
  | [] => (st, count)
  | img_path :: r =>
      let current_tags := get_tags st img_path in
      match step current_tags with
      | Some new_tags => save_each cfg wr step (fst (save_tags cfg wr st img_path new_tags)) r (S count)
      | None => save_each cfg wr step st r count
      end
  end.

(** The loop over [self.tag_renames] in [_save_categories]:
    [renamed_from]. *)
Fixpoint renamed_from_of (tag : str) (renames : list (str * str)) : option str :=
  match renames with
  | [] => None
  | (orig, renamed) :: r => if str_eqb renamed tag then Some orig else renamed_from_of tag r
  end.

(** The [new_order] [_save_categories] builds for one image, its sets
    kept as lists. *)
Definition save_order (cats : list Category) (renames : list (str * str))
    (current_tags : list str) : list str :=
  let '(new_order, used_tags) :=
    fold_left (fun (acc : list str * list str) tag =>
      let '(new_order, used_tags) := acc in
      let final_tag := match dict_get renames tag with Some v => v | None => tag end in
      if mem tag current_tags then (new_order ++ [final_tag], set_add tag used_tags)
      else if mem final_tag current_tags then (new_order ++ [final_tag], set_add final_tag used_tags)
      else (new_order, used_tags))
      (concat (map cat_tags cats)) ([], []) in
  fold_left (fun new_order tag =>
    if negb (mem tag used_tags) then
      match renamed_from_of tag renames with
      | Some renamed_from =>
          if negb (is_nil renamed_from) then
            if negb (mem renamed_from used_tags) then new_order ++ [tag] else new_order
          else new_order ++ [tag]
      | None => new_order ++ [tag]
      end
    else new_order) current_tags new_order.

(** [_save_categories()]: the undo snapshot and the tags saved for every
    image.  The groups file it then writes is [project_groups_images] of
    the data manager after these saves. *)
Definition save_categories (cfg : Config) (wr : Writable) (dm : DM) (image_list : list str)
    (o : Org) : Org * DM :=
  let o := push_to_undo o in
  (o, fst (save_each cfg wr (fun current_tags =>
                               Some (save_order (categories o) (tag_renames o) current_tags))
                     dm image_list 0)).

(** [_remove_tag_from_all_images(tag)] once the removal is confirmed: the
    organizer, the data manager and [removed_count].  No undo snapshot is
    taken. *)
Definition remove_tag_from_all_images (cfg : Config) (wr : Writable) (dm : DM)
    (image_list : list str) (tag : str) (o : Org) : Org * DM * nat :=
  let display_tag := match dict_get (tag_renames o) tag with Some v => v | None => tag end in
  let in_renames := match dict_get (tag_renames o) tag with Some _ => true | None => false end in
  let '(dm, removed_count) :=
    save_each cfg wr (fun current_tags =>
      if mem tag current_tags then Some (remove_first tag current_tags)
      else if mem display_tag current_tags && in_renames
      then Some (remove_first display_tag current_tags)
      else None) dm image_list 0 in
  let cats := map (fun c => set_tags c (remove_if_present tag (cat_tags c))) (categories o) in
  (mkOrg cats (del_if_present (uncategorized_tags o) tag)
         (del_if_present (tag_renames o) tag) (undo_stack o) (redo_stack o),
   dm, removed_count).

(** [Path(img_path).name] of a POSIX file path (no trailing ['/']). *)
Definition path_name (img_path : str) : str := last (split_on "/" img_path) [].


(** [tag_to_categories] of [_load_project_groups]: each tag's first
    category over the images of [image_list] listed in [images_data]. *)
Definition tag_to_categories (image_list : list str)
    (images_data : list (str * list (str * list str))) : list (str * str) :=
  fold_left (fun ttc img_path =>
    match dict_get images_data (path_name img_path) with
    | Some img_cats =>
        fold_left (fun ttc (ct : str * list str) =>
          fold_left (fun ttc tag =>
            match dict_get ttc tag with
            | Some _ => ttc
            | None => dict_set ttc tag (fst ct)
            end) (snd ct) ttc) img_cats ttc
    | None => ttc
    end) image_list [].

(** [_load_project_groups()] on the categories [_load_category_config]
    built, with [images_data] the ['images'] object of the groups file. *)
Definition load_project_groups (image_list : list str)
    (images_data : list (str * list (str * list str))) (cats : list Category)
    : list Category :=
  fold_left (fun cats (tc : str * str) => update_named (snd tc) (append_if_absent (fst tc)) cats)
            (tag_to_categories image_list images_data) cats.

(** Specification side, not in the source: the (tag, category name)
    listings of the groups file for the images of [image_list], in the order
    [_load_project_groups] visits them: image by image, then category by
    category, then tag by tag. *)
Definition listings (image_list : list str)
    (images_data : list (str * list (str * list str))) : list (str * str) :=
  concat (map (fun img_path =>
    match dict_get images_data (path_name img_path) with
    | Some img_cats => concat (map (fun ct => map (fun tag => (tag, fst ct)) (snd ct)) img_cats)
    | None => []
    end) image_list).

(** One step of [tag_to_categories] on a single listing:
    [if tag not in tag_to_categories: tag_to_categories[tag] = cat_name]. *)
Definition ttc_step (ttc : list (str * str)) (p : str * str) : list (str * str) :=
  match dict_get ttc (fst p) with Some _ => ttc | None => dict_set ttc (fst p) (snd p) end.

(** The organizer's edits, as its buttons, menus and drops call them. *)
Inductive Action :=
| Move (tag from_category to_category : str)
| AddUncategorized (tag category_name : str)
| AddTag (category_name : str) (answer : option str)
| RemoveFrom (tag category_name : str)
| Rename (original_tag : str) (answer : option str)
| AutoCategorize
| EditAsText (category_name text : str).

Definition apply_action (dm : DM) (image_list : list str) (a : Action) (o : Org) : Org :=
  match a with
  | Move tag f t => move_tag_to_category tag f t o
  | AddUncategorized tag n => add_uncategorized_to_category tag n o
  | AddTag n answer => add_tag_to_category n answer o
  | RemoveFrom tag n => remove_from_category dm image_list tag n o
  | Rename tag answer => rename_tag_inline tag answer o
  | AutoCategorize => fst (org_auto_categorize o)
  | EditAsText n text => fst (edit_category_as_text n text o)
  end.

(** [list.index(x)] for an [x] in the list. *)
Fixpoint index_of (x : str) (l : list str) : nat :=
  match l with
  | [] => 0
  | y :: r => if str_eqb x y then 0 else S (index_of x r)
  end.

(** Where [_end_drag_category] finds the pointer: on the tag pill of a
    category ([after] when it is right of the pill's middle), or on the
    drop zone of a category. *)
Inductive DropTarget :=
| OnPill (target_category_name target_tag : str) (after : bool)
| OnZone (target_category_name : str).

(** [_end_drag_category]: [dragged_tag] and [drag_source_category] as
    [_start_drag_category] ([Some] category name) or
    [_start_drag_uncategorized] ([None]) left them, and the target found
    under the pointer, [None] when there is neither a pill nor a drop
    zone. *)
Definition end_drag_category (dragged_tag drag_source_category : option str)
    (target : option DropTarget) (o : Org) : Org :=
  match dragged_tag with
  | None => o
  | Some tag =>
      if is_nil tag then o else
      match target with
      | None => o
      | Some tgt =>
          let o := push_to_undo o in
          let source_set :=
            match drag_source_category with Some n => negb (is_nil n) | None => false end in
          let o :=
            if source_set then
              let n := match drag_source_category with Some n => n | None => [] end in
              with_categories o (update_named n (remove_if_present tag) (categories o))
            else with_uncategorized o (del_if_present (uncategorized_tags o) tag) in
          match tgt with
          | OnPill target_category_name target_tag after =>
              with_categories o (update_named target_category_name (fun tags =>
                let target_idx :=
                  (if mem target_tag tags then index_of target_tag tags else length tags) +
                  (if after then 1 else 0) in
                if mem tag tags then tags else list_insert target_idx tag tags) (categories o))
          | OnZone target_category_name =>
              with_categories o (update_named target_category_name (append_if_absent tag) (categories o))
          end
      end
  end.

(** No category lists a tag twice. *)
Definition cats_nodup (cats : list Category) : Prop :=
  Forall (fun c => NoDup (cat_tags c)) cats.

(** ... nor does any snapshot on the two stacks. *)
Definition org_nodup (o : Org) : Prop :=
  cats_nodup (categories o) /\
  Forall (fun sn => cats_nodup (snap_categories sn)) (undo_stack o ++ redo_stack o).

(** A small organizer session over the images of [st_two]: category A holds
    "a" and "x", category B holds "b", and "w" is uncategorized. *)
Definition org_ab : Org :=
  mkOrg [mkCategory (s "A") [] [s "a"; s "x"]; mkCategory (s "B") [] [s "b"]]
        [(s "w", 1)] [] [] [].

(** A groups file listing the tag "b" under category A for image 1.png and
    under category B for image 2.png. *)
Definition groups_two : list (str * list (str * list str)) :=
  [(s "1.png", [(s "A", [s "b"])]); (s "2.png", [(s "B", [s "b"])])].

(* ------------------------------------------------------------------ *)
(** ** Basic lemmas *)
(* ------------------------------------------------------------------ *)

Lemma str_eqb_refl (a : str) : str_eqb a a = true.
Proof. unfold str_eqb. destruct (list_eq_dec ascii_dec a a); congruence. Qed.

Lemma str_eqb_true (a b : str) : str_eqb a b = true <-> a = b.
Proof. unfold str_eqb. destruct (list_eq_dec ascii_dec a b); split; congruence. Qed.

Lemma dict_get_set_same {V} (d : list (str * V)) k v : dict_get (dict_set d k v) k = Some v.
Proof.
  induction d as [|[k' v'] r IH]; simpl.
  - rewrite str_eqb_refl. reflexivity.
  - destruct (str_eqb k k') eqn:E; simpl; rewrite ?E; auto.
Qed.

Lemma pop_last_snoc {A} (hs : list A) x : pop_last (hs ++ [x]) = Some (hs, x).
Proof. unfold pop_last. rewrite rev_app_distr. simpl. rewrite rev_involutive. reflexivity. Qed.

Lemma pop_last_nil_inv {A} (hs : list A) : pop_last hs = None -> hs = [].
Proof.
  unfold pop_last. destruct (rev hs) eqn:E; [|discriminate].
  intros _. rewrite <- (rev_involutive hs), E. reflexivity.
Qed.

Lemma get_tags_assign_new st f l : get_tags (assign_new st f l) f = l.
Proof.
  unfold get_tags, assign_new, with_data, deref. simpl.
  rewrite dict_get_set_same. apply nth_middle.
Qed.

Ltac str_eqb_cases :=
  repeat match goal with
  | H : str_eqb _ _ = true |- _ => apply str_eqb_true in H; subst
  end;
  repeat match goal with
  | H : str_eqb ?a ?a = false |- _ => rewrite str_eqb_refl in H; discriminate H
  end.

Lemma counter_get_add c k t :
  counter_get (counter_add c k) t = counter_get c t + (if str_eqb t k then 1 else 0).
Proof.
  unfold counter_get. induction c as [|[k' n] r IH]; simpl.
  - destruct (str_eqb t k) eqn:E; reflexivity.
  - destruct (str_eqb k k') eqn:E1; simpl.
    + destruct (str_eqb t k') eqn:E2; destruct (str_eqb t k) eqn:E3;
        str_eqb_cases; lia.
    + destruct (str_eqb t k') eqn:E2; [|exact IH].
      destruct (str_eqb t k) eqn:E3; str_eqb_cases; lia.
Qed.

Lemma count_occ_str_eqb (tags : list str) t :
  count_occ (list_eq_dec ascii_dec) tags t =
  list_sum (map (fun k => if str_eqb t k then 1 else 0) tags).
Proof.
  induction tags as [|k r IH]; simpl; [reflexivity|].
  rewrite IH. unfold str_eqb.
  destruct (list_eq_dec ascii_dec k t), (list_eq_dec ascii_dec t k); subst; try congruence; lia.
Qed.

Lemma counter_get_update c tags t :
  counter_get (counter_update c tags) t =
  counter_get c t + count_occ (list_eq_dec ascii_dec) tags t.
Proof.
  unfold counter_update. rewrite count_occ_str_eqb.
  revert c. induction tags as [|k r IH]; intros c; simpl; [lia|].
  rewrite IH, counter_get_add. lia.
Qed.

Lemma counter_get_recount (ls : list (list str)) c t :
  counter_get (fold_left counter_update ls c) t =
  counter_get c t + list_sum (map (fun tags => count_occ (list_eq_dec ascii_dec) tags t) ls).
Proof.
  revert c. induction ls as [|tags r IH]; intros c; simpl; [lia|].
  rewrite IH, counter_get_update. lia.
Qed.

Lemma recalculate_frequency_true_count st t :
  counter_get (tag_frequency (recalculate_frequency st)) t = true_count (recalculate_frequency st) t.
Proof.
  unfold true_count. simpl. rewrite counter_get_recount. reflexivity.
Qed.

(* ------------------------------------------------------------------ *)
(** ** [save_tags], the undo history and the frequency index *)
(* ------------------------------------------------------------------ *)

(** C1: with [ENFORCE_LOWERCASE] set, [save_tags] commits a list with two
    equal tags: [seen] is checked with the tag before lowering, so the
    input [["A"; "A"]] is committed as [["a"; "a"]]. *)
Theorem save_tags_lowercase_commits_duplicate :
  let cfg := mkConfig true (s ", ") 10 in
  get_tags (fst (save_tags cfg wr_all (st_img []) img [s "A"; s "A"])) img = [s "a"; s "a"] /\
  ~ NoDup (get_tags (fst (save_tags cfg wr_all (st_img []) img [s "A"; s "A"])) img).
Proof.
  vm_compute. split; [reflexivity|].
  intros H. inversion H as [|x l Hx Hl]. apply Hx. left. reflexivity.
Qed.

(** C2: [add_tag_globally] appends the tag to the stored list object
    before [save_tags] copies it into the history, so on the image tagged
    [["a"]] adding ["b"] pushes [["a"; "b"]], and the following [undo]
    leaves [["a"; "b"]] instead of [["a"]]. *)
Theorem add_tag_globally_pushes_post_mutation_list :
  exists st',
    add_tag_globally AppConfig wr_all (st_img [s "a"]) (s "b") = Some (st', 1) /\
    history_stack st' = [(img, [s "a"; s "b"])] /\
    snd (undo AppConfig wr_all st') = Some img /\
    get_tags (fst (undo AppConfig wr_all st')) img = [s "a"; s "b"] /\
    get_tags (fst (undo AppConfig wr_all st')) img <> [s "a"].
Proof.
  eexists. split; [vm_compute; reflexivity|].
  vm_compute. repeat split; try reflexivity. discriminate.
Qed.

Lemma length_lastn {A} n (l : list A) : length (lastn n l) <= n.
Proof. unfold lastn. rewrite length_skipn. lia. Qed.

Lemma lastn_short {A} n (l : list A) : length l <= n -> lastn n l = l.
Proof. intros H. unfold lastn. replace (length l - n) with 0 by lia. reflexivity. Qed.

Lemma tl_skipn1 {A} (l : list A) : tl l = skipn 1 l.
Proof. destruct l; reflexivity. Qed.

Lemma push_history_lastn cfg (full : list (str * list str)) e :
  push_history cfg (lastn (HISTORY_MAX_DEPTH cfg) full) e =
  lastn (HISTORY_MAX_DEPTH cfg) (full ++ [e]).
Proof.
  unfold push_history, lastn. set (N := HISTORY_MAX_DEPTH cfg).
  assert (Happ : skipn (length full - N) (full ++ [e]) = skipn (length full - N) full ++ [e]).
  { rewrite skipn_app. replace (length full - N - length full) with 0 by lia. reflexivity. }
  rewrite <- Happ, length_skipn, !length_app. simpl length.
  destruct (Nat.le_gt_cases N (length full)) as [Hle|Hgt].
  - replace (N <? length full + 1 - (length full - N)) with true
      by (symmetry; apply Nat.ltb_lt; lia).
    rewrite tl_skipn1, skipn_skipn. f_equal. lia.
  - replace (N <? length full + 1 - (length full - N)) with false
      by (symmetry; apply Nat.ltb_ge; lia).
    f_equal. lia.
Qed.

Lemma save_tags_history cfg wr st f l :
  history_stack (fst (save_tags cfg wr st f l)) =
  push_history cfg (history_stack st) (f, get_tags st f).
Proof. unfold save_tags. destruct (wr (txt_path f)); reflexivity. Qed.

Lemma run_saves_history cfg wr ops : forall st full,
  history_stack st = lastn (HISTORY_MAX_DEPTH cfg) full ->
  history_stack (fst (run_saves cfg wr st ops)) =
  lastn (HISTORY_MAX_DEPTH cfg) (full ++ snd (run_saves cfg wr st ops)).
Proof.
  induction ops as [|[f l] r IH]; intros st full H; simpl.
  - rewrite app_nil_r. exact H.
  - specialize (IH (fst (save_tags cfg wr st f l)) (full ++ [(f, get_tags st f)])).
    destruct (run_saves cfg wr (fst (save_tags cfg wr st f l)) r) as [st' es] eqn:E.
    simpl in *. rewrite IH.
    + rewrite <- app_assoc. reflexivity.
    + rewrite save_tags_history, H. apply push_history_lastn.
Qed.

Lemma run_saves_pushed_length cfg wr ops : forall st,
  length (snd (run_saves cfg wr st ops)) = length ops.
Proof.
  induction ops as [|[f l] r IH]; intros st; simpl; [reflexivity|].
  specialize (IH (fst (save_tags cfg wr st f l))).
  destruct (run_saves cfg wr (fst (save_tags cfg wr st f l)) r); simpl in *. lia.
Qed.

(** C4: the history never grows beyond [HISTORY_MAX_DEPTH] under
    [save_tags] and [undo]; and after [HISTORY_MAX_DEPTH + 1] consecutive
    saves the history holds exactly the entries pushed by the last
    [HISTORY_MAX_DEPTH] of them, in order: the first one is evicted. *)
Theorem history_bounded_and_fifo cfg wr st :
  length (history_stack st) <= HISTORY_MAX_DEPTH cfg ->
  (forall f l, length (history_stack (fst (save_tags cfg wr st f l))) <= HISTORY_MAX_DEPTH cfg) /\
  length (history_stack (fst (undo cfg wr st))) <= HISTORY_MAX_DEPTH cfg /\
  (forall ops, length ops = HISTORY_MAX_DEPTH cfg + 1 ->
     history_stack (fst (run_saves cfg wr st ops)) = tl (snd (run_saves cfg wr st ops))).
Proof.
  intros Hlen. split; [|split].
  - intros f l. rewrite save_tags_history, <- (lastn_short _ _ Hlen), push_history_lastn.
    apply length_lastn.
  - unfold undo. destruct (pop_last (history_stack st)) as [[hs [f old]]|] eqn:E; [|exact Hlen].
    assert (Hh : history_stack st = hs ++ [(f, old)]).
    { unfold pop_last in E. destruct (rev (history_stack st)) eqn:R; [discriminate|].
      injection E as <- <-. rewrite <- (rev_involutive (history_stack st)), R. reflexivity. }
    rewrite Hh, length_app in Hlen. destruct (wr (txt_path f)); simpl; lia.
  - intros ops Hops.
    rewrite (run_saves_history cfg wr ops st (history_stack st)) by (symmetry; apply lastn_short, Hlen).
    pose proof (run_saves_pushed_length cfg wr ops st) as Hp.
    set (es := snd (run_saves cfg wr st ops)) in *.
    unfold lastn. rewrite length_app, Hp, Hops.
    replace (length (history_stack st) + (HISTORY_MAX_DEPTH cfg + 1) - HISTORY_MAX_DEPTH cfg)
      with (length (history_stack st) + 1) by lia.
    rewrite skipn_app. replace (length (history_stack st) + 1 - length (history_stack st)) with 1 by lia.
    rewrite skipn_all2 by lia. destruct es; reflexivity.
Qed.

Lemma history_bounded_and_fifo_witness :
  length (history_stack (st_img [s "a"])) <= HISTORY_MAX_DEPTH (mkConfig false (s ", ") 1) /\
  history_stack (fst (run_saves (mkConfig false (s ", ") 1) wr_all (st_img [s "a"])
                        [(img, [s "b"]); (img, [s "c"])])) = [(img, [s "b"])].
Proof.
  split; [simpl; lia|].
  pose proof (history_bounded_and_fifo (mkConfig false (s ", ") 1) wr_all (st_img [s "a"])) as H.
  destruct H as [_ [_ H]]; [simpl; lia|].
  rewrite (H [(img, [s "b"]); (img, [s "c"])]) by reflexivity.
  vm_compute. reflexivity.
Defined.

Lemma pop_last_some_inv {A} (l hs : list A) x : pop_last l = Some (hs, x) -> l = hs ++ [x].
Proof.
  unfold pop_last. destruct (rev l) eqn:R; [discriminate|].
  injection 1 as <- <-. rewrite <- (rev_involutive l), R. reflexivity.
Qed.

(** C9: whenever [save_tags] returns [True], or [undo] returns a
    filename, the frequency index equals the true count of every tag over
    the committed lists of all images. *)
Theorem saved_index_is_true_count cfg wr st :
  (forall f l, snd (save_tags cfg wr st f l) = true ->
     forall t, counter_get (tag_frequency (fst (save_tags cfg wr st f l))) t =
               true_count (fst (save_tags cfg wr st f l)) t) /\
  (forall f, snd (undo cfg wr st) = Some f ->
     forall t, counter_get (tag_frequency (fst (undo cfg wr st))) t =
               true_count (fst (undo cfg wr st)) t).
Proof.
  split.
  - intros f l. unfold save_tags. destruct (wr (txt_path f)); simpl; [|discriminate|discriminate].
    intros _ t. apply recalculate_frequency_true_count.
  - intros f. unfold undo. destruct (pop_last (history_stack st)) as [[hs [g old]]|];
      [|discriminate].
    destruct (wr (txt_path g)); simpl; [|discriminate|discriminate].
    intros _ t. apply recalculate_frequency_true_count.
Qed.

Lemma saved_index_is_true_count_witness :
  snd (save_tags AppConfig wr_all (st_img [s "a"]) img [s "a"; s "b"]) = true /\
  counter_get (tag_frequency (fst (save_tags AppConfig wr_all (st_img [s "a"]) img [s "a"; s "b"]))) (s "b") =
  true_count (fst (save_tags AppConfig wr_all (st_img [s "a"]) img [s "a"; s "b"])) (s "b").
Proof.
  split; [vm_compute; reflexivity|].
  apply (proj1 (saved_index_is_true_count AppConfig wr_all (st_img [s "a"])) img [s "a"; s "b"]).
  vm_compute. reflexivity.
Defined.

(** C10: with a non-empty history, an [undo] whose write fails still pops
    the last entry and installs its list as the image's tags, returns
    [None] (as an empty history does) and leaves the frequency index as it
    was.  The sidecar is untouched when [open] fails, and truncated to
    what was flushed when the write fails after [open]. *)
Theorem undo_write_failure_not_atomic cfg wr st hs f old :
  history_stack st = hs ++ [(f, old)] -> wr (txt_path f) <> Written ->
  snd (undo cfg wr st) = None /\
  history_stack (fst (undo cfg wr st)) = hs /\
  get_tags (fst (undo cfg wr st)) f = old /\
  tag_frequency (fst (undo cfg wr st)) = tag_frequency st /\
  files (fst (undo cfg wr st)) =
    match wr (txt_path f) with
    | WriteFails kept =>
        dict_set (files st) (txt_path f) (firstn kept (join (TAG_SEPARATOR cfg) old))
    | _ => files st
    end /\
  snd (undo cfg wr (with_history st [])) = None.
Proof.
  intros Hh Hw. unfold undo. rewrite Hh, pop_last_snoc.
  destruct (wr (txt_path f)) as [| |kept]; [contradiction| |]; simpl;
    (repeat split; try reflexivity; apply get_tags_assign_new).
Qed.

Lemma undo_write_failure_not_atomic_witness :
  history_stack (with_history (st_img [s "a"; s "b"]) [(img, [s "a"])]) = [] ++ [(img, [s "a"])] /\
  (fun _ : str => WriteFails 0) (txt_path img) <> Written /\
  get_tags (fst (undo AppConfig (fun _ => WriteFails 0)
                  (with_history (st_img [s "a"; s "b"]) [(img, [s "a"])]))) img = [s "a"] /\
  files (fst (undo AppConfig (fun _ => WriteFails 0)
                (with_history (st_img [s "a"; s "b"]) [(img, [s "a"])]))) = [(s "img.txt", [])].
Proof.
  assert (H1 : history_stack (with_history (st_img [s "a"; s "b"]) [(img, [s "a"])]) =
               [] ++ [(img, [s "a"])]) by reflexivity.
  assert (H2 : (fun _ : str => WriteFails 0) (txt_path img) <> Written) by discriminate.
  destruct (undo_write_failure_not_atomic AppConfig (fun _ => WriteFails 0)
              (with_history (st_img [s "a"; s "b"]) [(img, [s "a"])]) [] img [s "a"] H1 H2)
    as [_ [_ [H3 [_ [H4 _]]]]].
  split; [exact H1|]. split; [exact H2|]. split; [exact H3|].
  rewrite H4. vm_compute. reflexivity.
Defined.

(* ------------------------------------------------------------------ *)
(** ** [get_all_tags_by_frequency] *)
(* ------------------------------------------------------------------ *)

Definition count_ge (x y : str * nat) : Prop := snd y <= snd x.

Lemma insert_desc_perm x acc : Permutation (insert_desc x acc) (x :: acc).
Proof.
  induction acc as [|y r IH]; simpl; [reflexivity|].
  destruct (snd y <? snd x); [reflexivity|].
  rewrite IH. apply perm_swap.
Qed.

Lemma insert_desc_sorted x acc : Sorted count_ge acc -> Sorted count_ge (insert_desc x acc).
Proof.
  induction acc as [|y r IH]; simpl; intros H.
  - repeat constructor.
  - destruct (snd y <? snd x) eqn:E.
    + apply Nat.ltb_lt in E. constructor; [exact H|]. constructor. unfold count_ge. lia.
    + apply Nat.ltb_ge in E. apply Sorted_inv in H as [Hr Hy].
      constructor; [apply IH, Hr|].
      destruct r as [|z r']; simpl.
      * constructor. unfold count_ge. lia.
      * inversion Hy; subst. destruct (snd z <? snd x); constructor; unfold count_ge in *; lia.
Qed.

Lemma count_ge_trans : forall x y z, count_ge x y -> count_ge y z -> count_ge x z.
Proof. intros a b c. unfold count_ge. lia. Qed.

Lemma insert_desc_filter x acc n : Sorted count_ge acc ->
  filter (fun y => snd y =? n) (insert_desc x acc) =
  filter (fun y => snd y =? n) acc ++ filter (fun y => snd y =? n) [x].
Proof.
  induction acc as [|y r IH]; simpl; intros H; [destruct (snd x =? n); reflexivity|].
  destruct (snd y <? snd x) eqn:E.
  - apply Nat.ltb_lt in E.
    assert (Hall : Forall (fun z => snd z < snd x) (y :: r)).
    { apply Sorted_StronglySorted in H; [|exact count_ge_trans].
      apply StronglySorted_inv in H as [_ Hf]. constructor; [exact E|].
      eapply Forall_impl; [|exact Hf]. intros z. unfold count_ge. lia. }
    simpl. destruct (snd x =? n) eqn:Ex.
    + apply Nat.eqb_eq in Ex. subst n.
      assert (Hnil : filter (fun y0 => snd y0 =? snd x) (y :: r) = []).
      { clear H IH. induction Hall as [|z l Hz Hl IHl]; simpl; [reflexivity|].
        replace (snd z =? snd x) with false by (symmetry; apply Nat.eqb_neq; lia). exact IHl. }
      simpl in Hnil. rewrite Hnil. reflexivity.
    + rewrite app_nil_r. reflexivity.
  - apply Sorted_inv in H as [Hr _]. simpl. rewrite (IH Hr).
    destruct (snd y =? n); reflexivity.
Qed.

Lemma most_common_fold c : forall acc, Sorted count_ge acc ->
  let res := fold_left (fun acc x => insert_desc x acc) c acc in
  Sorted count_ge res /\ Permutation res (acc ++ c) /\
  forall n, filter (fun y => snd y =? n) res =
            filter (fun y => snd y =? n) acc ++ filter (fun y => snd y =? n) c.
Proof.
  induction c as [|x r IH]; intros acc H; simpl.
  - rewrite app_nil_r. repeat split; auto. intros n. rewrite app_nil_r. reflexivity.
  - destruct (IH (insert_desc x acc) (insert_desc_sorted x acc H)) as [H1 [H2 H3]].
    repeat split.
    + exact H1.
    + rewrite H2, insert_desc_perm. apply Permutation_middle.
    + intros n. rewrite H3, (insert_desc_filter x acc n H), <- app_assoc. simpl.
      destruct (snd x =? n); reflexivity.
Qed.

Lemma keys_counter_add c k :
  map fst (counter_add c k) = if mem k (map fst c) then map fst c else map fst c ++ [k].
Proof.
  induction c as [|[k' n] r IH]; simpl; [reflexivity|].
  unfold mem in *. simpl. destruct (str_eqb k k') eqn:E.
  - apply str_eqb_true in E. subst. reflexivity.
  - simpl. rewrite IH. destruct (existsb (str_eqb k) (map fst r)); reflexivity.
Qed.

Lemma keys_recount (ls : list (list str)) : forall c,
  map fst (fold_left counter_update ls c) =
  fold_left (fun acc x => if mem x acc then acc else acc ++ [x]) (concat ls) (map fst c).
Proof.
  induction ls as [|tags r IH]; intros c; simpl; [reflexivity|].
  rewrite IH, fold_left_app. f_equal.
  unfold counter_update. revert c. induction tags as [|k ks IHk]; intros c; simpl; [reflexivity|].
  rewrite IHk, keys_counter_add. reflexivity.
Qed.

(** C8 fails: ties are not broken by tag, as the sibling sorts of
    [bulk_editor.py] and [tag_editor.py] break them.  With two images
    tagged [["b"]] and [["a"]] both tags have count 1, and
    [get_all_tags_by_frequency] lists ["b"] before the smaller ["a"]. *)
Lemma all_by_frequency_ties_not_lexicographic :
  get_all_tags_by_frequency st_two = [(s "b", 1); (s "a", 1)] /\
  str_ltb (s "a") (s "b") = true /\
  get_all_tags_by_frequency st_two <> [(s "a", 1); (s "b", 1)].
Proof. vm_compute. split; [reflexivity|]. split; [reflexivity|]. discriminate. Qed.

(** [get_all_tags_by_frequency] returns all (tag, count) pairs of the
    index, sorted by count descending; pairs of equal count keep the
    index's insertion order, which after a rebuild is the order in which
    each tag is first met over [self.data.values()]. *)
Theorem all_by_frequency_stable_desc st :
  Sorted count_ge (get_all_tags_by_frequency st) /\
  Permutation (get_all_tags_by_frequency st) (tag_frequency st) /\
  (forall n, filter (fun y => snd y =? n) (get_all_tags_by_frequency st) =
             filter (fun y => snd y =? n) (tag_frequency st)) /\
  map fst (tag_frequency (recalculate_frequency st)) =
  first_occurrences (concat (data_values st)).
Proof.
  destruct (most_common_fold (tag_frequency st) [] (Sorted_nil _)) as [H1 [H2 H3]].
  split; [exact H1|]. split; [exact H2|]. split; [exact H3|].
  simpl. rewrite keys_recount. reflexivity.
Qed.

(* ------------------------------------------------------------------ *)
(** ** [_levenshtein_distance] *)
(* ------------------------------------------------------------------ *)

Lemma lev_nil_l b : lev [] b = length b.
Proof. reflexivity. Qed.

Lemma lev_nil_r a : lev a [] = length a.
Proof. destruct a; reflexivity. Qed.

Lemma lev_cons_cons x a y b :
  lev (x :: a) (y :: b) =
  Nat.min (Nat.min (lev a (y :: b) + 1) (lev (x :: a) b + 1)) (lev a b + cost x y).
Proof. reflexivity. Qed.

Lemma cost_sym x y : cost x y = cost y x.
Proof. unfold cost. destruct (ascii_dec x y), (ascii_dec y x); congruence. Qed.

Lemma lev_sym_n n : forall a b, length a + length b <= n -> lev a b = lev b a.
Proof.
  induction n as [|n IH]; intros a b Hn.
  - destruct a, b; simpl in *; try lia; reflexivity.
  - destruct a as [|x a], b as [|y b].
    + reflexivity.
    + rewrite lev_nil_l, lev_nil_r. reflexivity.
    + rewrite lev_nil_l, lev_nil_r. reflexivity.
    + simpl in Hn. rewrite !lev_cons_cons, cost_sym.
      rewrite (IH a (y :: b)), (IH (x :: a) b), (IH a b) by (simpl; lia). lia.
Qed.

Lemma lev_sym a b : lev a b = lev b a.
Proof. apply (lev_sym_n (length a + length b)). lia. Qed.

Lemma lev_refl a : lev a a = 0.
Proof.
  induction a as [|x a IH]; [reflexivity|].
  rewrite lev_cons_cons, IH. unfold cost. destruct (ascii_dec x x); [lia|congruence].
Qed.

Lemma lev_zero a : forall b, lev a b = 0 -> a = b.
Proof.
  induction a as [|x a IH]; intros b H.
  - rewrite lev_nil_l in H. destruct b; [reflexivity|discriminate].
  - destruct b as [|y b]; [rewrite lev_nil_r in H; discriminate|].
    rewrite lev_cons_cons in H.
    assert (H0 : lev a b = 0 /\ cost x y = 0) by lia. destruct H0 as [H1 H2].
    unfold cost in H2. destruct (ascii_dec x y); [|discriminate]. subst.
    rewrite (IH b H1). reflexivity.
Qed.

Lemma firstn_S_nth {A} (l : list A) i d :
  i < length l -> firstn (S i) l = firstn i l ++ [nth i l d].
Proof.
  revert i. induction l as [|x l IH]; intros i Hi; simpl in Hi; [lia|].
  destruct i as [|i]; [reflexivity|].
  change (firstn (S (S i)) (x :: l)) with (x :: firstn (S i) l).
  rewrite (IH i) by lia. reflexivity.
Qed.

Lemma nth_map_seq (f : nat -> nat) j m : j < m -> nth j (map f (seq 0 m)) 0 = f j.
Proof.
  intros H. rewrite (nth_indep _ 0 (f 0)) by (rewrite length_map, length_seq; lia).
  rewrite map_nth, seq_nth by lia. reflexivity.
Qed.

Lemma skipn_S_nth {A} (l : list A) k c l' :
  skipn k l = c :: l' -> skipn (S k) l = l' /\ nth k l c = c.
Proof.
  revert k. induction l as [|x l IH]; intros k H; destruct k as [|k]; simpl in *;
    try discriminate.
  - injection H as <- <-. split; reflexivity.
  - apply IH, H.
Qed.

Section Rows.
Variables s1 s2 : str.

(** The value the DP table holds at row [i], column [j]. *)
Let Dm (i j : nat) : nat := lev (rev (firstn i s1)) (rev (firstn j s2)).

Let row (i : nat) : list nat := map (Dm i) (seq 0 (length s2 + 1)).

Lemma Dm_step i k c1 c2 :
  i < length s1 -> k < length s2 -> nth i s1 c1 = c1 -> nth k s2 c2 = c2 ->
  Dm (S i) (S k) =
  Nat.min (Nat.min (Dm i (S k) + 1) (Dm (S i) k + 1)) (Dm i k + cost c1 c2).
Proof.
  intros Hi Hk E1 E2. unfold Dm.
  assert (HA : rev (firstn (S i) s1) = c1 :: rev (firstn i s1)).
  { rewrite (firstn_S_nth s1 i c1 Hi), E1, rev_app_distr. reflexivity. }
  assert (HB : rev (firstn (S k) s2) = c2 :: rev (firstn k s2)).
  { rewrite (firstn_S_nth s2 k c2 Hk), E2, rev_app_distr. reflexivity. }
  rewrite HA, HB. apply lev_cons_cons.
Qed.

Lemma inner_rows i c1 : i < length s1 -> nth i s1 c1 = c1 ->
  forall l k acc, skipn k s2 = l -> k + length l = length s2 ->
  acc = map (Dm (S i)) (seq 0 (k + 1)) ->
  fold_left (lev_cell c1 (row i)) (enumerate_from k l) acc = row (S i).
Proof.
  intros Hi E1 l. induction l as [|c2 l IH]; intros k acc Hs Hk Hacc; simpl.
  - subst acc. unfold row. simpl in Hk. rewrite Nat.add_0_r in Hk. rewrite Hk. reflexivity.
  - simpl in Hk. destruct (skipn_S_nth s2 k c2 l Hs) as [Hs' E2].
    apply (IH (S k)); [exact Hs'|lia|].
    subst acc. unfold lev_cell, row.
    rewrite !nth_map_seq by lia.
    replace (k + 1) with (S k) by lia.
    rewrite <- (Dm_step i k c1 c2 Hi ltac:(lia) E1 E2).
    replace (S k + 1) with (S (S k)) by lia.
    symmetry. rewrite (seq_S (S k) 0), map_app. reflexivity.
Qed.

Lemma row_step i c1 : i < length s1 -> nth i s1 c1 = c1 ->
  lev_row s2 (row i) (i, c1) = row (S i).
Proof.
  intros Hi E1. unfold lev_row, enumerate.
  apply (inner_rows i c1 Hi E1 s2 0); [reflexivity|reflexivity|].
  simpl. unfold Dm. rewrite lev_nil_r, length_rev.
  rewrite length_firstn. f_equal. lia.
Qed.

Lemma outer_rows : forall l k, skipn k s1 = l -> k + length l = length s1 ->
  fold_left (lev_row s2) (enumerate_from k l) (row k) = row (length s1).
Proof.
  intros l. induction l as [|c1 l IH]; intros k Hs Hk; cbn [fold_left enumerate_from].
  - simpl in Hk. rewrite Nat.add_0_r in Hk. rewrite Hk. reflexivity.
  - simpl in Hk. destruct (skipn_S_nth s1 k c1 l Hs) as [Hs' E1].
    rewrite (row_step k c1 ltac:(lia) E1). apply IH; [exact Hs'|lia].
Qed.

Lemma levenshtein_rows_lev : levenshtein_rows s1 s2 = lev (rev s1) (rev s2).
Proof.
  unfold levenshtein_rows. destruct (length s2 =? 0) eqn:E.
  - apply Nat.eqb_eq, length_zero_iff_nil in E. subst.
    simpl. rewrite lev_nil_r, length_rev. reflexivity.
  - assert (H0 : seq 0 (length s2 + 1) = row 0).
    { unfold row. rewrite <- (map_id (seq 0 _)) at 1. apply map_ext_in.
      intros j Hj. apply in_seq in Hj. unfold Dm. simpl.
      rewrite length_rev, length_firstn. lia. }
    unfold enumerate. rewrite H0, (outer_rows s1 0 eq_refl eq_refl).
    unfold row. rewrite Nat.add_1_r, seq_S, map_last, last_last.
    unfold Dm. simpl. rewrite !firstn_all. reflexivity.
Qed.

End Rows.

(** The code computes the classic recurrence on last characters. *)
Lemma levenshtein_distance_lev a b : levenshtein_distance a b = lev (rev a) (rev b).
Proof.
  unfold levenshtein_distance. destruct (length a <? length b).
  - rewrite levenshtein_rows_lev. apply lev_sym.
  - apply levenshtein_rows_lev.
Qed.

(** C5: [_levenshtein_distance] is the classic unit-cost Levenshtein
    distance (the recurrence on the last characters of both strings); it
    is symmetric, zero exactly on equal strings, and 1 on
    ["color"], ["colour"]. *)
Theorem levenshtein_classic_sym_zero a b :
  levenshtein_distance a b = lev (rev a) (rev b) /\
  levenshtein_distance a b = levenshtein_distance b a /\
  (levenshtein_distance a b = 0 <-> a = b) /\
  levenshtein_distance (s "color") (s "colour") = 1.
Proof.
  rewrite !levenshtein_distance_lev. split; [reflexivity|]. split; [apply lev_sym|].
  split; [|vm_compute; reflexivity].
  split.
  - intros H. apply lev_zero in H. rewrite <- (rev_involutive a), H, rev_involutive. reflexivity.
  - intros ->. apply lev_refl.
Qed.

(* ------------------------------------------------------------------ *)
(** ** Sidecar round trip *)
(* ------------------------------------------------------------------ *)

Lemma lstrip_app x y :
  lstrip (x ++ y) = match lstrip x with [] => lstrip y | _ => lstrip x ++ y end.
Proof.
  induction x as [|c x IH]; simpl; [reflexivity|].
  destruct (is_space c); [exact IH|reflexivity].
Qed.

Lemma lstrip_spaces ws y : forallb is_space ws = true -> lstrip (ws ++ y) = lstrip y.
Proof.
  intros H. rewrite lstrip_app.
  replace (lstrip ws) with (@nil ascii); [reflexivity|].
  induction ws as [|c ws IH]; simpl in *; [reflexivity|].
  apply andb_prop in H as [H1 H2]. rewrite H1. apply IH, H2.
Qed.

Lemma forallb_rev {A} (f : A -> bool) l : forallb f (rev l) = forallb f l.
Proof.
  induction l as [|x l IH]; simpl; [reflexivity|].
  rewrite forallb_app, IH. simpl. destruct (f x), (forallb f l); reflexivity.
Qed.

Lemma rstrip_spaces y ws : forallb is_space ws = true -> rstrip (y ++ ws) = rstrip y.
Proof.
  intros H. unfold rstrip. rewrite rev_app_distr, lstrip_spaces; [reflexivity|].
  rewrite forallb_rev. exact H.
Qed.

Lemma rstrip_app x y : rstrip y <> [] -> rstrip (x ++ y) = x ++ rstrip y.
Proof.
  unfold rstrip. intros H. rewrite rev_app_distr, lstrip_app.
  destruct (lstrip (rev y)) eqn:E; [contradiction|].
  rewrite rev_app_distr, rev_involutive. reflexivity.
Qed.

Lemma lstrip_head x c r : lstrip x = c :: r -> is_space c = false.
Proof.
  induction x as [|d x IH]; simpl; [discriminate|].
  destruct (is_space d) eqn:E; [exact IH|]. injection 1 as <- <-. exact E.
Qed.

Lemma lstrip_lstrip x : lstrip (lstrip x) = lstrip x.
Proof.
  induction x as [|c x IH]; simpl; [reflexivity|].
  destruct (is_space c) eqn:E; [exact IH|]. simpl. rewrite E. reflexivity.
Qed.

Lemma rstrip_rstrip x : rstrip (rstrip x) = rstrip x.
Proof. unfold rstrip. rewrite rev_involutive, lstrip_lstrip. reflexivity. Qed.

Lemma rstrip_cons c r : is_space c = false -> rstrip (c :: r) = c :: rstrip r.
Proof.
  intros Hc. unfold rstrip. simpl. rewrite lstrip_app.
  destruct (lstrip (rev r)) eqn:E; simpl; rewrite ?Hc; [reflexivity|].
  rewrite rev_app_distr. reflexivity.
Qed.

Lemma lstrip_strip x : lstrip (strip x) = strip x.
Proof.
  unfold strip. destruct (lstrip x) as [|c r] eqn:E; [reflexivity|].
  apply lstrip_head in E. rewrite rstrip_cons by exact E. simpl. rewrite E. reflexivity.
Qed.

Lemma rstrip_strip x : rstrip (strip x) = strip x.
Proof. unfold strip. apply rstrip_rstrip. Qed.

Lemma strip_strip x : strip (strip x) = strip x.
Proof. unfold strip at 1. rewrite lstrip_strip. apply rstrip_strip. Qed.

Lemma in_lstrip c x : In c (lstrip x) -> In c x.
Proof.
  induction x as [|d x IH]; simpl; [tauto|].
  destruct (is_space d); [intros H; right; apply IH, H|tauto].
Qed.

Lemma in_strip c x : In c (strip x) -> In c x.
Proof.
  unfold strip, rstrip. intros H. apply in_rev in H. apply in_lstrip in H.
  apply in_rev in H. apply in_lstrip, H.
Qed.

(** [lower] changes no blank and makes or removes no comma. *)
Lemma is_space_lower c : is_space (lower_char c) = is_space c.
Proof. destruct c as [[] [] [] [] [] [] [] []]; vm_compute; reflexivity. Qed.

Lemma lower_char_comma c : lower_char c = ","%char <-> c = ","%char.
Proof.
  split; [|intros ->; reflexivity].
  destruct c as [[] [] [] [] [] [] [] []]; vm_compute; congruence.
Qed.

Lemma lstrip_lower x : lstrip (map lower_char x) = map lower_char (lstrip x).
Proof.
  induction x as [|c x IH]; simpl; [reflexivity|].
  rewrite is_space_lower. destruct (is_space c); [exact IH|reflexivity].
Qed.

Lemma strip_lower x : strip (lower x) = lower (strip x).
Proof.
  unfold strip, rstrip, lower. rewrite lstrip_lower, <- map_rev, lstrip_lower, map_rev.
  reflexivity.
Qed.

(** What a committed tag satisfies: stripped, non-empty, comma-free. *)
Definition good_tag (t : str) : Prop := strip t = t /\ t <> [] /\ ~ In ","%char t.

Lemma clean_loop_good lc seen xs :
  Forall (fun t => ~ In ","%char t) xs -> Forall good_tag (clean_loop lc seen xs).
Proof.
  revert seen. induction xs as [|t r IH]; intros seen H; simpl; [constructor|].
  inversion H as [|? ? Ht Hr]; subst.
  destruct (negb (is_nil (strip t)) && negb (mem (strip t) seen)) eqn:E; [|apply IH, Hr].
  apply andb_prop in E as [E _]. constructor; [|apply IH, Hr].
  assert (Hne : strip t <> []) by (destruct (strip t); discriminate).
  assert (Hnc : ~ In ","%char (strip t)) by (intros Hin; apply Ht, in_strip, Hin).
  destruct lc; repeat split.
  - rewrite strip_lower, strip_strip. reflexivity.
  - unfold lower. intros Hn. apply Hne. destruct (strip t); [reflexivity|discriminate].
  - unfold lower. intros Hin. apply in_map_iff in Hin as [c [Hc Hin]].
    apply (proj1 (lower_char_comma c)) in Hc. subst. contradiction.
  - apply strip_strip.
  - exact Hne.
  - exact Hnc.
Qed.

Lemma split_on_nonnil c x : split_on c x <> [].
Proof.
  destruct x as [|d x]; simpl; [discriminate|].
  destruct (ascii_dec d c); [discriminate|]. destruct (split_on c x); discriminate.
Qed.

Lemma split_on_app c x y : ~ In c x ->
  split_on c (x ++ y) =
  match split_on c y with [] => [x] | h :: t => (x ++ h) :: t end.
Proof.
  induction x as [|d x IH]; intros Hx; simpl.
  - destruct (split_on c y) eqn:E; [exfalso; exact (split_on_nonnil c y E)|reflexivity].
  - destruct (ascii_dec d c) as [->|Hd]; [exfalso; apply Hx; left; reflexivity|].
    rewrite IH by (intros H; apply Hx; right; exact H).
    destruct (split_on c y); reflexivity.
Qed.

Lemma space_not_comma ws : forallb is_space ws = true -> ~ In ","%char ws.
Proof.
  induction ws as [|c ws IH]; simpl; [tauto|].
  intros H. apply andb_prop in H as [H1 H2]. intros [Hc|Hin]; [subst c; discriminate|].
  exact (IH H2 Hin).
Qed.

Lemma strip_frame w1 t w2 :
  forallb is_space w1 = true -> forallb is_space w2 = true -> good_tag t ->
  strip (w1 ++ t ++ w2) = t.
Proof.
  intros H1 H2 [Ht [Hne _]].
  assert (Hl : lstrip t = t) by (rewrite <- Ht; apply lstrip_strip).
  assert (Hr : rstrip t = t) by (rewrite <- Ht; apply rstrip_strip).
  unfold strip. rewrite lstrip_spaces by exact H1. rewrite lstrip_app, Hl.
  destruct t as [|c t']; [contradiction|].
  rewrite <- Hl at 2. rewrite rstrip_spaces by exact H2. rewrite Hl. exact Hr.
Qed.

Lemma join_cons sep t l : l <> [] -> join sep (t :: l) = t ++ sep ++ join sep l.
Proof. destruct l; [contradiction|reflexivity]. Qed.

Lemma join_nonnil sep l : Forall good_tag l -> l <> [] -> join sep l <> [].
Proof.
  destruct l as [|t l]; [contradiction|]. intros H _.
  inversion H as [|? ? [_ [Ht _]] _]; subst.
  destruct l; simpl; [exact Ht|]. destruct t; [contradiction|discriminate].
Qed.

Lemma strip_join sep l : Forall good_tag l -> l <> [] -> strip (join sep l) = join sep l.
Proof.
  intros Hg Hne. unfold strip.
  assert (Hl : lstrip (join sep l) = join sep l).
  { destruct l as [|t l]; [contradiction|]. inversion Hg as [|? ? [Ht [Htn _]] _]; subst.
    assert (Hlt : lstrip t = t) by (rewrite <- Ht; apply lstrip_strip).
    destruct l as [|u l]; [exact Hlt|].
    rewrite join_cons by discriminate. rewrite lstrip_app, Hlt.
    destruct t; [contradiction|reflexivity]. }
  rewrite Hl. clear Hl Hne.
  induction l as [|t l IH]; [reflexivity|].
  inversion Hg as [|? ? [Ht [Htn _]] Hl]; subst.
  destruct l as [|u l].
  - simpl. rewrite <- Ht. apply rstrip_strip.
  - rewrite join_cons by discriminate.
    rewrite app_assoc, rstrip_app, IH by (try rewrite IH; auto; apply join_nonnil; auto; discriminate).
    reflexivity.
Qed.

Lemma split_join sep w1 w2 : forallb is_space w1 = true -> forallb is_space w2 = true ->
  sep = w1 ++ ","%char :: w2 ->
  forall l ws, Forall good_tag l -> l <> [] -> forallb is_space ws = true ->
  map strip (split_on "," (ws ++ join sep l)) = l.
Proof.
  intros H1 H2 -> l. set (sep := w1 ++ ","%char :: w2). induction l as [|t l IH]; intros ws Hg Hne Hws; [contradiction|].
  inversion Hg as [|? ? Hgt Hgl]; subst.
  pose proof Hgt as [_ [_ Htc]].
  destruct l as [|u l].
  - assert (Hs : split_on "," (ws ++ t) = [ws ++ t]).
    { rewrite <- (app_nil_r (ws ++ t)) at 1. rewrite split_on_app; [simpl; rewrite app_nil_r; reflexivity|].
      intros Hin. apply in_app_or in Hin as [Hin|Hin];
        [exact (space_not_comma ws Hws Hin)|exact (Htc Hin)]. }
    simpl join. rewrite Hs. simpl. f_equal.
    rewrite <- (app_nil_r t) at 1. rewrite app_assoc, <- app_assoc.
    apply strip_frame; auto.
  - rewrite join_cons by discriminate.
    unfold sep at 1.
    replace (ws ++ t ++ (w1 ++ ","%char :: w2) ++ join sep (u :: l))
      with ((ws ++ t ++ w1) ++ ","%char :: (w2 ++ join sep (u :: l)))
      by (rewrite <- !app_assoc; reflexivity).
    rewrite split_on_app; simpl.
    + destruct (ascii_dec "," ",") as [_|]; [|congruence].
      rewrite app_nil_r. simpl. rewrite strip_frame by auto.
      f_equal. apply IH; auto. discriminate.
    + intros Hin. repeat (apply in_app_or in Hin as [Hin|Hin]);
        [exact (space_not_comma ws Hws Hin)|exact (Htc Hin)|exact (space_not_comma w1 H1 Hin)].
Qed.

Lemma filter_nonempty_good l : Forall good_tag l -> filter (fun t => negb (is_nil t)) l = l.
Proof.
  induction 1 as [|t l [_ [Ht _]] _ IH]; simpl; [reflexivity|].
  destruct t; [contradiction|]. simpl. rewrite IH. reflexivity.
Qed.

Lemma un_id x : ~ In "013"%char x -> universal_newlines x = x.
Proof.
  induction x as [|c r IH]; intros H; simpl; [reflexivity|].
  destruct (ascii_dec c "013"%char) as [->|_]; [exfalso; apply H; left; reflexivity|].
  rewrite IH by (intros Hr; apply H; right; exact Hr). reflexivity.
Qed.

Lemma un_in n : forall x y, length x <= n -> In y (universal_newlines x) -> y = "010"%char \/ In y x.
Proof.
  induction n as [|n IH]; intros x y Hl Hy.
  - destruct x; [contradiction|simpl in Hl; lia].
  - destruct x as [|c r]; [contradiction|]. simpl in Hl, Hy.
    destruct (ascii_dec c "013"%char).
    + destruct r as [|d r'].
      * destruct Hy as [Hy|[]]. left. symmetry. exact Hy.
      * destruct (ascii_dec d "010"%char).
        -- destruct Hy as [Hy|Hy]; [left; symmetry; exact Hy|].
           destruct (IH r' y ltac:(simpl in Hl; lia) Hy) as [H|H]; [left; exact H|right; right; right; exact H].
        -- destruct Hy as [Hy|Hy]; [left; symmetry; exact Hy|].
           destruct (IH (d :: r') y ltac:(lia) Hy) as [H|H]; [left; exact H|right; right; exact H].
    + destruct Hy as [Hy|Hy]; [right; left; exact Hy|].
      destruct (IH r y ltac:(lia) Hy) as [H|H]; [left; exact H|right; right; exact H].
Qed.

Lemma in_join sep l y : In y (join sep l) -> In y sep \/ exists t, In t l /\ In y t.
Proof.
  induction l as [|t l IH]; simpl; [tauto|].
  destruct l as [|u l].
  - intros H. right. exists t. auto.
  - intros H. apply in_app_or in H as [H|H]; [right; exists t; auto|].
    apply in_app_or in H as [H|H]; [left; exact H|].
    destruct (IH H) as [H'|[t' [Ht' Hy]]]; [left; exact H'|right; exists t'; auto].
Qed.

Lemma lower_char_cr c : lower_char c = "013"%char -> c = "013"%char.
Proof. destruct c as [[] [] [] [] [] [] [] []]; vm_compute; congruence. Qed.

Lemma clean_loop_avoid (c : ascii) lc seen xs :
  (forall d, lower_char d = c -> d = c) ->
  Forall (fun t => ~ In c t) xs -> Forall (fun t => ~ In c t) (clean_loop lc seen xs).
Proof.
  intros Hc. revert seen. induction xs as [|t r IH]; intros seen H; simpl; [constructor|].
  inversion H as [|? ? Ht Hr]; subst.
  destruct (negb (is_nil (strip t)) && negb (mem (strip t) seen)); [|apply IH, Hr].
  constructor; [|apply IH, Hr].
  destruct lc; intros Hin.
  - unfold lower in Hin. apply in_map_iff in Hin as [d [Hd Hin]].
    apply Hc in Hd. subst d. apply Ht, in_strip, Hin.
  - apply Ht, in_strip, Hin.
Qed.

Lemma load_join sep w1 w2 l : forallb is_space w1 = true -> forallb is_space w2 = true ->
  sep = w1 ++ ","%char :: w2 -> Forall good_tag l -> ~ In "013"%char (join sep l) ->
  load_tags (join sep l) = l.
Proof.
  intros H1 H2 Hsep Hg Hcr. unfold load_tags. rewrite (un_id _ Hcr).
  destruct l as [|t l]; [reflexivity|].
  rewrite strip_join by (auto; discriminate).
  destruct (join sep (t :: l)) eqn:E; [exfalso; exact (join_nonnil sep (t :: l) Hg ltac:(discriminate) E)|].
  simpl is_nil. cbv iota beta. rewrite <- E.
  rewrite <- (app_nil_l (join sep (t :: l))), (split_join sep w1 w2 H1 H2 Hsep (t :: l) [] Hg);
    [apply filter_nonempty_good, Hg|discriminate|reflexivity].
Qed.

(** C3 fails: [_load_tags_from_file] splits on a hard-coded [','], not on
    the configured separator its comment names.  With a separator that
    holds no comma, a list of two or more comma-free tags is written as
    one line that reads back as at most one tag.  The text-mode read also
    turns an inner carriage return of a tag into a newline. *)
Theorem sidecar_ignores_separator cfg tags :
  ~ In ","%char (TAG_SEPARATOR cfg) ->
  Forall (fun t => ~ In ","%char t) tags ->
  2 <= length (clean_tags cfg tags) ->
  load_tags (join (TAG_SEPARATOR cfg) (clean_tags cfg tags)) <> clean_tags cfg tags /\
  load_tags (join (TAG_SEPARATOR AppConfig)
               (clean_tags AppConfig [s "a" ++ ["013"%char] ++ s "b"])) =
    [s "a" ++ ["010"%char] ++ s "b"].
Proof.
  intros Hsep Htags Hlen. split; [|vm_compute; reflexivity].
  set (l := clean_tags cfg tags) in *.
  assert (Hl : Forall good_tag l) by (apply clean_loop_good, Htags).
  set (x := strip (universal_newlines (join (TAG_SEPARATOR cfg) l))).
  assert (Hx : ~ In ","%char x).
  { intros Hin. apply in_strip in Hin.
    destruct (un_in _ _ _ (le_n _) Hin) as [Hc|Hin']; [discriminate|].
    destruct (in_join _ _ _ Hin') as [H|[t [Ht Hy]]]; [exact (Hsep H)|].
    rewrite Forall_forall in Hl. destruct (Hl t Ht) as [_ [_ Hc]]. exact (Hc Hy). }
  assert (Hs : split_on ","%char x = [x]).
  { rewrite <- (app_nil_r x) at 1. rewrite split_on_app by exact Hx. simpl.
    rewrite app_nil_r. reflexivity. }
  intros Heq. assert (Hle : length (load_tags (join (TAG_SEPARATOR cfg) l)) <= 1).
  { unfold load_tags. fold x. destruct (is_nil x); simpl; [lia|].
    rewrite Hs. simpl. destruct (negb (is_nil (strip x))); simpl; lia. }
  rewrite Heq in Hle. lia.
Qed.

Lemma sidecar_ignores_separator_witness :
  ~ In ","%char (TAG_SEPARATOR (mkConfig false (s "; ") 10)) /\
  Forall (fun t => ~ In ","%char t) [s "a"; s "b"] /\
  2 <= length (clean_tags (mkConfig false (s "; ") 10) [s "a"; s "b"]) /\
  load_tags (join (s "; ") (clean_tags (mkConfig false (s "; ") 10) [s "a"; s "b"])) = [s "a; b"] /\
  load_tags (join (s "; ") (clean_tags (mkConfig false (s "; ") 10) [s "a"; s "b"])) <>
    clean_tags (mkConfig false (s "; ") 10) [s "a"; s "b"].
Proof.
  assert (H1 : ~ In ","%char (TAG_SEPARATOR (mkConfig false (s "; ") 10)))
    by (vm_compute; intuition discriminate).
  assert (H2 : Forall (fun t => ~ In ","%char t) [s "a"; s "b"])
    by (repeat constructor; vm_compute; intuition discriminate).
  assert (H3 : 2 <= length (clean_tags (mkConfig false (s "; ") 10) [s "a"; s "b"]))
    by (vm_compute; lia).
  split; [exact H1|]. split; [exact H2|]. split; [exact H3|].
  split; [vm_compute; reflexivity|].
  exact (proj1 (sidecar_ignores_separator (mkConfig false (s "; ") 10) [s "a"; s "b"] H1 H2 H3)).
Defined.

(** For comma-free tags without carriage returns, and a separator made of
    one comma with only blanks (no carriage return) around it, as the
    default [", "], reading back what [save_tags] writes gives the list it
    commits, whatever the lowercase setting. *)
Theorem sidecar_roundtrip cfg w1 w2 tags :
  TAG_SEPARATOR cfg = w1 ++ ","%char :: w2 ->
  forallb is_space w1 = true -> forallb is_space w2 = true ->
  ~ In "013"%char w1 -> ~ In "013"%char w2 ->
  Forall (fun t => ~ In ","%char t /\ ~ In "013"%char t) tags ->
  load_tags (join (TAG_SEPARATOR cfg) (clean_tags cfg tags)) = clean_tags cfg tags.
Proof.
  intros Hsep H1 H2 Hr1 Hr2 Ht. apply (load_join _ w1 w2); auto.
  - apply clean_loop_good. eapply Forall_impl; [|exact Ht]. simpl. tauto.
  - intros Hin. destruct (in_join _ _ _ Hin) as [H|[t [Htl Hy]]].
    + rewrite Hsep in H. apply in_app_or in H as [H|[H|H]]; [exact (Hr1 H)|discriminate|exact (Hr2 H)].
    + assert (Hc : Forall (fun t => ~ In "013"%char t) (clean_tags cfg tags)).
      { apply clean_loop_avoid; [exact lower_char_cr|].
        eapply Forall_impl; [|exact Ht]. simpl. tauto. }
      rewrite Forall_forall in Hc. exact (Hc t Htl Hy).
Qed.

Lemma sidecar_roundtrip_witness :
  TAG_SEPARATOR AppConfig = [] ++ ","%char :: [" "%char] /\
  load_tags (join (TAG_SEPARATOR AppConfig) (clean_tags AppConfig [s " b "; s "a"; s ""; s "b"]))
  = [s "b"; s "a"].
Proof.
  split; [reflexivity|].
  rewrite (sidecar_roundtrip AppConfig [] [" "%char] [s " b "; s "a"; s ""; s "b"]);
    [vm_compute; reflexivity|reflexivity|reflexivity|reflexivity|simpl; tauto|
     simpl; intros [H|[]]; discriminate|].
  repeat constructor; vm_compute; intuition discriminate.
Defined.

(* ------------------------------------------------------------------ *)
(** ** [_match_pattern] *)
(* ------------------------------------------------------------------ *)

Lemma prefixb_spec p x : prefixb p x = true <-> length p <= length x /\ firstn (length p) x = p.
Proof.
  revert x. induction p as [|c p IH]; intros x; simpl.
  - split; [intros _; split; [lia|reflexivity]|reflexivity].
  - destruct x as [|d x]; simpl.
    + split; [discriminate|intros [H _]; lia].
    + destruct (ascii_dec c d) as [->|Hcd].
      * rewrite IH. split; intros [H1 H2]; split; try lia.
        -- rewrite H2. reflexivity.
        -- injection H2. auto.
      * split; [discriminate|]. intros [_ H]. injection H. intros _ E. congruence.
Qed.

Lemma occurs_prefixb t seg q :
  q <= length t -> (occurs_at t seg q <-> prefixb seg (skipn q t) = true).
Proof.
  intros Hq. unfold occurs_at. rewrite prefixb_spec, length_skipn.
  split; intros [H1 H2]; split; auto; lia.
Qed.

Lemma occurs_le t seg q : occurs_at t seg q -> q <= length t.
Proof. unfold occurs_at. lia. Qed.

Lemma find_at_spec t seg : forall rest pos p,
  skipn pos t = rest -> pos <= length t ->
  (find_at seg rest pos = Some p <-> leftmost t seg pos p).
Proof.
  unfold leftmost. induction rest as [|c r IH]; intros pos p Hs Hpos; simpl.
  - assert (Hp : pos = length t).
    { apply (f_equal (@length _)) in Hs. rewrite length_skipn in Hs. simpl in Hs. lia. }
    destruct (prefixb seg []) eqn:E.
    + split.
      * injection 1 as <-. split; [lia|]. split; [apply occurs_prefixb; [lia|]; rewrite Hs; exact E|lia].
      * intros [H1 [H2 H3]]. apply occurs_le in H2. f_equal. lia.
    + split; [discriminate|]. intros [H1 [H2 H3]].
      assert (p = pos) by (apply occurs_le in H2; lia). subst p.
      apply occurs_prefixb in H2; [|lia]. rewrite Hs, E in H2. discriminate.
  - assert (Hlt : pos < length t).
    { apply (f_equal (@length _)) in Hs. rewrite length_skipn in Hs. simpl in Hs. lia. }
    destruct (prefixb seg (c :: r)) eqn:E.
    + split.
      * injection 1 as <-. split; [lia|]. split; [apply occurs_prefixb; [lia|]; rewrite Hs; exact E|lia].
      * intros [H1 [H2 H3]]. f_equal. destruct (Nat.eq_dec pos p); [exact e|].
        exfalso. apply (H3 pos); [lia|]. apply occurs_prefixb; [lia|]. rewrite Hs. exact E.
    + assert (Hs' : skipn (S pos) t = r).
      { rewrite <- (skipn_skipn 1 pos), Hs. reflexivity. }
      rewrite (IH (S pos) p Hs' ltac:(lia)).
      assert (Hno : ~ occurs_at t seg pos).
      { rewrite occurs_prefixb by lia. rewrite Hs, E. discriminate. }
      split; intros [H1 [H2 H3]].
      * split; [lia|]. split; [exact H2|]. intros q Hq. destruct (Nat.eq_dec q pos); [subst; exact Hno|].
        apply H3. lia.
      * split; [destruct (Nat.eq_dec pos p); [subst; contradiction|lia]|].
        split; [exact H2|]. intros q Hq. apply H3. lia.
Qed.

Lemma str_find_spec t seg c p : str_find t seg c = Some p <-> leftmost t seg c p.
Proof.
  unfold str_find. destruct (length t <? c) eqn:E.
  - apply Nat.ltb_lt in E. split; [discriminate|].
    intros [H1 [H2 _]]. apply occurs_le in H2. lia.
  - apply Nat.ltb_ge in E. apply find_at_spec; [reflexivity|exact E].
Qed.

Lemma str_find_le t seg c p : str_find t seg c = Some p -> c <= p /\ p + length seg <= length t.
Proof. rewrite str_find_spec. intros [H1 [[H2 _] _]]. lia. Qed.

Lemma str_find_nil t c : c <= length t -> str_find t [] c = Some c.
Proof.
  intros H. unfold str_find. replace (length t <? c) with false by (symmetry; apply Nat.ltb_ge; lia).
  destruct (skipn c t); reflexivity.
Qed.

Lemma leftmost_nil t c p : leftmost t [] c p <-> p = c /\ c <= length t.
Proof.
  split.
  - intros H. pose proof H as [H1 [H2 _]]. apply occurs_le in H2.
    apply str_find_spec in H. rewrite str_find_nil in H by lia. injection H. lia.
  - intros [-> H]. apply str_find_spec, str_find_nil, H.
Qed.

Lemma seg_loop_chain t starts : forall l k c e,
  (starts = true \/ 1 <= k) -> c <= length t ->
  (seg_loop t starts (enumerate_from k l) c = Some e <-> seg_chain t l c e).
Proof.
  induction l as [|seg r IH]; intros k c e Hk Hc; simpl.
  - split; [injection 1 as <-; constructor|intros H; inversion H; reflexivity].
  - destruct (is_nil seg) eqn:Hn.
    + destruct seg; [|discriminate]. rewrite (IH (S k) c e) by (auto; lia).
      split.
      * intros H. apply (chain_cons t [] r c c e); [apply leftmost_nil; auto|].
        rewrite Nat.add_0_r. exact H.
      * intros H. inversion H as [|? ? ? p ? Hl Hr]; subst.
        apply leftmost_nil in Hl as [-> _]. rewrite Nat.add_0_r in Hr. exact Hr.
    + destruct (str_find t seg c) as [pos|] eqn:Hf.
      * replace ((k =? 0) && negb starts && negb (pos =? 0)) with false
          by (destruct Hk as [->|Hk]; [rewrite andb_false_r, andb_false_l; reflexivity|
              replace (k =? 0) with false by (symmetry; apply Nat.eqb_neq; lia); reflexivity]).
        pose proof (str_find_le t seg c pos Hf) as [_ Hb].
        rewrite (IH (S k) (pos + length seg) e) by (auto; lia).
        split.
        -- intros H. apply (chain_cons t seg r c pos e); [apply str_find_spec, Hf|exact H].
        -- intros H. inversion H as [|? ? ? p ? Hl Hr]; subst.
           apply str_find_spec in Hl. rewrite Hf in Hl. injection Hl as <-. exact Hr.
      * split; [discriminate|]. intros H. inversion H as [|? ? ? p ? Hl Hr]; subst.
        apply str_find_spec in Hl. congruence.
Qed.

Lemma seg_chain_le t l c e : seg_chain t l c e -> c <= length t -> e <= length t.
Proof.
  induction 1 as [c|seg r c p e Hl Hr IH]; [auto|].
  intros _. apply IH. destruct Hl as [_ [[H _] _]]. lia.
Qed.

Lemma seg_chain_snoc_nil t l : forall c e, c <= length t ->
  (seg_chain t (l ++ [[]]) c e <-> seg_chain t l c e).
Proof.
  induction l as [|seg r IH]; intros c e Hc; simpl.
  - split.
    + intros H. inversion H as [|? ? ? p ? Hl Hr]; subst.
      apply leftmost_nil in Hl as [-> _]. rewrite Nat.add_0_r in Hr.
      inversion Hr; subst. constructor.
    + intros H. inversion H; subst. apply (chain_cons t [] [] e e e); [apply leftmost_nil; auto|].
      rewrite Nat.add_0_r. constructor.
  - split; intros H; inversion H as [|? ? ? p ? Hl Hr]; subst;
      pose proof Hl as [_ [[Hb _] _]];
      apply (chain_cons t seg _ c p e Hl); apply (IH (p + length seg)); auto; lia.
Qed.

Lemma has_char_in c x : has_char c x = true <-> In c x.
Proof.
  unfold has_char. rewrite existsb_exists. split.
  - intros [d [Hd H]]. destruct (ascii_dec c d); [subst; exact Hd|discriminate].
  - intros H. exists c. split; [exact H|]. destruct (ascii_dec c c); congruence.
Qed.

Lemma split_on_single c x h : split_on c x = [h] -> x = h.
Proof.
  revert h. induction x as [|d x IH]; intros h; simpl; [injection 1 as <-; reflexivity|].
  destruct (ascii_dec d c).
  - intros H. injection H as _ H. exfalso. exact (split_on_nonnil c x H).
  - destruct (split_on c x) as [|h' t] eqn:E; [exfalso; exact (split_on_nonnil c x E)|].
    injection 1 as <- ->. rewrite (IH h' eq_refl). reflexivity.
Qed.

Lemma split_on_hd c x seg0 rest : x <> [] -> split_on c x = seg0 :: rest ->
  (seg0 = [] <-> hd_error x = Some c).
Proof.
  destruct x as [|d x]; [contradiction|]. intros _. simpl.
  destruct (ascii_dec d c) as [->|Hd].
  - injection 1 as <- _. tauto.
  - destruct (split_on c x); injection 1 as <- _; split; try discriminate; congruence.
Qed.

Lemma split_on_last c x : x <> [] ->
  (last (split_on c x) [] = [] <-> last x " "%char = c).
Proof.
  induction x as [|d x IH]; intros Hx; [contradiction|]. simpl.
  destruct x as [|d' x'].
  - simpl. destruct (ascii_dec d c) as [->|Hd]; simpl; [tauto|]. split; [discriminate|congruence].
  - specialize (IH ltac:(discriminate)).
    destruct (ascii_dec d c) as [->|Hd].
    + destruct (split_on c (d' :: x')) as [|h t] eqn:E;
        [exfalso; exact (split_on_nonnil _ _ E)|]. exact IH.
    + destruct (split_on c (d' :: x')) as [|h t] eqn:E;
        [exfalso; exact (split_on_nonnil _ _ E)|].
      destruct t as [|h2 t].
      * apply split_on_single in E. simpl in IH |- *. rewrite <- E in IH.
        split; [discriminate|]. intros H. apply IH in H. discriminate.
      * exact IH.
Qed.

Lemma split_on_two c x : In c x -> exists seg0 seg1 rest, split_on c x = seg0 :: seg1 :: rest.
Proof.
  induction x as [|d x IH]; simpl; [tauto|]. intros H.
  destruct (ascii_dec d c) as [->|Hd].
  - destruct (split_on c x) as [|h t] eqn:E; [exfalso; exact (split_on_nonnil _ _ E)|].
    exists [], h, t. reflexivity.
  - destruct H as [H|H]; [congruence|]. destruct (IH H) as [s0 [s1 [r E]]].
    rewrite E. exists (d :: s0), s1, r. reflexivity.
Qed.

Lemma final_check o ends n :
  (match o with
   | None => false
   | Some cur => if negb ends && negb (cur =? n) then false else true
   end) = true <-> exists e, o = Some e /\ (ends = false -> e = n).
Proof.
  destruct o as [e|]; simpl.
  - destruct ends; simpl.
    + split; [intros _; exists e; split; [reflexivity|discriminate]|reflexivity].
    + destruct (e =? n) eqn:E; simpl.
      * apply Nat.eqb_eq in E. split; [intros _; exists e; auto|reflexivity].
      * split; [discriminate|]. intros [e' [He H]]. injection He as <-.
        apply Nat.eqb_neq in E. exfalso. apply E, H. reflexivity.
  - split; [discriminate|]. intros [e [He _]]. discriminate.
Qed.

Lemma final_check_any o :
  (match o with Some _ => true | None => false end) = true <-> exists e : nat, o = Some e.
Proof.
  destruct o as [e|]; simpl; [split; [intros _; exists e; reflexivity|reflexivity]|].
  split; [discriminate|intros [e [=]]].
Qed.

Lemma final_check_end o n :
  (match o with
   | Some cur => if negb (cur =? n) then false else true
   | None => false
   end) = true <-> exists e, o = Some e /\ e = n.
Proof.
  destruct o as [e|]; simpl.
  - destruct (e =? n) eqn:E; simpl.
    + apply Nat.eqb_eq in E. split; [intros _; exists e; auto|reflexivity].
    + apply Nat.eqb_neq in E. split; [discriminate|]. intros [e' [[= <-] H]]. contradiction.
  - split; [discriminate|intros [e [[=] _]]].
Qed.

Lemma match_pattern_spec tag pattern : match_pattern tag pattern = true <-> match_spec tag pattern.
Proof.
  unfold match_pattern, match_spec. set (T := lower tag). set (P := lower pattern).
  destruct (has_char "*" P) eqn:Hst; simpl.
  2: { split.
       - intros H. left. split; [reflexivity|]. apply str_eqb_true, H.
       - intros [[_ H]|[H _]]; [apply str_eqb_true, H|discriminate]. }
  assert (HP : P <> []) by (intros E; rewrite E in Hst; discriminate).
  apply has_char_in in Hst.
  destruct (split_on_two "*" P Hst) as [seg0 [seg1 [rest0 Hsp]]].
  pose proof (split_on_hd "*" P seg0 (seg1 :: rest0) HP Hsp) as Hhd.
  pose proof (split_on_last "*" P HP) as Hlast. rewrite Hsp in Hlast.
  change (last (seg0 :: seg1 :: rest0) []) with (last (seg1 :: rest0) []) in Hlast.
  (* the spec, once the split is known *)
  assert (Hspec :
    (true = false /\ T = P) \/
    (true = true /\
     exists seg0' rest' p e, split_on "*" P = seg0' :: rest' /\ leftmost T seg0' 0 p /\
       seg_chain T rest' (p + length seg0') e /\
       (hd_error P <> Some "*"%char -> p = 0) /\ (last P " "%char <> "*"%char -> e = length T))
    <-> exists p e, leftmost T seg0 0 p /\ seg_chain T (seg1 :: rest0) (p + length seg0) e /\
         (seg0 <> [] -> p = 0) /\ (last (seg1 :: rest0) [] <> [] -> e = length T)).
  { split.
    - intros [[H _]|[_ [s0 [r [p [e [E [H1 [H2 [H3 H4]]]]]]]]]]; [congruence|].
      rewrite Hsp in E. injection E as <- <-.
      exists p, e. refine (conj H1 (conj H2 (conj _ _))).
      + intros Hn. apply H3. intros Hh. apply Hn, Hhd, Hh.
      + intros Hn. apply H4. intros Hl. apply Hn, Hlast, Hl.
    - intros [p [e [H1 [H2 [H3 H4]]]]]. right. split; [reflexivity|].
      exists seg0, (seg1 :: rest0), p, e. refine (conj Hsp (conj H1 (conj H2 (conj _ _)))).
      + intros Hn. apply H3. intros Hs. apply Hn, Hhd, Hs.
      + intros Hn. apply H4. intros Hl. apply Hn, Hlast, Hl. }
  rewrite Hspec. clear Hspec. rewrite Hsp.
  destruct (pop_last (seg1 :: rest0)) as [[init lst]|] eqn:Hpop0.
  2: { apply pop_last_nil_inv in Hpop0. discriminate. }
  apply pop_last_some_inv in Hpop0.
  assert (Hlst : last (seg1 :: rest0) [] = lst) by (rewrite Hpop0; apply last_last).
  rewrite Hlst.
  destruct seg0 as [|c0 s0].
  - (* leading '*' *)
    cbn -[seg_loop enumerate pop_last str_find]. rewrite Hpop0, pop_last_snoc.
    assert (Hleft : forall p, leftmost T [] 0 p <-> p = 0) by
      (intros p; rewrite leftmost_nil; split; [tauto|intros ->; split; [reflexivity|lia]]).
    destruct lst as [|l0 lst]; cbn -[seg_loop enumerate str_find].
    + destruct init as [|i0 init]; cbn -[seg_loop enumerate str_find].
      * split; [intros _|reflexivity]. exists 0, 0. refine (conj _ (conj _ (conj _ _))).
        -- apply Hleft. reflexivity.
        -- apply (chain_cons T [] [] 0 0 0); [apply leftmost_nil; split; [reflexivity|lia]|constructor].
        -- intros _. reflexivity.
        -- intros H. contradiction.
      * rewrite final_check_any. split.
        -- intros [e He]. apply (seg_loop_chain T true (i0 :: init) 0 0 e) in He; [|auto|lia].
           exists 0, e. refine (conj _ (conj _ (conj _ _))).
           ++ apply Hleft. reflexivity.
           ++ apply (seg_chain_snoc_nil T (i0 :: init)); [lia|exact He].
           ++ intros _. reflexivity.
           ++ intros H. contradiction.
        -- intros [p [e [H1 [H2 _]]]]. apply Hleft in H1. subst p.
           exists e. apply (seg_loop_chain T true (i0 :: init) 0 0 e); [auto|lia|].
           apply (seg_chain_snoc_nil T (i0 :: init)) in H2; [exact H2|lia].
    + rewrite <- Hpop0. cbn -[seg_loop enumerate str_find].
      rewrite final_check_end. split.
      * intros [e [He Hend]]. apply (seg_loop_chain T true (seg1 :: rest0) 0 0 e) in He; [|auto|lia].
        exists 0, e. refine (conj _ (conj He (conj _ _))).
        -- apply Hleft. reflexivity.
        -- intros _. reflexivity.
        -- intros _. exact Hend.
      * intros [p [e [H1 [H2 [_ H4]]]]]. apply Hleft in H1. subst p.
        exists e. split; [apply (seg_loop_chain T true (seg1 :: rest0) 0 0 e); [auto|lia|exact H2]|].
        apply H4. discriminate.
  - (* no leading '*' *)
    simpl. rewrite Hpop0, app_comm_cons, pop_last_snoc.
    assert (Hfirst : forall l ends,
      (match seg_loop T false ((0, c0 :: s0) :: enumerate_from 1 l) 0 with
       | None => false
       | Some cur => if negb ends && negb (cur =? length T) then false else true
       end) = true <->
      exists p e, leftmost T (c0 :: s0) 0 p /\ seg_chain T l (p + length (c0 :: s0)) e /\
        (c0 :: s0 <> [] -> p = 0) /\ (ends = false -> e = length T)).
    { intros l ends. rewrite final_check. simpl seg_loop.
      destruct (str_find T (c0 :: s0) 0) as [pos|] eqn:Hf.
      - pose proof (str_find_le T (c0 :: s0) 0 pos Hf) as [_ Hb].
        destruct (pos =? 0) eqn:Hp0; simpl.
        + apply Nat.eqb_eq in Hp0. subst pos. split.
          * intros [e [He Hend]]. apply seg_loop_chain in He; [|auto|exact Hb].
            exists 0, e. refine (conj _ (conj He (conj _ Hend))); [apply str_find_spec, Hf|].
            intros _. reflexivity.
          * intros [p [e [H1 [H2 [_ H4]]]]]. apply str_find_spec in H1.
            rewrite Hf in H1. injection H1 as <-.
            exists e. split; [apply seg_loop_chain; auto|exact H4].
        + split; [intros [e [He _]]; discriminate|].
          intros [p [e [H1 [_ [H3 _]]]]]. rewrite H3 in H1 by discriminate.
          apply str_find_spec in H1. rewrite Hf in H1. injection H1 as ->. discriminate.
      - split; [intros [e [He _]]; discriminate|].
        intros [p [e [H1 _]]]. apply str_find_spec in H1. congruence. }
    destruct lst as [|l0 lst]; simpl.
    + rewrite (Hfirst init true). split.
      * intros [p [e [H1 [H2 [H3 _]]]]]. exists p, e. refine (conj H1 (conj _ (conj H3 _))).
        -- apply (seg_chain_snoc_nil T init); [|exact H2].
           apply str_find_spec, str_find_le in H1. simpl in H1. lia.
        -- intros H. contradiction.
      * intros [p [e [H1 [H2 [H3 _]]]]]. exists p, e. refine (conj H1 (conj _ (conj H3 _))).
        -- apply (seg_chain_snoc_nil T init) in H2; [exact H2|].
           apply str_find_spec, str_find_le in H1. simpl in H1. lia.
        -- discriminate.
    + rewrite <- Hpop0.
      pose proof (Hfirst (seg1 :: rest0) false) as Hf. simpl in Hf.
      rewrite Hf. split.
      * intros [p [e [H1 [H2 [H3 H4]]]]]. exists p, e. refine (conj H1 (conj H2 (conj H3 _))).
        intros _. apply H4. reflexivity.
      * intros [p [e [H1 [H2 [H3 H4]]]]]. exists p, e. refine (conj H1 (conj H2 (conj H3 _))).
        intros _. apply H4. discriminate.
Qed.

Lemma split_on_stars n : split_on "*" (repeat "*"%char n) = repeat [] (S n).
Proof. induction n as [|n IH]; [reflexivity|]. simpl. rewrite IH. reflexivity. Qed.

Lemma seg_chain_nils t n c : c <= length t -> seg_chain t (repeat [] n) c c.
Proof.
  intros Hc. induction n as [|n IH]; [constructor|].
  apply (chain_cons t [] _ c c c); [apply leftmost_nil; auto|]. rewrite Nat.add_0_r. exact IH.
Qed.

Lemma last_repeat {A} (x d : A) n : last (repeat x (S n)) d = x.
Proof. induction n as [|n IH]; [reflexivity|]. simpl repeat. simpl in IH |- *. exact IH. Qed.

Lemma match_pattern_stars tag n : match_pattern tag (repeat "*"%char (S n)) = true.
Proof.
  apply match_pattern_spec. unfold match_spec.
  assert (HL : lower (repeat "*"%char (S n)) = repeat "*"%char (S n))
    by (unfold lower; rewrite map_repeat; reflexivity).
  rewrite HL. right. split; [reflexivity|].
  exists [], (repeat [] (S n)), 0, 0. refine (conj (split_on_stars (S n)) (conj _ (conj _ (conj _ _)))).
  - apply leftmost_nil. split; [reflexivity|lia].
  - apply seg_chain_nils. lia.
  - intros H. exfalso. apply H. reflexivity.
  - intros H. exfalso. apply H, last_repeat.
Qed.


(** C6: the wildcard matcher is the case-insensitive glob of the spec:
    [match_pattern] holds exactly when [match_spec] does (no-star patterns
    compare for equality; otherwise the segments of the split on ['*'] are
    found in order, each leftmost from the cursor, the first anchored at 0
    unless the pattern starts with ['*'], the last ending at [len(tag)]
    unless it ends with ['*']); a pattern made only of ['*'] matches every
    tag, and the four spec examples come out as stated. *)
Theorem match_pattern_glob_semantics :
  (forall tag pattern, match_pattern tag pattern = true <-> match_spec tag pattern) /\
  (forall tag n, match_pattern tag (repeat "*"%char (S n)) = true) /\
  (forall tag, match_pattern tag (s "*") = true) /\
  match_pattern (s "blonde_hair") (s "hair*") = false /\
  match_pattern (s "hair_color") (s "hair*") = true /\
  match_pattern (s "blonde_hair") (s "*hair*") = true.
Proof.
  refine (conj match_pattern_spec (conj match_pattern_stars (conj _ _))).
  - intros tag. exact (match_pattern_stars tag 0).
  - vm_compute. repeat split.
Qed.

(* ------------------------------------------------------------------ *)
(** ** [_auto_categorize] *)
(* ------------------------------------------------------------------ *)

Lemma kw_first_ge tag l : forall k j, kw_first tag (enumerate_from k l) = Some j -> k <= j.
Proof.
  induction l as [|kw r IH]; intros k j; simpl; [discriminate|].
  destruct (match_pattern tag kw); [injection 1 as <-; lia|].
  intros H. apply IH in H. lia.
Qed.

(** The minimum over all matching keywords is the first match. *)
Lemma kw_scan_first tag l : forall k matched m,
  kw_scan tag (enumerate_from k l) matched m =
  (matched || match kw_first tag (enumerate_from k l) with Some _ => true | None => false end,
   idx_min m (kw_first tag (enumerate_from k l))).
Proof.
  induction l as [|kw r IH]; intros k matched m; simpl.
  - rewrite orb_false_r. destruct m; reflexivity.
  - destruct (match_pattern tag kw).
    + rewrite IH, orb_true_r. f_equal.
      destruct (kw_first tag (enumerate_from (S k) r)) as [j|] eqn:E.
      * apply kw_first_ge in E. destruct m; simpl; f_equal; lia.
      * destruct m; reflexivity.
    + apply IH.
Qed.

Lemma kw_scan_index tag kws :
  kw_scan tag (enumerate kws) false None =
  (match kw_index kws tag with Some _ => true | None => false end, kw_index kws tag).
Proof. unfold enumerate, kw_index. rewrite kw_scan_first. reflexivity. Qed.

Lemma place_tag_keywords tag mi c : auto_keywords (place_tag tag mi c) = auto_keywords c.
Proof. unfold place_tag. destruct (mem tag (cat_tags c)); reflexivity. Qed.

(** One pass of [for category in self.categories]: no category matches,
    or the first matching one receives the tag, with the index of its
    first matching keyword. *)
Lemma cat_loop_spec tag cats :
  match cat_loop tag cats with
  | None => matches_any (map auto_keywords cats) tag = false
  | Some cats' =>
      exists pre c post x,
        cats = pre ++ c :: post /\
        matches_any (map auto_keywords pre) tag = false /\
        kw_index (auto_keywords c) tag = Some x /\
        cats' = pre ++ place_tag tag (Some x) c :: post
  end.
Proof.
  induction cats as [|c r IH]; simpl; [reflexivity|].
  rewrite kw_scan_index.
  destruct (kw_index (auto_keywords c) tag) as [x|] eqn:E.
  - exists [], c, r, x. auto.
  - simpl. destruct (cat_loop tag r) as [r'|].
    + destruct IH as [pre [c' [post [x [-> [H1 [H2 ->]]]]]]].
      exists (c :: pre), c', post, x. simpl. rewrite E. auto.
    + exact IH.
Qed.

Lemma cat_loop_keywords tag cats cats' :
  cat_loop tag cats = Some cats' -> map auto_keywords cats' = map auto_keywords cats.
Proof.
  intros H. pose proof (cat_loop_spec tag cats) as Hs. rewrite H in Hs.
  destruct Hs as [pre [c [post [x [-> [_ [_ ->]]]]]]].
  rewrite !map_app. simpl. rewrite place_tag_keywords. reflexivity.
Qed.

Lemma cat_loop_matches tag cats :
  matches_any (map auto_keywords cats) tag = match cat_loop tag cats with Some _ => true | None => false end.
Proof.
  pose proof (cat_loop_spec tag cats) as Hs. destruct (cat_loop tag cats) as [cats'|]; [|exact Hs].
  destruct Hs as [pre [c [post [x [-> [_ [H _]]]]]]].
  unfold matches_any. rewrite map_app, existsb_app. simpl. rewrite H, orb_true_r. reflexivity.
Qed.

Lemma auto_loop_spec tags : forall cats uncat n,
  let r := auto_loop tags cats uncat n in
  map auto_keywords (fst (fst r)) = map auto_keywords cats /\
  snd (fst r) = fold_left (@dict_del nat) (filter (matches_any (map auto_keywords cats)) tags) uncat /\
  snd r = n + length (filter (matches_any (map auto_keywords cats)) tags).
Proof.
  induction tags as [|tag r IH]; intros cats uncat n; simpl; [auto|].
  rewrite (cat_loop_matches tag cats).
  destruct (cat_loop tag cats) as [cats'|] eqn:E.
  - destruct (IH cats' (dict_del uncat tag) (S n)) as [H1 [H2 H3]].
    rewrite (cat_loop_keywords tag cats cats' E) in H1, H2, H3.
    simpl. refine (conj H1 (conj H2 _)). rewrite H3. lia.
  - apply IH.
Qed.

Lemma dict_del_skip {V} (x : list (str * V)) k v ks :
  Forall (fun k' => str_eqb k' k = false) ks ->
  fold_left (@dict_del V) ks ((k, v) :: x) = (k, v) :: fold_left (@dict_del V) ks x.
Proof.
  revert x. induction ks as [|k' ks IH]; intros x H; simpl; [reflexivity|].
  inversion H as [|? ? Hk Hr]; subst. rewrite Hk. apply IH, Hr.
Qed.

(** Deleting the matched keys, one after the other, from the dict they
    were read from. *)
Lemma fold_dict_del_filter {V} (m : str -> bool) (uncat : list (str * V)) :
  fold_left (@dict_del V) (filter m (map fst uncat)) uncat =
  filter (fun kv => negb (m (fst kv))) uncat.
Proof.
  induction uncat as [|[k v] r IH]; simpl; [reflexivity|].
  destruct (m k) eqn:Hm; simpl.
  - rewrite str_eqb_refl. exact IH.
  - rewrite dict_del_skip; [rewrite IH; reflexivity|].
    apply Forall_forall. intros k' Hin. apply filter_In in Hin as [_ Hk'].
    destruct (str_eqb k' k) eqn:E; [|reflexivity].
    apply str_eqb_true in E. subst. congruence.
Qed.

(** [category['tags'].insert(insert_pos, tag)] with the computed
    [insert_pos] is [ins_by]. *)
Lemma insert_pos_ins kws mi tag l : forall pre,
  list_insert (insert_pos_loop kws mi (enumerate_from (length pre) l) (length pre + length l))
    tag (pre ++ l) = pre ++ ins_by (fun t => kw_first t kws) mi tag l.
Proof.
  unfold list_insert.
  induction l as [|t r IH]; intros pre; simpl.
  - rewrite Nat.add_0_r, app_nil_r, firstn_all, skipn_all. reflexivity.
  - destruct (idx_lt mi (kw_first t kws)).
    + rewrite firstn_app, skipn_app, Nat.sub_diag, firstn_all, skipn_all. simpl.
      rewrite app_nil_r. reflexivity.
    + specialize (IH (pre ++ [t])). rewrite length_app in IH. simpl in IH.
      replace (length pre + 1 + length r) with (length pre + S (length r)) in IH by lia.
      rewrite Nat.add_1_r, <- app_assoc in IH. simpl in IH.
      rewrite IH, <- app_assoc. reflexivity.
Qed.

Lemma place_tag_ins tag mi c :
  cat_tags (place_tag tag mi c) =
  if mem tag (cat_tags c) then cat_tags c
  else ins_by (kw_index (auto_keywords c)) mi tag (cat_tags c).
Proof.
  unfold place_tag. destruct (mem tag (cat_tags c)); [reflexivity|]. simpl.
  exact (insert_pos_ins (enumerate (auto_keywords c)) mi tag (cat_tags c) []).
Qed.

Lemma ins_by_split key mi x l :
  exists l1 l2, l = l1 ++ l2 /\ ins_by key mi x l = l1 ++ x :: l2 /\
    Forall (fun t => idx_lt mi (key t) = false) l1 /\
    (forall t r, l2 = t :: r -> idx_lt mi (key t) = true).
Proof.
  induction l as [|t r IH]; simpl.
  - exists [], []. repeat split; [constructor|discriminate].
  - destruct (idx_lt mi (key t)) eqn:E.
    + exists [], (t :: r). repeat split; [constructor|]. injection 1 as -> ->. exact E.
    + destruct IH as [l1 [l2 [-> [-> [H1 H2]]]]].
      exists (t :: l1), l2. repeat split; auto.
Qed.

Lemma idx_lt_asym a b : idx_lt a b = true -> idx_lt b a = false.
Proof.
  destruct a as [x|], b as [y|]; simpl; try discriminate; try reflexivity.
  intros H. apply Nat.ltb_lt in H. apply Nat.ltb_ge. lia.
Qed.

Lemma idx_le_not_lt a b : idx_lt a b = false -> idx_le b a = true.
Proof. unfold idx_le. intros ->. reflexivity. Qed.

Lemma ins_by_sorted key x l :
  Sorted (fun a b => idx_le (key a) (key b) = true) l ->
  Sorted (fun a b => idx_le (key a) (key b) = true) (ins_by key (key x) x l).
Proof.
  induction 1 as [|t r Hr IH Hhd]; simpl.
  - repeat constructor.
  - destruct (idx_lt (key x) (key t)) eqn:E.
    + constructor; [constructor; assumption|].
      constructor. unfold idx_le. rewrite (idx_lt_asym _ _ E). reflexivity.
    + constructor; [exact IH|].
      destruct r as [|u r]; simpl.
      * constructor. apply idx_le_not_lt, E.
      * inversion Hhd as [|? ? Htu]; subst.
        destruct (idx_lt (key x) (key u)); constructor; [apply idx_le_not_lt, E|exact Htu].
Qed.

(** C7: [_auto_categorize] goes through the uncategorized tags; for each
    one it tries the categories in order and puts the tag in the first
    category that matches, using the index of the first keyword that
    matches. The tag goes before the first placed tag with a larger index,
    so a list ordered by index stays ordered. The tag is removed from the
    uncategorized tags and counted. No later category is tried. The count
    it reports is the number of tags some category matches, and the tags
    left are exactly the unmatched ones. On [Hair{*hair*}] with
    [{red_hair:1, eyes:1}] it reports 1, moves [red_hair] into [Hair] and
    keeps [eyes]. *)
Theorem auto_categorize_first_match :
  (forall cats uncat,
     let '(cats', uncat', n) := auto_categorize cats uncat in
     let kwss := map auto_keywords cats in
     n = length (filter (matches_any kwss) (map fst uncat)) /\
     uncat' = filter (fun kv => negb (matches_any kwss (fst kv))) uncat /\
     map auto_keywords cats' = kwss) /\
  (forall tag cats,
     match cat_loop tag cats with
     | None => matches_any (map auto_keywords cats) tag = false
     | Some cats' =>
         exists pre c post x,
           cats = pre ++ c :: post /\
           matches_any (map auto_keywords pre) tag = false /\
           kw_index (auto_keywords c) tag = Some x /\
           cats' = pre ++ place_tag tag (Some x) c :: post
     end) /\
  (forall tag x c,
     exists l1 l2,
       cat_tags c = l1 ++ l2 /\
       cat_tags (place_tag tag (Some x) c) =
         (if mem tag (cat_tags c) then cat_tags c else l1 ++ tag :: l2) /\
       Forall (fun t => idx_lt (Some x) (kw_index (auto_keywords c) t) = false) l1 /\
       (forall t r, l2 = t :: r -> idx_lt (Some x) (kw_index (auto_keywords c) t) = true)) /\
  (forall tag c,
     let key := kw_index (auto_keywords c) in
     Sorted (fun a b => idx_le (key a) (key b) = true) (cat_tags c) ->
     Sorted (fun a b => idx_le (key a) (key b) = true) (cat_tags (place_tag tag (key tag) c))) /\
  auto_categorize [mkCategory (s "Hair") [s "*hair*"] []] [(s "red_hair", 1); (s "eyes", 1)] =
    ([mkCategory (s "Hair") [s "*hair*"] [s "red_hair"]], [(s "eyes", 1)], 1).
Proof.
  refine (conj _ (conj cat_loop_spec (conj _ (conj _ _)))).
  - intros cats uncat. unfold auto_categorize.
    pose proof (auto_loop_spec (map fst uncat) cats uncat 0) as [H1 [H2 H3]].
    destruct (auto_loop (map fst uncat) cats uncat 0) as [[cats' uncat'] n].
    simpl in H1, H2, H3. rewrite fold_dict_del_filter in H2. auto.
  - intros tag x c.
    destruct (ins_by_split (kw_index (auto_keywords c)) (Some x) tag (cat_tags c))
      as [l1 [l2 [E [Hi [Hl1 Hl2]]]]].
    exists l1, l2. refine (conj E (conj _ (conj Hl1 Hl2))).
    rewrite place_tag_ins. destruct (mem tag (cat_tags c)); [reflexivity|exact Hi].
  - intros tag c key Hs. rewrite place_tag_ins.
    destruct (mem tag (cat_tags c)); [exact Hs|]. apply ins_by_sorted, Hs.
  - vm_compute. reflexivity.
Qed.

(* ------------------------------------------------------------------ *)
(** ** [remove_tag_globally], [rename_tag_globally], [add_tag_globally] *)
(* ------------------------------------------------------------------ *)

Lemma mem_In x l : mem x l = true <-> In x l.
Proof.
  unfold mem. rewrite existsb_exists. split.
  - intros [y [Hy E]]. apply str_eqb_true in E. subst. exact Hy.
  - intros H. exists x. split; [exact H|apply str_eqb_refl].
Qed.

Lemma mem_false x l : mem x l = false <-> ~ In x l.
Proof.
  split.
  - intros H Hin. apply mem_In in Hin. congruence.
  - intros H. destruct (mem x l) eqn:E; [|reflexivity]. apply mem_In in E. contradiction.
Qed.

Lemma str_eqb_sym a b : str_eqb a b = str_eqb b a.
Proof.
  destruct (str_eqb a b) eqn:E1, (str_eqb b a) eqn:E2; auto; str_eqb_cases; congruence.
Qed.

Lemma dict_get_set_other {V} (d : list (str * V)) f g v :
  str_eqb g f = false -> dict_get (dict_set d f v) g = dict_get d g.
Proof.
  intros Hgf. induction d as [|[k w] r IH]; simpl.
  - rewrite Hgf. reflexivity.
  - destruct (str_eqb f k) eqn:E; simpl.
    + apply str_eqb_true in E. subst. rewrite Hgf. reflexivity.
    + destruct (str_eqb g k); [reflexivity|exact IH].
Qed.

Lemma dict_get_in_snd {V} (d : list (str * V)) g o : dict_get d g = Some o -> In o (map snd d).
Proof.
  induction d as [|[k w] r IH]; simpl; [discriminate|].
  destruct (str_eqb g k); [injection 1 as ->; auto|auto].
Qed.

Lemma in_snd_dict_set {V} (d : list (str * V)) f v o :
  In o (map snd (dict_set d f v)) -> o = v \/ In o (map snd d).
Proof.
  induction d as [|[k w] r IH]; simpl; [intuition|].
  destruct (str_eqb f k); simpl; intuition.
Qed.

Lemma nodup_snd_dict_set {V} (d : list (str * V)) f v :
  NoDup (map snd d) -> ~ In v (map snd d) -> NoDup (map snd (dict_set d f v)).
Proof.
  induction d as [|[k w] r IH]; simpl; intros Hn Hv.
  - repeat constructor. simpl. tauto.
  - inversion Hn as [|? ? Hw Hr]; subst.
    destruct (str_eqb f k); simpl.
    + constructor; [|exact Hr]. tauto.
    + constructor; [|apply IH; tauto].
      intros Hin. apply in_snd_dict_set in Hin as [->|Hin]; tauto.
Qed.

Lemma dict_get_set_some {V} (d : list (str * V)) f g v :
  dict_get d g <> None -> dict_get (dict_set d f v) g <> None.
Proof.
  intros H. destruct (str_eqb g f) eqn:E.
  - apply str_eqb_true in E. subst. rewrite dict_get_set_same. discriminate.
  - rewrite dict_get_set_other by exact E. exact H.
Qed.

(** Two filenames reading the same object are the same filename. *)
Lemma dict_get_same_obj {V} (d : list (str * V)) f g o :
  NoDup (map snd d) -> dict_get d f = Some o -> dict_get d g = Some o -> f = g.
Proof.
  induction d as [|[k w] r IH]; simpl; [discriminate|].
  intros Hn. inversion Hn as [|? ? Hw Hr]; subst.
  destruct (str_eqb f k) eqn:E1, (str_eqb g k) eqn:E2; str_eqb_cases.
  - reflexivity.
  - injection 1 as <-. intros H. apply dict_get_in_snd in H. contradiction.
  - intros H. injection 1 as <-. apply dict_get_in_snd in H. contradiction.
  - apply IH, Hr.
Qed.

Lemma nth_heap_set (h : list (list str)) o o' l :
  o < length h -> nth o' (firstn o h ++ [l] ++ skipn (S o) h) [] = if o' =? o then l else nth o' h [].
Proof.
  intros Ho. assert (Hf : length (firstn o h) = o) by (rewrite length_firstn; lia).
  destruct (Nat.eqb_spec o' o) as [->|Hne].
  - rewrite app_nth2 by lia. rewrite Hf, Nat.sub_diag. reflexivity.
  - destruct (Nat.lt_ge_cases o' o) as [Hlt|Hge].
    + rewrite app_nth1 by lia. rewrite nth_firstn.
      replace (o' <? o) with true by (symmetry; apply Nat.ltb_lt; exact Hlt). reflexivity.
    + rewrite app_nth2 by lia. rewrite Hf.
      replace (o' - o) with (S (o' - S o)) by lia.
      change (nth (S (o' - S o)) ([l] ++ skipn (S o) h) []) with (nth (o' - S o) (skipn (S o) h) []).
      rewrite nth_skipn. f_equal. lia.
Qed.

Lemma length_heap_set (h : list (list str)) o l :
  o < length h -> length (firstn o h ++ [l] ++ skipn (S o) h) = length h.
Proof. intros Ho. rewrite !length_app, length_firstn, length_skipn. simpl. lia. Qed.

Lemma heap_wf_heap_set st o l : heap_wf st -> o < length (heap st) -> heap_wf (heap_set st o l).
Proof.
  intros Hwf Ho. unfold heap_wf, heap_set, with_data. cbn [data heap].
  rewrite length_heap_set by exact Ho. exact Hwf.
Qed.

Lemma get_tags_heap_set st f o l g : heap_wf st -> dict_get (data st) f = Some o ->
  get_tags (heap_set st o l) g = if str_eqb g f then l else get_tags st g.
Proof.
  intros [Hn Hl] Hf.
  assert (Ho : o < length (heap st))
    by (rewrite Forall_forall in Hl; apply Hl; eapply dict_get_in_snd; exact Hf).
  unfold get_tags, deref, heap_set, with_data. cbn [data heap].
  destruct (str_eqb g f) eqn:E.
  - apply str_eqb_true in E. subst. rewrite Hf, nth_heap_set, Nat.eqb_refl by exact Ho. reflexivity.
  - destruct (dict_get (data st) g) as [o'|] eqn:Hg; [|reflexivity].
    rewrite nth_heap_set by exact Ho.
    destruct (Nat.eqb_spec o' o) as [->|]; [|reflexivity].
    exfalso. pose proof (dict_get_same_obj _ _ _ _ Hn Hf Hg) as ->. rewrite str_eqb_refl in E. discriminate.
Qed.

Lemma save_tags_data cfg wr st f l :
  data (fst (save_tags cfg wr st f l)) = dict_set (data st) f (length (heap st)) /\
  heap (fst (save_tags cfg wr st f l)) = heap st ++ [clean_tags cfg l].
Proof. unfold save_tags. destruct (wr (txt_path f)); split; reflexivity. Qed.

Lemma heap_wf_save cfg wr st f l : heap_wf st -> heap_wf (fst (save_tags cfg wr st f l)).
Proof.
  intros [Hn Hl]. destruct (save_tags_data cfg wr st f l) as [Hd Hh].
  unfold heap_wf. rewrite Hd, Hh, length_app. simpl. split.
  - apply nodup_snd_dict_set; [exact Hn|]. intros Hin.
    rewrite Forall_forall in Hl. apply Hl in Hin. lia.
  - apply Forall_forall. intros o Hin. apply in_snd_dict_set in Hin as [->|Hin]; [lia|].
    rewrite Forall_forall in Hl. apply Hl in Hin. lia.
Qed.

Lemma get_tags_save cfg wr st f l g : heap_wf st ->
  get_tags (fst (save_tags cfg wr st f l)) g = if str_eqb g f then clean_tags cfg l else get_tags st g.
Proof.
  intros [Hn Hl]. destruct (save_tags_data cfg wr st f l) as [Hd Hh].
  unfold get_tags, deref. rewrite Hd, Hh.
  destruct (str_eqb g f) eqn:E.
  - apply str_eqb_true in E. subst. rewrite dict_get_set_same. apply nth_middle.
  - rewrite dict_get_set_other by exact E.
    destruct (dict_get (data st) g) as [o|] eqn:Hg; [|reflexivity].
    apply app_nth1. rewrite Forall_forall in Hl. apply Hl. eapply dict_get_in_snd. exact Hg.
Qed.

Lemma save_tags_keys cfg wr st f l g :
  dict_get (data st) g <> None -> dict_get (data (fst (save_tags cfg wr st f l))) g <> None.
Proof. destruct (save_tags_data cfg wr st f l) as [Hd _]. rewrite Hd. apply dict_get_set_some. Qed.

(** The loop edits, with [edit], each image of [fs] whose list passes
    [test], commits the cleaned result and counts it; the other lists are
    untouched. *)
Lemma edit_loop_spec cfg wr test edit fs : forall st count,
  heap_wf st -> NoDup fs -> (forall f, In f fs -> dict_get (data st) f <> None) ->
  exists st',
    edit_loop cfg wr test edit st fs count =
      Some (st', count + length (filter (fun f => test (get_tags st f)) fs)) /\
    heap_wf st' /\
    (forall g, get_tags st' g =
       if mem g fs && test (get_tags st g) then clean_tags cfg (edit (get_tags st g))
       else get_tags st g).
Proof.
  induction fs as [|f r IH]; intros st count Hwf Hnd Hkeys; simpl.
  - exists st. rewrite Nat.add_0_r. auto.
  - inversion Hnd as [|? ? Hfr Hr]; subst.
    destruct (dict_get (data st) f) as [o|] eqn:Hf;
      [|exfalso; apply (Hkeys f); [left; reflexivity|exact Hf]].
    assert (Ho : o < length (heap st))
      by (destruct Hwf as [_ Hl]; rewrite Forall_forall in Hl; apply Hl; eapply dict_get_in_snd; exact Hf).
    assert (Htags : deref st o = get_tags st f) by (unfold get_tags; rewrite Hf; reflexivity).
    rewrite Htags.
    destruct (test (get_tags st f)) eqn:Ht.
    + set (st1 := heap_set st o (edit (get_tags st f))).
      assert (Hwf1 : heap_wf st1) by (apply heap_wf_heap_set; assumption).
      assert (Hd1 : deref st1 o = edit (get_tags st f)).
      { unfold st1, deref, heap_set, with_data. cbn [heap]. rewrite nth_heap_set, Nat.eqb_refl by exact Ho. reflexivity. }
      rewrite Hd1.
      set (st2 := fst (save_tags cfg wr st1 f (edit (get_tags st f)))).
      assert (Hg2 : forall g, get_tags st2 g =
                if str_eqb g f then clean_tags cfg (edit (get_tags st f)) else get_tags st g).
      { intros g. unfold st2. rewrite get_tags_save by exact Hwf1.
        destruct (str_eqb g f) eqn:E; [reflexivity|].
        unfold st1. rewrite (get_tags_heap_set st f o) by assumption. rewrite E. reflexivity. }
      destruct (IH st2 (S count)) as [st' [Hrun [Hwf' Hget]]].
      * apply heap_wf_save, Hwf1.
      * exact Hr.
      * intros g Hg. unfold st2. apply save_tags_keys. unfold st1, heap_set, with_data. simpl.
        apply Hkeys. right. exact Hg.
      * exists st'. split; [|split; [exact Hwf'|]].
        -- rewrite Hrun. f_equal. f_equal.
           assert (Hfil : filter (fun g => test (get_tags st2 g)) r = filter (fun g => test (get_tags st g)) r).
           { apply filter_ext_in. intros g Hg. rewrite Hg2.
             destruct (str_eqb g f) eqn:E; [apply str_eqb_true in E; subst; contradiction|reflexivity]. }
           rewrite Hfil. simpl. lia.
        -- intros g. rewrite Hget, Hg2.
           destruct (str_eqb g f) eqn:E.
           ++ apply str_eqb_true in E. subst g.
              replace (mem f r) with false by (symmetry; apply mem_false; exact Hfr).
              rewrite Ht. reflexivity.
           ++ simpl. reflexivity.
    + destruct (IH st count Hwf Hr) as [st' [Hrun [Hwf' Hget]]].
      { intros g Hg. apply Hkeys. right. exact Hg. }
      exists st'. split; [exact Hrun|split; [exact Hwf'|]].
      intros g. rewrite Hget.
      destruct (str_eqb g f) eqn:E; [|reflexivity].
      apply str_eqb_true in E. subst g.
      replace (mem f r) with false by (symmetry; apply mem_false; exact Hfr).
      rewrite Ht. reflexivity.
Qed.


Lemma add_loop_edit cfg wr tag fs : forall st count,
  add_loop cfg wr tag st fs count =
  edit_loop cfg wr (fun l => negb (mem tag l)) (fun l => l ++ [tag]) st fs count.
Proof.
  induction fs as [|f r IH]; intros st count; simpl; [reflexivity|].
  destruct (dict_get (data st) f) as [o|]; [|reflexivity].
  destruct (negb (mem tag (deref st o))); apply IH.
Qed.

Lemma is_nil_true x : is_nil x = true <-> x = [].
Proof. destruct x; simpl; split; congruence. Qed.

Lemma is_nil_false x : is_nil x = false <-> x <> [].
Proof. destruct x; simpl; split; congruence. Qed.

(** The session of [st_two] keeps distinct, allocated list objects, and
    each of its image files has an entry. *)
Lemma st_two_wf :
  heap_wf st_two /\ NoDup (image_files st_two) /\
  (forall f, In f (image_files st_two) -> dict_get (data st_two) f <> None).
Proof.
  split; [|split].
  - split; vm_compute; repeat constructor; simpl; intuition discriminate.
  - vm_compute. repeat constructor; simpl; intuition discriminate.
  - intros f Hf. vm_compute in Hf. destruct Hf as [<-|[<-|[]]]; vm_compute; discriminate.
Qed.

(** [remove_tag_globally(tag)] on a session whose image files all have a
    list: a blank tag changes nothing and returns 0; otherwise every image
    whose list holds the stripped tag gets its list without the first
    occurrence, cleaned by [save_tags] (so a second occurrence survives
    deduplicated), every other list is kept, and the count is the number
    of those images, whether or not the writes succeed. *)
Theorem remove_tag_globally_spec cfg wr st tag :
  heap_wf st -> NoDup (image_files st) ->
  (forall f, In f (image_files st) -> dict_get (data st) f <> None) ->
  let t := strip tag in
  (t = [] -> remove_tag_globally cfg wr st tag = Some (st, 0)) /\
  (t <> [] -> exists st',
     remove_tag_globally cfg wr st tag =
       Some (st', length (filter (fun f => mem t (get_tags st f)) (image_files st))) /\
     forall g, get_tags st' g =
       if mem g (image_files st) && mem t (get_tags st g)
       then clean_tags cfg (remove_first t (get_tags st g)) else get_tags st g).
Proof.
  intros Hwf Hnd Hkeys t. unfold remove_tag_globally. fold t. split.
  - intros Ht. rewrite Ht. reflexivity.
  - intros Ht. apply is_nil_false in Ht. rewrite Ht.
    destruct (edit_loop_spec cfg wr (mem t) (remove_first t) (image_files st) st 0 Hwf Hnd Hkeys)
      as [st' [H1 [_ H2]]].
    exists st'. split; [exact H1|exact H2].
Qed.

Lemma remove_tag_globally_spec_witness :
  heap_wf st_two /\ NoDup (image_files st_two) /\
  (forall f, In f (image_files st_two) -> dict_get (data st_two) f <> None) /\
  let t := strip (s "a") in
  (t = [] -> remove_tag_globally AppConfig wr_all st_two (s "a") = Some (st_two, 0)) /\
  (t <> [] -> exists st',
     remove_tag_globally AppConfig wr_all st_two (s "a") =
       Some (st', length (filter (fun f => mem t (get_tags st_two f)) (image_files st_two))) /\
     forall g, get_tags st' g =
       if mem g (image_files st_two) && mem t (get_tags st_two g)
       then clean_tags AppConfig (remove_first t (get_tags st_two g)) else get_tags st_two g).
Proof.
  destruct st_two_wf as [H1 [H2 H3]].
  split; [exact H1|]. split; [exact H2|]. split; [exact H3|].
  exact (remove_tag_globally_spec AppConfig wr_all st_two (s "a") H1 H2 H3).
Defined.

(** [rename_tag_globally(old_tag, new_tag)] on a session whose image
    files all have a list: with a blank name or equal names nothing
    changes and 0 is returned; otherwise every image whose list holds the
    stripped old tag gets its first occurrence replaced by the stripped
    new tag and the list cleaned by [save_tags], every other list is
    kept, and the count is the number of those images. *)
Theorem rename_tag_globally_spec cfg wr st old_tag new_tag :
  heap_wf st -> NoDup (image_files st) ->
  (forall f, In f (image_files st) -> dict_get (data st) f <> None) ->
  let o := strip old_tag in
  let n := strip new_tag in
  (o = [] \/ n = [] \/ o = n -> rename_tag_globally cfg wr st old_tag new_tag = Some (st, 0)) /\
  (o <> [] -> n <> [] -> o <> n -> exists st',
     rename_tag_globally cfg wr st old_tag new_tag =
       Some (st', length (filter (fun f => mem o (get_tags st f)) (image_files st))) /\
     forall g, get_tags st' g =
       if mem g (image_files st) && mem o (get_tags st g)
       then clean_tags cfg (replace_first o n (get_tags st g)) else get_tags st g).
Proof.
  intros Hwf Hnd Hkeys o n. unfold rename_tag_globally. fold o n. split.
  - intros [Ho|[Hn|Hon]].
    + rewrite Ho. reflexivity.
    + rewrite Hn, orb_true_r. reflexivity.
    + rewrite Hon, str_eqb_refl, !orb_true_r. reflexivity.
  - intros Ho Hn Hon.
    apply is_nil_false in Ho. apply is_nil_false in Hn. rewrite Ho, Hn.
    replace (str_eqb o n) with false
      by (symmetry; destruct (str_eqb o n) eqn:E; [apply str_eqb_true in E; contradiction|reflexivity]).
    destruct (edit_loop_spec cfg wr (mem o) (replace_first o n) (image_files st) st 0 Hwf Hnd Hkeys)
      as [st' [H1 [_ H2]]].
    exists st'. split; [exact H1|exact H2].
Qed.

Lemma rename_tag_globally_spec_witness :
  heap_wf st_two /\ NoDup (image_files st_two) /\
  (forall f, In f (image_files st_two) -> dict_get (data st_two) f <> None) /\
  let o := strip (s "a") in
  let n := strip (s "c") in
  (o = [] \/ n = [] \/ o = n -> rename_tag_globally AppConfig wr_all st_two (s "a") (s "c") = Some (st_two, 0)) /\
  (o <> [] -> n <> [] -> o <> n -> exists st',
     rename_tag_globally AppConfig wr_all st_two (s "a") (s "c") =
       Some (st', length (filter (fun f => mem o (get_tags st_two f)) (image_files st_two))) /\
     forall g, get_tags st' g =
       if mem g (image_files st_two) && mem o (get_tags st_two g)
       then clean_tags AppConfig (replace_first o n (get_tags st_two g)) else get_tags st_two g).
Proof.
  destruct st_two_wf as [H1 [H2 H3]].
  split; [exact H1|]. split; [exact H2|]. split; [exact H3|].
  exact (rename_tag_globally_spec AppConfig wr_all st_two (s "a") (s "c") H1 H2 H3).
Defined.

(** [add_tag_globally(tag)] on a session whose image files all have a
    list: a blank tag changes nothing and returns 0; otherwise every image
    whose list lacks the stripped tag gets it appended and the list
    cleaned by [save_tags], every other list is kept, and the count is the
    number of those images. *)
Theorem add_tag_globally_spec cfg wr st tag :
  heap_wf st -> NoDup (image_files st) ->
  (forall f, In f (image_files st) -> dict_get (data st) f <> None) ->
  let t := strip tag in
  (t = [] -> add_tag_globally cfg wr st tag = Some (st, 0)) /\
  (t <> [] -> exists st',
     add_tag_globally cfg wr st tag =
       Some (st', length (filter (fun f => negb (mem t (get_tags st f))) (image_files st))) /\
     forall g, get_tags st' g =
       if mem g (image_files st) && negb (mem t (get_tags st g))
       then clean_tags cfg (get_tags st g ++ [t]) else get_tags st g).
Proof.
  intros Hwf Hnd Hkeys t. unfold add_tag_globally. fold t. split.
  - intros Ht. rewrite Ht. reflexivity.
  - intros Ht. apply is_nil_false in Ht. rewrite Ht, add_loop_edit.
    destruct (edit_loop_spec cfg wr (fun l => negb (mem t l)) (fun l => l ++ [t])
                (image_files st) st 0 Hwf Hnd Hkeys) as [st' [H1 [_ H2]]].
    exists st'. split; [exact H1|exact H2].
Qed.

Lemma add_tag_globally_spec_witness :
  heap_wf st_two /\ NoDup (image_files st_two) /\
  (forall f, In f (image_files st_two) -> dict_get (data st_two) f <> None) /\
  let t := strip (s "a") in
  (t = [] -> add_tag_globally AppConfig wr_all st_two (s "a") = Some (st_two, 0)) /\
  (t <> [] -> exists st',
     add_tag_globally AppConfig wr_all st_two (s "a") =
       Some (st', length (filter (fun f => negb (mem t (get_tags st_two f))) (image_files st_two))) /\
     forall g, get_tags st' g =
       if mem g (image_files st_two) && negb (mem t (get_tags st_two g))
       then clean_tags AppConfig (get_tags st_two g ++ [t]) else get_tags st_two g).
Proof.
  destruct st_two_wf as [H1 [H2 H3]].
  split; [exact H1|]. split; [exact H2|]. split; [exact H3|].
  exact (add_tag_globally_spec AppConfig wr_all st_two (s "a") H1 H2 H3).
Defined.

(* ------------------------------------------------------------------ *)
(** ** [filter_images_by_tag] *)
(* ------------------------------------------------------------------ *)

Lemma prefixb_app n v : prefixb n (n ++ v) = true.
Proof.
  induction n as [|c n IH]; simpl; [reflexivity|].
  destruct (ascii_dec c c); [exact IH|contradiction].
Qed.

Lemma prefixb_true n h : prefixb n h = true -> exists v, h = n ++ v.
Proof.
  revert h. induction n as [|c n IH]; intros h; simpl; [exists h; reflexivity|].
  destruct h as [|d h]; [discriminate|].
  destruct (ascii_dec c d) as [->|]; [|discriminate].
  intros H. destruct (IH h H) as [v ->]. exists v. reflexivity.
Qed.

Lemma contains_spec n h : contains n h = true <-> exists u v, h = u ++ n ++ v.
Proof.
  induction h as [|d h IH]; simpl.
  - split.
    + intros H. rewrite orb_false_r in H. apply prefixb_true in H as [v Hv].
      exists [], v. exact Hv.
    + intros [u [v H]]. destruct u as [|x u]; [|discriminate].
      destruct n as [|c n]; [reflexivity|discriminate].
  - rewrite orb_true_iff, IH. split.
    + intros [H|[u [v ->]]].
      * apply prefixb_true in H as [v Hv]. exists [], v. exact Hv.
      * exists (d :: u), v. reflexivity.
    + intros [[|x u] [v H]].
      * left. simpl in H. rewrite H. apply prefixb_app.
      * right. injection H as -> ->. exists u, v. reflexivity.
Qed.

Lemma lower_char_idem c : lower_char (lower_char c) = lower_char c.
Proof. destruct c as [[] [] [] [] [] [] [] []]; vm_compute; reflexivity. Qed.

Lemma lower_idem x : lower (lower x) = lower x.
Proof.
  unfold lower. rewrite map_map. apply map_ext. exact lower_char_idem.
Qed.

Lemma is_nil_lower x : is_nil (lower x) = is_nil x.
Proof. destruct x; reflexivity. Qed.

(** [filter_images_by_tag(search_term)]: an empty search returns every
    image file; the search is case-insensitive (the lowered search gives
    the same list); otherwise a file is listed exactly when it is an image
    file and one of its tags, lowered, contains the lowered search as a
    substring. *)
Theorem filter_images_by_tag_spec st q :
  (q = [] -> filter_images_by_tag st q = image_files st) /\
  filter_images_by_tag st (lower q) = filter_images_by_tag st q /\
  (q <> [] -> forall f,
     In f (filter_images_by_tag st q) <->
     In f (image_files st) /\
     exists t u v, In t (get_tags st f) /\ lower t = u ++ lower q ++ v).
Proof.
  split; [intros ->; reflexivity|]. split.
  - unfold filter_images_by_tag. rewrite is_nil_lower, lower_idem. reflexivity.
  - intros Hq f. unfold filter_images_by_tag.
    replace (is_nil q) with false by (symmetry; apply is_nil_false, Hq).
    rewrite filter_In, existsb_exists. split.
    + intros [Hf [t [Ht Hc]]]. split; [exact Hf|].
      apply contains_spec in Hc as [u [v Huv]]. exists t, u, v. auto.
    + intros [Hf [t [u [v [Ht Huv]]]]]. split; [exact Hf|].
      exists t. split; [exact Ht|]. apply contains_spec. exists u, v. exact Huv.
Qed.

(* ------------------------------------------------------------------ *)
(** ** [get_local_suggestions] *)
(* ------------------------------------------------------------------ *)

Lemma in_set_add x y l : In x (set_add y l) <-> x = y \/ In x l.
Proof.
  unfold set_add. destruct (mem y l) eqn:E.
  - apply mem_In in E. split; [tauto|]. intros [->|H]; auto.
  - rewrite in_app_iff. simpl. intuition.
Qed.

Lemma nodup_set_add y l : NoDup l -> NoDup (set_add y l).
Proof.
  unfold set_add. destruct (mem y l) eqn:E; intros H; [exact H|].
  apply mem_false in E. apply NoDup_app; auto using NoDup_cons, NoDup_nil.
  - intros x Hx [<-|[]]. contradiction.
Qed.

Section Suggestions.
Variables (threshold : nat) (cur : list str) (current_tag : str).

Let step := fun suggestions (gc : str * nat) =>
  let global_tag := fst gc in
  if negb (mem global_tag cur) then
    if levenshtein_distance current_tag global_tag <=? threshold
    then set_add global_tag suggestions else suggestions
  else suggestions.

Lemma inner_suggestions gs : forall acc,
  NoDup acc ->
  NoDup (fold_left step gs acc) /\
  forall t, In t (fold_left step gs acc) <->
    In t acc \/ (In t (map fst gs) /\ ~ In t cur /\ levenshtein_distance current_tag t <= threshold).
Proof.
  induction gs as [|[g n] r IH]; intros acc Hacc; simpl.
  - split; [exact Hacc|]. intros t. tauto.
  - assert (Hstep : NoDup (step acc (g, n)) /\
            forall t, In t (step acc (g, n)) <->
              In t acc \/ (t = g /\ ~ In t cur /\ levenshtein_distance current_tag t <= threshold)).
    { unfold step. simpl. destruct (mem g cur) eqn:Em; simpl.
      - split; [exact Hacc|]. intros t. split; [tauto|]. intros [H|[-> [H _]]]; [exact H|].
        apply mem_In in Em. contradiction.
      - apply mem_false in Em.
        destruct (Nat.leb_spec (levenshtein_distance current_tag g) threshold) as [Hl|Hl].
        + split; [apply nodup_set_add, Hacc|]. intros t. rewrite in_set_add.
          split; [intros [->|H]; auto|]. intros [H|[-> _]]; auto.
        + split; [exact Hacc|]. intros t. split; [tauto|]. intros [H|[-> [_ H]]]; [exact H|lia]. }
    destruct Hstep as [Hn Hs]. destruct (IH _ Hn) as [H1 H2].
    split; [exact H1|]. intros t. rewrite H2, Hs. simpl. intuition congruence.
Qed.

End Suggestions.

Lemma suggestion_set_spec threshold st cur :
  NoDup (suggestion_set threshold st cur) /\
  forall t, In t (suggestion_set threshold st cur) <->
    In t (map fst (tag_frequency st)) /\ ~ In t cur /\
    exists c, In c cur /\ levenshtein_distance c t <= threshold.
Proof.
  unfold suggestion_set.
  assert (Hkeys : forall t, In t (map fst (most_common (tag_frequency st))) <->
                            In t (map fst (tag_frequency st))).
  { intros t. destruct (most_common_fold (tag_frequency st) [] (Sorted_nil _)) as [_ [Hp _]].
    split; apply Permutation_in; apply Permutation_map; [|symmetry]; exact Hp. }
  assert (Gen : forall cs acc, NoDup acc ->
    NoDup (fold_left (fun suggestions current_tag =>
      fold_left (fun suggestions (gc : str * nat) =>
        let global_tag := fst gc in
        if negb (mem global_tag cur) then
          if levenshtein_distance current_tag global_tag <=? threshold
          then set_add global_tag suggestions else suggestions
        else suggestions) (most_common (tag_frequency st)) suggestions) cs acc) /\
    forall t, In t (fold_left (fun suggestions current_tag =>
      fold_left (fun suggestions (gc : str * nat) =>
        let global_tag := fst gc in
        if negb (mem global_tag cur) then
          if levenshtein_distance current_tag global_tag <=? threshold
          then set_add global_tag suggestions else suggestions
        else suggestions) (most_common (tag_frequency st)) suggestions) cs acc) <->
      In t acc \/ (In t (map fst (tag_frequency st)) /\ ~ In t cur /\
                   exists c, In c cs /\ levenshtein_distance c t <= threshold)).
  { induction cs as [|c cs IH]; intros acc Hacc; simpl.
    - split; [exact Hacc|]. intros t. split; [tauto|]. intros [H|[_ [_ [c [[] _]]]]]. exact H.
    - destruct (inner_suggestions threshold cur c (most_common (tag_frequency st)) acc Hacc) as [Hn Hi].
      destruct (IH _ Hn) as [H1 H2]. split; [exact H1|].
      intros t. rewrite H2, Hi, Hkeys. split.
      + intros [[H|[Hk [Hc Hl]]]|[Hk [Hc [c' [Hin Hl]]]]]; [left; exact H| |].
        * right. split; [exact Hk|]. split; [exact Hc|]. exists c. auto.
        * right. split; [exact Hk|]. split; [exact Hc|]. exists c'. auto.
      + intros [H|[Hk [Hc [c' [[<-|Hin] Hl]]]]].
        * left. left. exact H.
        * left. right. auto.
        * right. split; [exact Hk|]. split; [exact Hc|]. exists c'. auto. }
  destruct (Gen cur [] (NoDup_nil _)) as [H1 H2]. split; [exact H1|].
  intros t. rewrite H2. simpl. tauto.
Qed.

(** [get_local_suggestions(current_tags)], whatever order the set of
    suggestions is iterated in: the result lists each suggested tag once
    with its count in the index, by count descending; a tag is suggested
    exactly when it is in the index, is not one of the current tags, and
    is within [SIMILARITY_THRESHOLD] edits of some current tag. *)
Theorem get_local_suggestions_spec set_order threshold st cur :
  (forall l, Permutation (set_order l) l) ->
  let res := get_local_suggestions set_order threshold st cur in
  Sorted count_ge res /\ NoDup (map fst res) /\
  forall t n, In (t, n) res <->
    n = counter_get (tag_frequency st) t /\
    In t (map fst (tag_frequency st)) /\ ~ In t cur /\
    exists c, In c cur /\ levenshtein_distance c t <= threshold.
Proof.
  intros Hord res. unfold res, get_local_suggestions.
  set (l := map (fun tag => (tag, counter_get (tag_frequency st) tag))
                (set_order (suggestion_set threshold st cur))).
  destruct (most_common_fold l [] (Sorted_nil _)) as [Hs [Hp _]]. simpl in Hp.
  destruct (suggestion_set_spec threshold st cur) as [Hnd Hin].
  split; [exact Hs|]. split.
  - apply (Permutation_NoDup (Permutation_map fst (Permutation_sym Hp))).
    unfold l. rewrite map_map. simpl. rewrite map_id.
    apply (Permutation_NoDup (Permutation_sym (Hord _))), Hnd.
  - intros t n. split.
    + intros H. apply (Permutation_in _ Hp) in H. unfold l in H.
      apply in_map_iff in H as [t' [E Ht']]. injection E as <- <-.
      apply (Permutation_in _ (Hord _)), Hin in Ht'. auto.
    + intros [-> Ht]. apply (Permutation_in _ (Permutation_sym Hp)). unfold l.
      apply in_map_iff. exists t. split; [reflexivity|].
      apply (Permutation_in _ (Permutation_sym (Hord _))), Hin, Ht.
Qed.

Lemma get_local_suggestions_spec_witness :
  (forall l : list str, Permutation l l) /\
  let res := get_local_suggestions (fun l => l) 2 st_two [s "ab"] in
  Sorted count_ge res /\ NoDup (map fst res) /\
  forall t n, In (t, n) res <->
    n = counter_get (tag_frequency st_two) t /\
    In t (map fst (tag_frequency st_two)) /\ ~ In t [s "ab"] /\
    exists c, In c [s "ab"] /\ levenshtein_distance c t <= 2.
Proof.
  split; [intros l; apply Permutation_refl|].
  exact (get_local_suggestions_spec (fun l => l) 2 st_two [s "ab"] (fun l => Permutation_refl l)).
Defined.

(* ------------------------------------------------------------------ *)
(** ** The [CategoryOrganizer]: properties of its edits, undo and redo *)

Ltac concrete := vm_compute; repeat constructor; simpl; intuition discriminate.

Lemma snapshot_eta sn : mkSnapshot (snap_categories sn) (snap_uncategorized sn) (snap_renames sn) = sn.
Proof. destruct sn; reflexivity. Qed.

Lemma org_eta o : mkOrg (categories o) (uncategorized_tags o) (tag_renames o) (undo_stack o) (redo_stack o) = o.
Proof. destruct o; reflexivity. Qed.

Lemma snoc_cases {A} (l : list A) : l = [] \/ exists l' x, l = l' ++ [x].
Proof.
  destruct l using rev_ind; [left; reflexivity|right; eauto].
Qed.

(** [_undo] and [_redo]: with an empty stack each leaves the organizer
    unchanged; otherwise a redo right after an undo, and an undo right after
    a redo, give back the organizer they started from. *)
Theorem undo_redo_inverse o :
  (undo_stack o = [] -> org_undo o = o) /\
  (redo_stack o = [] -> org_redo o = o) /\
  (undo_stack o <> [] -> org_redo (org_undo o) = o) /\
  (redo_stack o <> [] -> org_undo (org_redo o) = o).
Proof.
  destruct o as [cats u r us rs]; unfold org_undo, org_redo; cbn [undo_stack redo_stack].
  repeat split; intros H.
  - subst. reflexivity.
  - subst. reflexivity.
  - destruct (snoc_cases us) as [->|[us' [x ->]]]; [contradiction|].
    rewrite pop_last_snoc. cbn [redo_stack undo_stack]. rewrite pop_last_snoc.
    unfold snapshot. cbn. rewrite snapshot_eta. reflexivity.
  - destruct (snoc_cases rs) as [->|[rs' [x ->]]]; [contradiction|].
    rewrite pop_last_snoc. cbn [redo_stack undo_stack]. rewrite pop_last_snoc.
    unfold snapshot. cbn. rewrite snapshot_eta. reflexivity.
Qed.

Lemma undo_push o :
  org_undo (push_to_undo o) = mkOrg (categories o) (uncategorized_tags o) (tag_renames o)
                                    (undo_stack o) [snapshot (push_to_undo o)].
Proof. unfold org_undo, push_to_undo. cbn [undo_stack]. rewrite pop_last_snoc. reflexivity. Qed.

Lemma pushed_intro o cats u r :
  let o' := mkOrg cats u r (undo_stack o ++ [snapshot o]) [] in
  undo_stack o' = undo_stack o ++ [snapshot o] /\ redo_stack o' = [] /\
  org_undo o' = mkOrg (categories o) (uncategorized_tags o) (tag_renames o) (undo_stack o) [snapshot o'].
Proof.
  unfold org_undo. cbn [undo_stack redo_stack]. rewrite pop_last_snoc.
  repeat split.
Qed.

(** Every edit of the organizer ([_move_tag_to_category],
    [_add_uncategorized_to_category], [_add_tag_to_category],
    [_remove_from_category], [_rename_tag_inline], [_auto_categorize], the
    apply of [_edit_category_as_text]) either changes nothing or pushes
    exactly one snapshot, of the state before the edit, and clears the redo
    stack; an [_undo] right after it restores the categories, uncategorized
    tags and renames of before, with the edited state as the only redo entry. *)
Theorem undo_after_action dm image_list a o :
  let o' := apply_action dm image_list a o in
  o' = o \/
  (undo_stack o' = undo_stack o ++ [snapshot o] /\ redo_stack o' = [] /\
   org_undo o' = mkOrg (categories o) (uncategorized_tags o) (tag_renames o)
                       (undo_stack o) [snapshot o']).
Proof.
  cbv zeta.
  destruct a as [tag f t|tag n|n [ans|]|tag n|tag [ans|]| |n text]; simpl.
  - right. apply pushed_intro.
  - right. apply pushed_intro.
  - destruct (is_nil ans || is_nil (strip ans)); [left; reflexivity|right; apply pushed_intro].
  - left; reflexivity.
  - right. unfold remove_from_category. simpl.
    destruct (dict_get (uncategorized_tags o) tag); apply pushed_intro.
  - destruct (negb (is_nil ans) && negb (is_nil (strip ans)) && negb (str_eqb ans tag));
      [right; apply pushed_intro|left; reflexivity].
  - left; reflexivity.
  - right. unfold org_auto_categorize. simpl.
    destruct (auto_categorize (categories o) (uncategorized_tags o)) as [[cats u] n]. apply pushed_intro.
  - unfold edit_category_as_text.
    destruct (find (fun c => str_eqb (cat_name c) n) (categories o)) as [c|]; [|left; reflexivity].
    destruct (same_set _ _); [right; apply pushed_intro|left; reflexivity].
Qed.

Lemma remove_first_incl x y l : In x (remove_first y l) -> In x l.
Proof.
  induction l as [|z r IH]; simpl; [auto|].
  destruct (str_eqb y z); simpl; intuition.
Qed.

Lemma remove_first_nodup y l : NoDup l -> NoDup (remove_first y l).
Proof.
  induction l as [|z r IH]; simpl; intros H; [constructor|].
  inversion H; subst. destruct (str_eqb y z); [assumption|].
  constructor; [|auto]. intros Hin. apply remove_first_incl in Hin. contradiction.
Qed.


Lemma remove_if_present_nodup y l : NoDup l -> NoDup (remove_if_present y l).
Proof. unfold remove_if_present. destruct (mem y l); [apply remove_first_nodup|auto]. Qed.

Lemma append_if_absent_nodup y l : NoDup l -> NoDup (append_if_absent y l).
Proof.
  unfold append_if_absent. destruct (mem y l) eqn:E; [auto|].
  intros H. apply mem_false in E. apply NoDup_app; auto.
  - repeat constructor. auto.
  - intros x Hx [<-|[]]. contradiction.
Qed.

Lemma update_named_nodup n f cats : (forall l, NoDup l -> NoDup (f l)) ->
  cats_nodup cats -> cats_nodup (update_named n f cats).
Proof.
  unfold cats_nodup. intros Hf. induction cats as [|c r IH]; simpl; intros H; [constructor|].
  inversion H; subst. destruct (str_eqb (cat_name c) n); constructor; auto.
  simpl. auto.
Qed.

Lemma ins_by_perm key mi x l : Permutation (ins_by key mi x l) (x :: l).
Proof.
  destruct (ins_by_split key mi x l) as [l1 [l2 [-> [-> _]]]].
  symmetry. apply Permutation_middle.
Qed.

Lemma place_tag_nodup tag mi c : NoDup (cat_tags c) -> NoDup (cat_tags (place_tag tag mi c)).
Proof.
  rewrite place_tag_ins. destruct (mem tag (cat_tags c)) eqn:E; [auto|].
  intros H. apply mem_false in E.
  eapply Permutation_NoDup; [symmetry; apply ins_by_perm|]. constructor; assumption.
Qed.

Lemma cat_loop_nodup tag cats cats' : cats_nodup cats -> cat_loop tag cats = Some cats' -> cats_nodup cats'.
Proof.
  unfold cats_nodup. intros H E. pose proof (cat_loop_spec tag cats) as Hs. rewrite E in Hs.
  destruct Hs as [pre [c [post [x [-> [_ [_ ->]]]]]]].
  apply Forall_app in H as [H1 H2]. inversion H2; subst.
  apply Forall_app. split; [assumption|]. constructor; [apply place_tag_nodup|]; assumption.
Qed.

Lemma auto_loop_nodup tags : forall cats uncat n,
  cats_nodup cats -> cats_nodup (fst (fst (auto_loop tags cats uncat n))).
Proof.
  induction tags as [|tag r IH]; intros cats uncat n H; simpl; [assumption|].
  destruct (cat_loop tag cats) as [cats'|] eqn:E; apply IH; [|assumption].
  eapply cat_loop_nodup; eassumption.
Qed.

Lemma org_nodup_push o : org_nodup o -> org_nodup (push_to_undo o).
Proof.
  intros [H1 H2]. split; [exact H1|]. simpl. rewrite app_nil_r.
  apply Forall_app in H2 as [H2 _]. apply Forall_app. split; [assumption|]. constructor; [exact H1|constructor].
Qed.

Lemma org_nodup_set o cats u r :
  org_nodup o -> cats_nodup cats -> org_nodup (mkOrg cats u r (undo_stack o) (redo_stack o)).
Proof. intros [_ H] Hc. split; assumption. Qed.

Lemma list_insert_nodup pos (x : str) l : ~ In x l -> NoDup l -> NoDup (list_insert pos x l).
Proof.
  intros Hx Hl. unfold list_insert.
  apply (Permutation_NoDup (Permutation_middle (firstn pos l) (skipn pos l) x)).
  rewrite firstn_skipn. constructor; assumption.
Qed.

(** If no category (current or in a snapshot) lists a tag twice, this
    stays so after [_undo], [_redo], [_move_tag_to_category],
    [_add_uncategorized_to_category], [_add_tag_to_category],
    [_remove_from_category], [_rename_tag_inline], [_auto_categorize],
    both drops of [_end_drag_category], [_remove_tag_from_all_images] and
    [_save_categories]: every edit but the text edit of
    [_edit_category_as_text]. *)
Theorem tags_stay_distinct cfg wr dm image_list o :
  org_nodup o ->
  org_nodup (org_undo o) /\ org_nodup (org_redo o) /\
  (forall a, match a with EditAsText _ _ => False | _ => True end ->
             org_nodup (apply_action dm image_list a o)) /\
  (forall dragged_tag drag_source_category target,
     org_nodup (end_drag_category dragged_tag drag_source_category target o)) /\
  (forall tag, org_nodup (fst (fst (remove_tag_from_all_images cfg wr dm image_list tag o)))) /\
  org_nodup (fst (save_categories cfg wr dm image_list o)).
Proof.
  intros Ho. split; [|split; [|split; [|split; [|split]]]].
  - unfold org_undo. destruct (snoc_cases (undo_stack o)) as [->|[us [x E]]]; [simpl; exact Ho|].
    rewrite E, pop_last_snoc. destruct Ho as [H1 H2]. rewrite E in H2.
    rewrite <- app_assoc in H2. apply Forall_app in H2 as [H2 H3]. inversion H3; subst.
    split; [assumption|]. simpl. apply Forall_app; split; [assumption|].
    apply Forall_app; split; [assumption|]. constructor; [exact H1|constructor].
  - unfold org_redo. destruct (snoc_cases (redo_stack o)) as [->|[rs [x E]]]; [simpl; exact Ho|].
    rewrite E, pop_last_snoc. destruct Ho as [H1 H2]. rewrite E in H2.
    apply Forall_app in H2 as [H2 H3]. apply Forall_app in H3 as [H3 H4]. inversion H4; subst.
    split; [assumption|]. simpl. apply Forall_app; split; [|assumption].
    apply Forall_app; split; [assumption|]. constructor; [exact H1|constructor].
  - pose proof (org_nodup_push o Ho) as Hp.
    destruct a as [tag f t|tag n|n [ans|]|tag n|tag [ans|]| |n text]; intros Ha; simpl.
    + apply (org_nodup_set (push_to_undo o)); [exact Hp|].
      apply update_named_nodup; [apply append_if_absent_nodup|].
      apply update_named_nodup; [apply remove_if_present_nodup|]. apply Hp.
    + apply (org_nodup_set (push_to_undo o)); [exact Hp|].
      apply update_named_nodup; [apply append_if_absent_nodup|]. apply Hp.
    + destruct (is_nil ans || is_nil (strip ans)); [exact Ho|].
      unfold with_uncategorized, with_categories. simpl.
      apply (org_nodup_set (push_to_undo o)); [exact Hp|].
      apply update_named_nodup; [apply append_if_absent_nodup|]. apply Hp.
    + exact Ho.
    + unfold remove_from_category. simpl.
      assert (Hc : cats_nodup (update_named n (remove_if_present tag) (categories o))).
      { apply update_named_nodup; [apply remove_if_present_nodup|]. apply Ho. }
      destruct (dict_get (uncategorized_tags o) tag); apply (org_nodup_set (push_to_undo o)); assumption.
    + destruct (negb (is_nil ans) && negb (is_nil (strip ans)) && negb (str_eqb ans tag)); [|exact Ho].
      apply (org_nodup_set (push_to_undo o)); [exact Hp|]. apply Hp.
    + exact Ho.
    + unfold org_auto_categorize, auto_categorize. simpl.
      pose proof (auto_loop_nodup (map fst (uncategorized_tags o)) (categories o)
                    (uncategorized_tags o) 0 (proj1 Ho)) as Hn.
      destruct (auto_loop _ _ _ _) as [[cats u] k]. apply (org_nodup_set (push_to_undo o)); assumption.
    + contradiction.
  - intros [tag|] source [tgt|]; simpl; try exact Ho; [|destruct (is_nil tag); exact Ho].
    destruct (is_nil tag); [exact Ho|].
    pose proof (org_nodup_push o Ho) as Hp.
    set (o1 := push_to_undo o) in *.
    assert (H1 : org_nodup
      (if match source with Some n => negb (is_nil n) | None => false end
       then with_categories o1 (update_named (match source with Some n => n | None => [] end)
                                  (remove_if_present tag) (categories o1))
       else with_uncategorized o1 (del_if_present (uncategorized_tags o1) tag))).
    { destruct (match source with Some n => negb (is_nil n) | None => false end).
      - apply (org_nodup_set o1); [exact Hp|].
        apply update_named_nodup; [apply remove_if_present_nodup|]. apply Hp.
      - apply (org_nodup_set o1); [exact Hp|]. apply Hp. }
    set (o2 := if match source with Some n => negb (is_nil n) | None => false end then _ else _) in *.
    destruct tgt as [n t after|n]; apply (org_nodup_set o2); try exact H1;
      (apply update_named_nodup; [|apply H1]).
    + intros l Hl. destruct (mem tag l) eqn:E; [exact Hl|].
      apply list_insert_nodup; [apply mem_false, E|exact Hl].
    + apply append_if_absent_nodup.
  - intros tag. unfold remove_tag_from_all_images.
    destruct (save_each _ _ _ _ _ _) as [dm' k]. simpl.
    apply (org_nodup_set o); [exact Ho|].
    unfold cats_nodup. apply Forall_map. eapply Forall_impl; [|exact (proj1 Ho)].
    intros c Hc. simpl. apply remove_if_present_nodup, Hc.
  - unfold save_categories. simpl. apply org_nodup_push, Ho.

Qed.

Lemma tags_stay_distinct_witness :
  let cfg := AppConfig in let wr := wr_all in
  let dm := st_two in let image_list := [s "1.png"; s "2.png"] in let o := org_ab in
  org_nodup o /\
  (org_nodup (org_undo o) /\ org_nodup (org_redo o) /\
   (forall a, match a with EditAsText _ _ => False | _ => True end ->
              org_nodup (apply_action dm image_list a o)) /\
   (forall dragged_tag drag_source_category target,
      org_nodup (end_drag_category dragged_tag drag_source_category target o)) /\
   (forall tag, org_nodup (fst (fst (remove_tag_from_all_images cfg wr dm image_list tag o)))) /\
   org_nodup (fst (save_categories cfg wr dm image_list o))).
Proof.
  cbv zeta. assert (H : org_nodup org_ab) by concrete.
  exact (conj H (tags_stay_distinct AppConfig wr_all st_two [s "1.png"; s "2.png"] org_ab H)).
Defined.

Lemma join_nonnil_gen sep l : Forall (fun t => strip t = t /\ t <> []) l -> l <> [] -> join sep l <> [].
Proof.
  destruct l as [|t l]; [contradiction|]. intros H _.
  inversion H as [|? ? [_ Ht] _]; subst.
  destruct l; simpl; [exact Ht|]. destruct t; [contradiction|discriminate].
Qed.

Lemma strip_join_gen sep l : Forall (fun t => strip t = t /\ t <> []) l -> l <> [] ->
  strip (join sep l) = join sep l.
Proof.
  intros Hg Hne. unfold strip.
  assert (Hl : lstrip (join sep l) = join sep l).
  { destruct l as [|t l]; [contradiction|]. inversion Hg as [|? ? [Ht Htn] _]; subst.
    assert (Hlt : lstrip t = t) by (rewrite <- Ht; apply lstrip_strip).
    destruct l as [|u l]; [exact Hlt|].
    rewrite join_cons by discriminate. rewrite lstrip_app, Hlt.
    destruct t; [contradiction|reflexivity]. }
  rewrite Hl. clear Hl Hne.
  induction l as [|t l IH]; [reflexivity|].
  inversion Hg as [|? ? [Ht Htn] Hl]; subst.
  destruct l as [|u l].
  - simpl. rewrite <- Ht. apply rstrip_strip.
  - rewrite join_cons by discriminate.
    rewrite app_assoc, rstrip_app, IH by (try rewrite IH; auto; apply join_nonnil_gen; auto; discriminate).
    reflexivity.
Qed.

Lemma split_on_sep c x : split_on c (c :: x) = [] :: split_on c x.
Proof. simpl. destruct (ascii_dec c c); [reflexivity|congruence]. Qed.

Lemma split_join_gen c l : Forall (fun t => ~ In c t) l -> l <> [] -> split_on c (join [c] l) = l.
Proof.
  induction l as [|t l IH]; intros Hg Hne; [contradiction|].
  inversion Hg as [|? ? Ht Hl]; subst.
  destruct l as [|u l].
  - simpl. rewrite <- (app_nil_r t) at 1. rewrite split_on_app by exact Ht.
    simpl. rewrite app_nil_r. reflexivity.
  - rewrite join_cons by discriminate. rewrite split_on_app by exact Ht.
    change ([c] ++ join [c] (u :: l)) with (c :: join [c] (u :: l)).
    rewrite split_on_sep, IH by (auto; discriminate). rewrite app_nil_r. reflexivity.
Qed.

Lemma text_lines_join l :
  Forall (fun t => strip t = t /\ t <> [] /\ ~ In "010"%char t) l ->
  text_lines (join ["010"%char] l) = l.
Proof.
  intros Hg. destruct l as [|t r]; [reflexivity|].
  unfold text_lines.
  assert (H1 : Forall (fun t => strip t = t /\ t <> []) (t :: r))
    by (eapply Forall_impl; [|exact Hg]; simpl; tauto).
  assert (H2 : Forall (fun t => ~ In "010"%char t) (t :: r))
    by (eapply Forall_impl; [|exact Hg]; simpl; tauto).
  rewrite strip_join_gen, split_join_gen by (auto; discriminate).
  clear H2 Hg. induction H1 as [|x l [Hx Hn] _ IH]; [reflexivity|].
  simpl. rewrite Hx. destruct x; [contradiction|]. simpl. f_equal. exact IH.
Qed.

Lemma fold_snoc_filter (p : str -> bool) l : forall acc,
  fold_left (fun acc x => if p x then acc ++ [x] else acc) l acc = acc ++ filter p l.
Proof.
  induction l as [|x r IH]; intros acc; simpl; [rewrite app_nil_r; reflexivity|].
  rewrite IH. destruct (p x); [rewrite <- app_assoc|]; reflexivity.
Qed.

Lemma new_order_no_renames original lines :
  new_order_of [] original lines = filter (fun l => mem l original) lines.
Proof. unfold new_order_of. simpl. apply fold_snoc_filter. Qed.

Lemma same_set_filter original lines :
  same_set (filter (fun l => mem l original) lines) original = true <->
  (forall t, In t original -> In t lines).
Proof.
  unfold same_set. rewrite andb_true_iff, !forallb_forall. split.
  - intros [_ H] t Ht. apply H, mem_In, filter_In in Ht. tauto.
  - intros H. split.
    + intros x Hx. apply filter_In in Hx. tauto.
    + intros x Hx. apply mem_In, filter_In. split; [auto|]. apply mem_In. exact Hx.
Qed.

Lemma find_update_named n f cats :
  find (fun c => str_eqb (cat_name c) n) (update_named n f cats) =
  option_map (fun c => set_tags c (f (cat_tags c))) (find (fun c => str_eqb (cat_name c) n) cats).
Proof.
  induction cats as [|c r IH]; simpl; [reflexivity|].
  destruct (str_eqb (cat_name c) n) eqn:E; simpl; rewrite ?E; [reflexivity|exact IH].
Qed.

(** [_edit_category_as_text], without renames, on text made of clean
    lines: the change is applied exactly when every tag of the category
    occurs among the lines. The new tag list is then the lines that are tags
    of the category, in their order: unknown lines are dropped without the
    error and a repeated line is kept twice. Otherwise nothing changes. *)
Theorem edit_category_as_text_spec name lines o c :
  tag_renames o = [] ->
  find (fun c => str_eqb (cat_name c) name) (categories o) = Some c ->
  Forall (fun t => strip t = t /\ t <> [] /\ ~ In "010"%char t) lines ->
  let r := edit_category_as_text name (join ["010"%char] lines) o in
  (snd r = true <-> forall t, In t (cat_tags c) -> In t lines) /\
  (snd r = true ->
     fst r = with_categories (push_to_undo o)
               (update_named name (fun _ => filter (fun l => mem l (cat_tags c)) lines) (categories o)) /\
     find (fun c => str_eqb (cat_name c) name) (categories (fst r)) =
       Some (set_tags c (filter (fun l => mem l (cat_tags c)) lines))) /\
  (snd r = false -> fst r = o).
Proof.
  intros Hr Hc Hl. cbv zeta. unfold edit_category_as_text.
  rewrite Hc, Hr, text_lines_join by exact Hl. rewrite new_order_no_renames.
  rewrite <- (same_set_filter (cat_tags c) lines).
  destruct (same_set _ _) eqn:E; simpl.
  - split; [tauto|]. split; [|discriminate]. intros _. split; [reflexivity|].
    rewrite find_update_named. simpl. rewrite Hc. reflexivity.
  - split; [tauto|]. split; [discriminate|]. reflexivity.
Qed.

Lemma edit_category_as_text_spec_witness :
  let name := s "A" in let lines := [s "x"; s "a"] in let o := org_ab in
  let c := mkCategory (s "A") [] [s "a"; s "x"] in
  tag_renames o = [] /\
  find (fun c => str_eqb (cat_name c) name) (categories o) = Some c /\
  Forall (fun t => strip t = t /\ t <> [] /\ ~ In "010"%char t) lines /\
  (let r := edit_category_as_text name (join ["010"%char] lines) o in
   (snd r = true <-> forall t, In t (cat_tags c) -> In t lines) /\
   (snd r = true ->
      fst r = with_categories (push_to_undo o)
                (update_named name (fun _ => filter (fun l => mem l (cat_tags c)) lines) (categories o)) /\
      find (fun c => str_eqb (cat_name c) name) (categories (fst r)) =
        Some (set_tags c (filter (fun l => mem l (cat_tags c)) lines))) /\
   (snd r = false -> fst r = o)).
Proof.
  cbv zeta.
  assert (H1 : tag_renames org_ab = []) by reflexivity.
  assert (H2 : find (fun c => str_eqb (cat_name c) (s "A")) (categories org_ab) =
               Some (mkCategory (s "A") [] [s "a"; s "x"])) by reflexivity.
  assert (H3 : Forall (fun t => strip t = t /\ t <> [] /\ ~ In "010"%char t) [s "x"; s "a"])
    by (repeat constructor; vm_compute; intuition discriminate).
  exact (conj H1 (conj H2 (conj H3
    (edit_category_as_text_spec (s "A") [s "x"; s "a"] org_ab (mkCategory (s "A") [] [s "a"; s "x"]) H1 H2 H3)))).
Defined.

Lemma save_each_spec cfg wr step il : forall st count, heap_wf st -> NoDup il ->
  let r := save_each cfg wr step st il count in
  heap_wf (fst r) /\
  snd r = count + length (filter (fun f => match step (get_tags st f) with Some _ => true | None => false end) il) /\
  (forall g, get_tags (fst r) g =
     if mem g il then match step (get_tags st g) with Some l => clean_tags cfg l | None => get_tags st g end
     else get_tags st g).
Proof.
  induction il as [|f r IH]; intros st count Hwf Hnd; simpl.
  - split; [assumption|split; [lia|reflexivity]].
  - inversion Hnd as [|? ? Hf Hr]; subst.
    assert (Hsame : forall st', (forall g, g <> f -> get_tags st' g = get_tags st g) ->
              filter (fun f => match step (get_tags st' f) with Some _ => true | None => false end) r =
              filter (fun f => match step (get_tags st f) with Some _ => true | None => false end) r).
    { intros st' Hg. apply filter_ext_in. intros g Hin. rewrite Hg; [reflexivity|].
      intros ->. contradiction. }
    destruct (step (get_tags st f)) as [l|] eqn:Hs.
    + set (st1 := fst (save_tags cfg wr st f l)).
      assert (H1 : forall g, get_tags st1 g = if str_eqb g f then clean_tags cfg l else get_tags st g)
        by (intros g; apply get_tags_save, Hwf).
      destruct (IH st1 (S count) (heap_wf_save cfg wr st f l Hwf) Hr) as [Hw [Hc Hg]].
      split; [exact Hw|]. split.
      * rewrite Hc, Hsame; [simpl; lia|]. intros g Hgf. rewrite H1.
        destruct (str_eqb g f) eqn:E; [apply str_eqb_true in E; contradiction|reflexivity].
      * intros g. rewrite Hg, H1. destruct (str_eqb g f) eqn:E.
        -- apply str_eqb_true in E. subst g.
           replace (mem f r) with false by (symmetry; apply mem_false; exact Hf).
           rewrite Hs. change (mem f (f :: r)) with (str_eqb f f || mem f r).
           reflexivity.
        -- reflexivity.
    + destruct (IH st count Hwf Hr) as [Hw [Hc Hg]].
      split; [exact Hw|]. split; [exact Hc|].
      intros g. rewrite Hg. change (mem g (f :: r)) with (str_eqb g f || mem g r).
      destruct (str_eqb g f) eqn:E; simpl.
      * apply str_eqb_true in E. subst g.
        replace (mem f r) with false by (symmetry; apply mem_false; exact Hf). rewrite Hs. reflexivity.
      * reflexivity.
Qed.

Lemma save_used cur l : forall no used,
  let r := fold_left (fun (acc : list str * list str) (tag : str) =>
      let '(new_order, used_tags) := acc in
      if mem tag cur then (new_order ++ [tag], set_add tag used_tags)
      else if mem tag cur then (new_order ++ [tag], set_add tag used_tags)
      else (new_order, used_tags)) l (no, used) in
  fst r = no ++ filter (fun t => mem t cur) l /\
  (forall x, In x (snd r) <-> In x used \/ (In x l /\ In x cur)).
Proof.
  induction l as [|t r IH]; intros no used; simpl.
  - rewrite app_nil_r. split; [reflexivity|]. tauto.
  - destruct (mem t cur) eqn:E.
    + destruct (IH (no ++ [t]) (set_add t used)) as [H1 H2]. rewrite H1, <- app_assoc.
      split; [reflexivity|]. intros x. rewrite H2, in_set_add. apply mem_In in E.
      split; [intros [[->|H]|[H H']]; tauto|intros [H|[[<-|H] H']]; tauto].
    + destruct (IH no used) as [H1 H2]. rewrite H1. split; [reflexivity|].
      apply mem_false in E. intros x. rewrite H2. split; [intros [H|[H H']]; tauto|].
      intros [H|[[<-|H] H']]; [tauto|contradiction|tauto].
Qed.

Lemma save_order_no_renames cats cur :
  save_order cats [] cur =
  filter (fun t => mem t cur) (concat (map cat_tags cats)) ++
  filter (fun t => negb (mem t (concat (map cat_tags cats)))) cur.
Proof.
  unfold save_order. cbv beta zeta iota delta [dict_get renamed_from_of].
  destruct (save_used cur (concat (map cat_tags cats)) [] []) as [H1 H2].
  destruct (fold_left _ _ _) as [no used]. simpl in H1, H2. subst no.
  assert (Hu : forall t, In t cur -> mem t used = mem t (concat (map cat_tags cats))).
  { intros t Ht. destruct (mem t (concat (map cat_tags cats))) eqn:E.
    - apply mem_In. apply H2. right. split; [apply mem_In; exact E|exact Ht].
    - apply mem_false. apply mem_false in E. rewrite H2. tauto. }
  assert (Hl : forall l acc, (forall t, In t l -> In t cur) ->
    fold_left (fun new_order tag => if negb (mem tag used) then new_order ++ [tag] else new_order) l acc =
    acc ++ filter (fun t => negb (mem t (concat (map cat_tags cats)))) l).
  { induction l as [|t r IH]; intros acc Hs; simpl; [rewrite app_nil_r; reflexivity|].
    rewrite Hu by (apply Hs; left; reflexivity).
    destruct (mem t (concat (map cat_tags cats))); simpl;
      rewrite IH by (intros x Hx; apply Hs; right; exact Hx);
      [reflexivity|rewrite <- app_assoc; reflexivity]. }
  apply Hl. auto.
Qed.

Lemma clean_loop_set xs : forall seen,
  Forall (fun t => strip t = t /\ t <> []) xs ->
  (forall t, In t (clean_loop false seen xs) <-> In t xs /\ ~ In t seen) /\
  NoDup (clean_loop false seen xs).
Proof.
  induction xs as [|x r IH]; intros seen H; simpl.
  - split; [tauto|constructor].
  - inversion H as [|? ? [Hx Hn] Hr]; subst. rewrite Hx.
    replace (negb (is_nil x)) with true by (destruct x; [contradiction|reflexivity]). simpl.
    destruct (mem x seen) eqn:E; simpl.
    + destruct (IH seen Hr) as [H1 H2]. split; [|exact H2].
      apply mem_In in E. intros t. rewrite H1. split; [tauto|].
      intros [[<-|Ht] Hs]; [contradiction|tauto].
    + destruct (IH (x :: seen) Hr) as [H1 H2]. apply mem_false in E. split.
      * intros t. simpl. rewrite H1. simpl.
        split; [intros [<-|[Ht Hs]]; [tauto|tauto]|].
        intros [[<-|Ht] Hs]; [left; reflexivity|].
        destruct (list_eq_dec ascii_dec x t) as [<-|Hne]; [left; reflexivity|right; tauto].
      * constructor; [|exact H2]. rewrite H1. simpl. tauto.
Qed.

(** [_save_categories] without renames pushes one undo snapshot and saves,
    for each image of the list, its tags reordered: first the grouped tags
    in category order, then its other tags in their order (before the
    cleaning of [save_tags]); other images are untouched. For clean,
    distinct tags and no lowercasing the saved list is a permutation of the
    old one. *)
Theorem save_categories_spec cfg wr dm il o :
  tag_renames o = [] -> heap_wf dm -> NoDup il ->
  let r := save_categories cfg wr dm il o in
  let grouped := concat (map cat_tags (categories o)) in
  fst r = push_to_undo o /\
  (forall g, get_tags (snd r) g =
     if mem g il then
       clean_tags cfg (filter (fun t => mem t (get_tags dm g)) grouped ++
                       filter (fun t => negb (mem t grouped)) (get_tags dm g))
     else get_tags dm g) /\
  (forall g, In g il -> ENFORCE_LOWERCASE cfg = false -> NoDup (get_tags dm g) ->
     Forall (fun t => strip t = t /\ t <> []) (get_tags dm g) ->
     Permutation (get_tags (snd r) g) (get_tags dm g)).
Proof.
  intros Hr Hwf Hnd. cbv zeta. unfold save_categories. simpl fst. simpl snd.
  rewrite Hr. cbn [tag_renames categories push_to_undo].
  destruct (save_each_spec cfg wr (fun current_tags => Some (save_order (categories o) [] current_tags))
              il dm 0 Hwf Hnd) as [_ [_ Hg]].
  assert (Hg' : forall g, get_tags (fst (save_each cfg wr
             (fun current_tags => Some (save_order (categories o) [] current_tags)) dm il 0)) g =
           if mem g il then
             clean_tags cfg (filter (fun t => mem t (get_tags dm g)) (concat (map cat_tags (categories o))) ++
                             filter (fun t => negb (mem t (concat (map cat_tags (categories o))))) (get_tags dm g))
           else get_tags dm g).
  { intros g. rewrite Hg, save_order_no_renames. reflexivity. }
  split; [reflexivity|]. split; [exact Hg'|].
  intros g Hin Hlc Hn Hc. rewrite Hg'. replace (mem g il) with true by (symmetry; apply mem_In; exact Hin).
  unfold clean_tags. rewrite Hlc.
  set (cur := get_tags dm g) in *. set (grouped := concat (map cat_tags (categories o))).
  set (nw := filter (fun t => mem t cur) grouped ++ filter (fun t => negb (mem t grouped)) cur).
  assert (Hnw : Forall (fun t => strip t = t /\ t <> []) nw).
  { apply Forall_forall. intros t Ht. rewrite Forall_forall in Hc. apply Hc.
    unfold nw in Ht. apply in_app_or in Ht as [Ht|Ht]; apply filter_In in Ht as [H1 H2];
      [apply mem_In; exact H2|exact H1]. }
  destruct (clean_loop_set nw [] Hnw) as [H1 H2].
  apply NoDup_Permutation; [exact H2|exact Hn|].
  intros t. rewrite H1. unfold nw. rewrite in_app_iff, !filter_In, mem_In.
  split; [intros [[[_ H]|[H _]] _]; exact H|].
  intros Ht. split; [|auto].
  destruct (mem t grouped) eqn:E; [left; split; [apply mem_In|]; assumption|right; split; [exact Ht|reflexivity]].
Qed.

Lemma save_categories_spec_witness :
  let cfg := AppConfig in let wr := wr_all in let dm := st_two in
  let il := [s "1.png"; s "2.png"] in let o := org_ab in
  tag_renames o = [] /\ heap_wf dm /\ NoDup il /\
  (let r := save_categories cfg wr dm il o in
   let grouped := concat (map cat_tags (categories o)) in
   fst r = push_to_undo o /\
   (forall g, get_tags (snd r) g =
      if mem g il then
        clean_tags cfg (filter (fun t => mem t (get_tags dm g)) grouped ++
                        filter (fun t => negb (mem t grouped)) (get_tags dm g))
      else get_tags dm g) /\
   (forall g, In g il -> ENFORCE_LOWERCASE cfg = false -> NoDup (get_tags dm g) ->
      Forall (fun t => strip t = t /\ t <> []) (get_tags dm g) ->
      Permutation (get_tags (snd r) g) (get_tags dm g))).
Proof.
  cbv zeta.
  assert (H1 : tag_renames org_ab = []) by reflexivity.
  assert (H2 : heap_wf st_two) by exact (proj1 st_two_wf).
  assert (H3 : NoDup [s "1.png"; s "2.png"]) by concrete.
  exact (conj H1 (conj H2 (conj H3
    (save_categories_spec AppConfig wr_all st_two [s "1.png"; s "2.png"] org_ab H1 H2 H3)))).
Defined.

Lemma counter_add_pos c k : Forall (fun kv => 0 < snd kv) c -> Forall (fun kv : str * nat => 0 < snd kv) (counter_add c k).
Proof.
  induction c as [|[k' n] r IH]; simpl; intros H; [repeat constructor; simpl; lia|].
  inversion H; subst. destruct (str_eqb k k'); constructor; simpl in *; auto; lia.
Qed.

Lemma counter_update_pos c l : Forall (fun kv => 0 < snd kv) c -> Forall (fun kv : str * nat => 0 < snd kv) (counter_update c l).
Proof.
  unfold counter_update. revert c. induction l as [|k r IH]; intros c H; simpl; [exact H|].
  apply IH, counter_add_pos, H.
Qed.

Lemma dict_get_pos (c : counter) t : Forall (fun kv => 0 < snd kv) c ->
  dict_get c t = if counter_get c t =? 0 then None else Some (counter_get c t).
Proof.
  intros H. unfold counter_get. destruct (dict_get c t) as [n|] eqn:E; [|reflexivity].
  apply dict_get_in_snd in E. rewrite Forall_forall in H.
  apply in_map_iff in E as [[k n'] [Hn Hin]]. simpl in Hn. subst n'.
  apply H in Hin. simpl in Hin. destruct n; [lia|reflexivity].
Qed.

Lemma dict_get_filter_key {V} (q : str -> bool) (d : list (str * V)) t :
  dict_get (filter (fun kv => q (fst kv)) d) t = if q t then dict_get d t else None.
Proof.
  induction d as [|[k v] r IH]; simpl; [destruct (q t); reflexivity|].
  destruct (q k) eqn:Eq; simpl; destruct (str_eqb t k) eqn:E; try exact IH.
  - apply str_eqb_true in E. subst. rewrite Eq. reflexivity.
  - apply str_eqb_true in E. subst. rewrite IH, Eq. reflexivity.
Qed.

Lemma first_occ_nodup l : forall acc, NoDup acc ->
  NoDup (fold_left (fun acc x => if mem x acc then acc else acc ++ [x]) l acc).
Proof.
  induction l as [|x r IH]; intros acc H; simpl; [exact H|].
  apply IH. destruct (mem x acc) eqn:E; [exact H|].
  apply mem_false in E. apply NoDup_app; auto.
  - repeat constructor. auto.
  - intros y Hy [<-|[]]. contradiction.
Qed.

Lemma fold_update_map (g : str -> list str) il : forall c,
  fold_left (fun c f => counter_update c (g f)) il c = fold_left counter_update (map g il) c.
Proof. induction il as [|f r IH]; intros c; simpl; [reflexivity|apply IH]. Qed.

Lemma counter_get_fold (ls : list (list str)) : forall c t,
  counter_get (fold_left counter_update ls c) t =
  counter_get c t + list_sum (map (fun tags => count_occ (list_eq_dec ascii_dec) tags t) ls).
Proof.
  induction ls as [|tags r IH]; intros c t; simpl; [lia|].
  rewrite IH, counter_get_update. lia.
Qed.

Lemma counter_pos_fold (ls : list (list str)) : forall c,
  Forall (fun kv => 0 < snd kv) c -> Forall (fun kv : str * nat => 0 < snd kv) (fold_left counter_update ls c).
Proof.
  induction ls as [|tags r IH]; intros c H; simpl; [exact H|]. apply IH, counter_update_pos, H.
Qed.

Lemma map_fst_filter_key {V} (q : str -> bool) (d : list (str * V)) :
  map fst (filter (fun kv => q (fst kv)) d) = filter q (map fst d).
Proof. induction d as [|[k v] r IH]; simpl; [reflexivity|]. destruct (q k); simpl; rewrite IH; reflexivity. Qed.

(** [_populate_uncategorized] maps each tag to the number of its
    occurrences over the images of the list, leaving out tags that are in
    some category and tags that occur nowhere; it has no duplicate key. *)
Theorem populate_uncategorized_spec dm il cats :
  let u := populate_uncategorized dm il cats in
  let grouped := concat (map cat_tags cats) in
  NoDup (map fst u) /\
  forall t,
    let n := list_sum (map (fun f => count_occ (list_eq_dec ascii_dec) (get_tags dm f) t) il) in
    dict_get u t = if mem t grouped || (n =? 0) then None else Some n.
Proof.
  cbv zeta. unfold populate_uncategorized. rewrite fold_update_map.
  set (grouped := concat (map cat_tags cats)).
  set (all := fold_left counter_update (map (get_tags dm) il) []).
  split.
  - rewrite (map_fst_filter_key (fun k => negb (mem k grouped))). apply NoDup_filter.
    unfold all. rewrite keys_recount. apply first_occ_nodup. constructor.
  - intros t. rewrite (dict_get_filter_key (fun k => negb (mem k grouped))).
    rewrite dict_get_pos by (apply counter_pos_fold; constructor).
    unfold all. rewrite counter_get_fold, map_map. simpl.
    destruct (mem t grouped); reflexivity.
Qed.

Lemma actual_tag_of_id tag renames : actual_tag_of tag renames = tag.
Proof.
  induction renames as [|[orig x] r IH]; simpl; [reflexivity|].
  destruct (str_eqb orig tag) eqn:E; [apply str_eqb_true in E; exact E|exact IH].
Qed.



Lemma append_if_absent_in x y l : In x (append_if_absent y l) <-> In x l \/ x = y.
Proof.
  unfold append_if_absent. destruct (mem y l) eqn:E.
  - apply mem_In in E. split; [tauto|intros [H| ->]; assumption].
  - rewrite in_app_iff. simpl.
    split; [intros [H|[H|[]]]; [left; exact H|right; symmetry; exact H]|].
    intros [H|H]; [left; exact H|right; left; symmetry; exact H].
Qed.

Lemma find_update_named_other n n' f cats : n' <> n ->
  find (fun c => str_eqb (cat_name c) n') (update_named n f cats) =
  find (fun c => str_eqb (cat_name c) n') cats.
Proof.
  intros Hne. induction cats as [|c r IH]; simpl; [reflexivity|].
  destruct (str_eqb (cat_name c) n) eqn:E; simpl.
  - apply str_eqb_true in E. rewrite E.
    destruct (str_eqb n n') eqn:E'; [apply str_eqb_true in E'; congruence|reflexivity].
  - destruct (str_eqb (cat_name c) n'); [reflexivity|exact IH].
Qed.

Lemma find_nodup n cats c : cats_nodup cats ->
  find (fun c => str_eqb (cat_name c) n) cats = Some c -> NoDup (cat_tags c).
Proof.
  intros H Hf. apply find_some in Hf as [Hin _]. unfold cats_nodup in H.
  rewrite Forall_forall in H. apply H, Hin.
Qed.

Lemma update_named_names n f cats : map cat_name (update_named n f cats) = map cat_name cats.
Proof.
  induction cats as [|c r IH]; simpl; [reflexivity|].
  destruct (str_eqb (cat_name c) n); simpl; rewrite ?IH; reflexivity.
Qed.

Lemma remove_if_present_eq tag tags : remove_if_present tag tags = remove_first tag tags.
Proof.
  unfold remove_if_present. destruct (mem tag tags) eqn:Hm; [reflexivity|].
  apply mem_false in Hm. induction tags as [|y r IH]; simpl; [reflexivity|].
  destruct (str_eqb tag y) eqn:Hy.
  - apply str_eqb_true in Hy. subst. exfalso. apply Hm. left. reflexivity.
  - rewrite <- IH; [reflexivity|]. intros H. apply Hm. right. exact H.
Qed.

Lemma append_if_absent_count tag tags :
  count_occ (list_eq_dec ascii_dec) (append_if_absent tag tags) tag =
  Nat.max 1 (count_occ (list_eq_dec ascii_dec) tags tag).
Proof.
  unfold append_if_absent. destruct (mem tag tags) eqn:Hm.
  - apply mem_In in Hm. apply (count_occ_In (list_eq_dec ascii_dec)) in Hm. lia.
  - apply mem_false in Hm. apply (count_occ_not_In (list_eq_dec ascii_dec)) in Hm.
    rewrite count_occ_app. simpl.
    destruct (list_eq_dec ascii_dec tag tag); [|congruence].
    change (@count_occ str) with (@count_occ (list ascii)). rewrite Hm. reflexivity.
Qed.

(** [_move_tag_to_category] between two different categories: the first
    category named [from_category] loses the first copy of the tag (its list
    becomes [remove_first tag]), the first category named [to_category] gets
    the tag appended when it does not hold it yet, so that it then holds the
    tag [max 1 n] times where it held it [n] times before; no other
    category, the uncategorized tags or the renames change, and the category
    names stay as they were. *)
Theorem move_tag_to_category_spec tag from_category to_category o :
  from_category <> to_category ->
  let o' := move_tag_to_category tag from_category to_category o in
  let named n cats := find (fun c => str_eqb (cat_name c) n) cats in
  uncategorized_tags o' = uncategorized_tags o /\ tag_renames o' = tag_renames o /\
  map cat_name (categories o') = map cat_name (categories o) /\
  (forall c, named from_category (categories o) = Some c ->
     named from_category (categories o') = Some (set_tags c (remove_first tag (cat_tags c)))) /\
  (forall c, named to_category (categories o) = Some c ->
     exists c', named to_category (categories o') = Some c' /\
       c' = set_tags c (if mem tag (cat_tags c) then cat_tags c else cat_tags c ++ [tag]) /\
       count_occ (list_eq_dec ascii_dec) (cat_tags c') tag =
         Nat.max 1 (count_occ (list_eq_dec ascii_dec) (cat_tags c) tag)) /\
  (forall n, n <> from_category -> n <> to_category ->
     named n (categories o') = named n (categories o)).
Proof.
  intros Hne. cbv zeta. unfold move_tag_to_category. simpl.
  split; [reflexivity|]. split; [reflexivity|].
  split; [rewrite !update_named_names; reflexivity|]. split; [|split].
  - intros c Hc. rewrite find_update_named_other by congruence.
    rewrite find_update_named, Hc. simpl. rewrite remove_if_present_eq. reflexivity.
  - intros c Hc. rewrite find_update_named, find_update_named_other, Hc by congruence.
    simpl. eexists; split; [reflexivity|]. split; [reflexivity|].
    apply append_if_absent_count.
  - intros n H1 H2. rewrite !find_update_named_other by assumption. reflexivity.
Qed.

Lemma move_tag_to_category_spec_witness :
  let tag := s "x" in let from_category := s "A" in let to_category := s "B" in let o := org_ab in
  from_category <> to_category /\
  (let o' := move_tag_to_category tag from_category to_category o in
   let named n cats := find (fun c => str_eqb (cat_name c) n) cats in
   uncategorized_tags o' = uncategorized_tags o /\ tag_renames o' = tag_renames o /\
   map cat_name (categories o') = map cat_name (categories o) /\
   (forall c, named from_category (categories o) = Some c ->
      named from_category (categories o') = Some (set_tags c (remove_first tag (cat_tags c)))) /\
   (forall c, named to_category (categories o) = Some c ->
      exists c', named to_category (categories o') = Some c' /\
        c' = set_tags c (if mem tag (cat_tags c) then cat_tags c else cat_tags c ++ [tag]) /\
        count_occ (list_eq_dec ascii_dec) (cat_tags c') tag =
          Nat.max 1 (count_occ (list_eq_dec ascii_dec) (cat_tags c) tag)) /\
   (forall n, n <> from_category -> n <> to_category ->
      named n (categories o') = named n (categories o))).
Proof.
  cbv zeta.
  assert (H1 : s "A" <> s "B") by discriminate.
  exact (conj H1 (move_tag_to_category_spec (s "x") (s "A") (s "B") org_ab H1)).
Defined.

(** [_remove_from_category] takes the first copy of the tag out of the
    first category of that name (its list becomes [remove_first tag]) and
    lists the tag as uncategorized: with its old count if it was there
    already, otherwise with the number of images of the list that have it;
    other uncategorized counts and the renames are unchanged. *)
Theorem remove_from_category_spec dm il tag name o :
  let o' := remove_from_category dm il tag name o in
  tag_renames o' = tag_renames o /\
  (forall c, find (fun c => str_eqb (cat_name c) name) (categories o) = Some c ->
     find (fun c => str_eqb (cat_name c) name) (categories o') =
       Some (set_tags c (remove_first tag (cat_tags c)))) /\
  dict_get (uncategorized_tags o') tag =
    Some (match dict_get (uncategorized_tags o) tag with
          | Some n => n
          | None => length (filter (fun f => mem tag (get_tags dm f)) il)
          end) /\
  (forall t, t <> tag -> dict_get (uncategorized_tags o') t = dict_get (uncategorized_tags o) t).
Proof.
  cbv zeta. unfold remove_from_category. simpl.
  assert (Hcat : forall c, find (fun c => str_eqb (cat_name c) name) (categories o) = Some c ->
     find (fun c => str_eqb (cat_name c) name) (update_named name (remove_if_present tag) (categories o)) =
       Some (set_tags c (remove_first tag (cat_tags c)))).
  { intros c Hc. rewrite find_update_named, Hc. simpl. rewrite remove_if_present_eq. reflexivity. }
  destruct (dict_get (uncategorized_tags o) tag) as [n|] eqn:Hu; simpl.
  - split; [reflexivity|]. split; [exact Hcat|]. split; [exact Hu|reflexivity].
  - split; [reflexivity|]. split; [exact Hcat|]. split.
    + rewrite dict_get_set_same. f_equal. f_equal. apply filter_ext. intros f.
      rewrite actual_tag_of_id, orb_diag. reflexivity.
    + intros t Ht. apply dict_get_set_other.
      destruct (str_eqb t tag) eqn:E'; [apply str_eqb_true in E'; contradiction|reflexivity].
Qed.





Lemma set_tags_same c : set_tags c (cat_tags c) = c.
Proof. destruct c; reflexivity. Qed.

Lemma update_append_cases n t cats :
  update_named n (append_if_absent t) cats = cats \/
  Permutation (concat (map cat_tags (update_named n (append_if_absent t) cats)))
              (t :: concat (map cat_tags cats)).
Proof.
  induction cats as [|c r IH]; simpl; [left; reflexivity|].
  destruct (str_eqb (cat_name c) n).
  - unfold append_if_absent. destruct (mem t (cat_tags c)).
    + left. rewrite set_tags_same. reflexivity.
    + right. simpl. rewrite <- app_assoc. simpl. symmetry. apply Permutation_middle.
  - destruct IH as [->|IH]; [left; reflexivity|right]. simpl.
    rewrite IH. symmetry. apply Permutation_middle.
Qed.

Lemma update_append_in n t cats c' x :
  In c' (update_named n (append_if_absent t) cats) -> In x (cat_tags c') ->
  (exists c, In c cats /\ cat_name c = cat_name c' /\ In x (cat_tags c)) \/ (x = t /\ cat_name c' = n).
Proof.
  induction cats as [|c r IH]; simpl; [contradiction|].
  destruct (str_eqb (cat_name c) n) eqn:E.
  - intros [<-|Hin] Hx.
    + simpl in Hx. apply append_if_absent_in in Hx as [Hx| ->].
      * left. exists c. auto.
      * right. split; [reflexivity|]. apply str_eqb_true in E. exact E.
    + left. exists c'. auto.
  - intros [<-|Hin] Hx.
    + left. exists c. auto.
    + destruct (IH Hin Hx) as [[c0 [H1 H2]]|H]; [left; exists c0; auto|right; exact H].
Qed.

Lemma update_append_find m n t cats c x :
  find (fun c => str_eqb (cat_name c) m) cats = Some c -> In x (cat_tags c) ->
  exists c', find (fun c => str_eqb (cat_name c) m) (update_named n (append_if_absent t) cats) = Some c' /\
             In x (cat_tags c').
Proof.
  intros Hf Hx. destruct (list_eq_dec ascii_dec m n) as [<-|Hne].
  - rewrite find_update_named, Hf. simpl. eexists; split; [reflexivity|].
    simpl. apply append_if_absent_in. left. exact Hx.
  - rewrite find_update_named_other by exact Hne. eauto.
Qed.

Lemma find_named_in n cats : In n (map cat_name cats) ->
  exists c, find (fun c => str_eqb (cat_name c) n) cats = Some c.
Proof.
  intros H. destruct (find (fun c => str_eqb (cat_name c) n) cats) eqn:E; [eauto|].
  exfalso. apply in_map_iff in H as [c [Hc Hin]].
  apply (find_none _ _ E) in Hin. rewrite Hc, str_eqb_refl in Hin. discriminate.
Qed.

Lemma update_named_keywords n f cats : map auto_keywords (update_named n f cats) = map auto_keywords cats.
Proof.
  induction cats as [|c r IH]; simpl; [reflexivity|].
  destruct (str_eqb (cat_name c) n); simpl; rewrite ?IH; reflexivity.
Qed.

Lemma load_fold L : forall cats Done,
  NoDup (map fst (Done ++ L)) ->
  NoDup (concat (map cat_tags cats)) ->
  (forall c x, In c cats -> In x (cat_tags c) -> In (x, cat_name c) Done) ->
  (forall x m, In (x, m) Done -> In m (map cat_name cats) ->
     exists c, find (fun c => str_eqb (cat_name c) m) cats = Some c /\ In x (cat_tags c)) ->
  let cats' := fold_left (fun cats (tc : str * str) => update_named (snd tc) (append_if_absent (fst tc)) cats) L cats in
  map cat_name cats' = map cat_name cats /\ map auto_keywords cats' = map auto_keywords cats /\
  NoDup (concat (map cat_tags cats')) /\
  (forall c x, In c cats' -> In x (cat_tags c) -> In (x, cat_name c) (Done ++ L)) /\
  (forall x m, In (x, m) (Done ++ L) -> In m (map cat_name cats) ->
     exists c, find (fun c => str_eqb (cat_name c) m) cats' = Some c /\ In x (cat_tags c)).
Proof.
  induction L as [|[t n] L IH]; intros cats Done Hk Hnd Hin Hfind; simpl.
  - rewrite app_nil_r. auto.
  - set (cats1 := update_named n (append_if_absent t) cats).
    assert (Ht : ~ In t (concat (map cat_tags cats))).
    { intros H. apply in_concat in H as [l [Hl Hx]]. apply in_map_iff in Hl as [c [<- Hc]].
      apply (Hin c t Hc) in Hx. rewrite map_app in Hk. simpl in Hk.
      apply NoDup_remove_2 in Hk. apply Hk. apply in_app_iff. left.
      apply in_map_iff. exists (t, cat_name c). auto. }
    destruct (IH cats1 (Done ++ [(t, n)])) as [H1 [H2 [H3 [H4 H5]]]].
    + rewrite <- app_assoc. exact Hk.
    + destruct (update_append_cases n t cats) as [E|P]; unfold cats1; [rewrite E; exact Hnd|].
      eapply Permutation_NoDup; [symmetry; exact P|]. constructor; assumption.
    + intros c x Hc Hx. destruct (update_append_in n t cats c x Hc Hx) as [[c0 [Hc0 [Hn Hx0]]]|[-> Hn]].
      * apply in_app_iff. left. rewrite <- Hn. apply Hin; assumption.
      * apply in_app_iff. right. rewrite Hn. left. reflexivity.
    + intros x m Hxm Hm. unfold cats1 in Hm. rewrite update_named_names in Hm.
      apply in_app_iff in Hxm as [Hxm|[Hxm|[]]].
      * destruct (Hfind x m Hxm Hm) as [c [Hc Hx]]. eapply update_append_find; eassumption.
      * injection Hxm as <- <-. destruct (find_named_in n cats Hm) as [c Hc].
        unfold cats1. rewrite find_update_named, Hc. simpl. eexists; split; [reflexivity|].
        simpl. apply append_if_absent_in. right. reflexivity.
    + rewrite <- app_assoc in H4, H5. simpl in H4, H5. unfold cats1 in *.
      rewrite update_named_names, update_named_keywords in *.
      repeat split; auto.
Qed.

Lemma fold_grows {A} (f : list (str * str) -> A -> list (str * str))
    (S : A -> str -> str -> Prop) (C : A -> str -> Prop) L :
  (forall x d, In x L ->
     (forall t m, dict_get (f d x) t = Some m -> dict_get d t = Some m \/ S x t m) /\
     (forall t, dict_get d t <> None -> dict_get (f d x) t = dict_get d t) /\
     (forall t, C x t -> dict_get (f d x) t <> None)) ->
  forall d,
    (forall t m, dict_get (fold_left f L d) t = Some m ->
       dict_get d t = Some m \/ exists x, In x L /\ S x t m) /\
    (forall t, dict_get d t <> None -> dict_get (fold_left f L d) t = dict_get d t) /\
    (forall t, (exists x, In x L /\ C x t) -> dict_get (fold_left f L d) t <> None).
Proof.
  induction L as [|x L IH]; intros Hstep d; simpl.
  - split; [auto|]. split; [auto|]. intros t [x [[] _]].
  - destruct (Hstep x d (or_introl eq_refl)) as [S1 [S2 S3]].
    destruct (IH (fun y d' Hy => Hstep y d' (or_intror Hy)) (f d x)) as [I1 [I2 I3]].
    split; [|split].
    + intros t m H. apply I1 in H as [H|[y [Hy Hs]]].
      * apply S1 in H as [H|H]; [left; exact H|right; exists x; auto].
      * right. exists y. auto.
    + intros t H. rewrite I2; [apply S2, H|]. rewrite S2 by exact H. exact H.
    + intros t [y [[<-|Hy] Hc]].
      * rewrite I2; apply S3, Hc.
      * apply I3. exists y. auto.
Qed.

Lemma ttc_spec il images_data :
  let ttc := tag_to_categories il images_data in
  (forall t n, dict_get ttc t = Some n ->
     exists img_path img_cats tags, In img_path il /\
       dict_get images_data (path_name img_path) = Some img_cats /\ In (n, tags) img_cats /\ In t tags) /\
  (forall t n img_path img_cats tags, In img_path il ->
     dict_get images_data (path_name img_path) = Some img_cats -> In (n, tags) img_cats -> In t tags ->
     dict_get ttc t <> None).
Proof.
  cbv zeta. unfold tag_to_categories.
  set (inner := fun n (ttc : list (str * str)) tag =>
                  match dict_get ttc tag with Some _ => ttc | None => dict_set ttc tag n end).
  assert (Hin : forall n tags d,
    (forall t m, dict_get (fold_left (inner n) tags d) t = Some m ->
       dict_get d t = Some m \/ exists x, In x tags /\ (t = x /\ m = n)) /\
    (forall t, dict_get d t <> None -> dict_get (fold_left (inner n) tags d) t = dict_get d t) /\
    (forall t, (exists x, In x tags /\ t = x) -> dict_get (fold_left (inner n) tags d) t <> None)).
  { intros n tags. apply (fold_grows (inner n) (fun x t m => t = x /\ m = n) (fun x t => t = x)).
    intros tag d _. unfold inner. destruct (dict_get d tag) as [v|] eqn:E.
    - split; [auto|]. split; [auto|]. intros t ->. rewrite E. discriminate.
    - split; [|split].
      + intros t m H. destruct (str_eqb t tag) eqn:Et.
        * apply str_eqb_true in Et. subst. rewrite dict_get_set_same in H. injection H as <-. auto.
        * rewrite dict_get_set_other in H by exact Et. auto.
      + intros t H. apply dict_get_set_other.
        destruct (str_eqb t tag) eqn:Et; [apply str_eqb_true in Et; subst; contradiction|reflexivity].
      + intros t ->. rewrite dict_get_set_same. discriminate. }
  set (middle := fun (ttc : list (str * str)) (ct : str * list str) => fold_left (inner (fst ct)) (snd ct) ttc).
  assert (Hmid : forall img_cats d,
    (forall t m, dict_get (fold_left middle img_cats d) t = Some m ->
       dict_get d t = Some m \/ exists ct, In ct img_cats /\ (In t (snd ct) /\ m = fst ct)) /\
    (forall t, dict_get d t <> None -> dict_get (fold_left middle img_cats d) t = dict_get d t) /\
    (forall t, (exists ct, In ct img_cats /\ In t (snd ct)) -> dict_get (fold_left middle img_cats d) t <> None)).
  { intros img_cats. apply (fold_grows middle (fun ct t m => In t (snd ct) /\ m = fst ct) (fun ct t => In t (snd ct))).
    intros ct d _. destruct (Hin (fst ct) (snd ct) d) as [H1 [H2 H3]]. unfold middle.
    split; [|split].
    - intros t m H. apply H1 in H as [H|[x [Hx [-> ->]]]]; [left; exact H|right; auto].
    - exact H2.
    - intros t Ht. apply H3. exists t. auto. }
  set (outer := fun (ttc : list (str * str)) img_path =>
                  match dict_get images_data (path_name img_path) with
                  | Some img_cats => fold_left middle img_cats ttc
                  | None => ttc end).
  destruct (fold_grows outer
     (fun img_path t m => exists img_cats, dict_get images_data (path_name img_path) = Some img_cats /\
                          exists ct, In ct img_cats /\ In t (snd ct) /\ m = fst ct)
     (fun img_path t => exists img_cats, dict_get images_data (path_name img_path) = Some img_cats /\
                          exists ct, In ct img_cats /\ In t (snd ct)) il) with (d := @nil (str * str))
    as [O1 [_ O3]].
  { intros img_path d _. unfold outer. destruct (dict_get images_data (path_name img_path)) as [img_cats|] eqn:E.
    - destruct (Hmid img_cats d) as [H1 [H2 H3]]. split; [|split].
      + intros t m H. apply H1 in H as [H|[ct [Hct [Ht ->]]]]; [left; exact H|right].
        exists img_cats. split; [reflexivity|]. exists ct. auto.
      + exact H2.
      + intros t [ic [Hic Hct]]. injection Hic as <-. apply H3, Hct.
    - split; [auto|]. split; [auto|]. intros t [ic [Hic _]]. discriminate. }
  split.
  - intros t n H. apply O1 in H as [H|[img_path [Hip [img_cats [Hic [[n' tags] [Hct [Ht Hn]]]]]]]];
      [discriminate|]. simpl in Ht, Hn. subst n'. exists img_path, img_cats, tags. auto.
  - intros t n img_path img_cats tags Hip Hic Hct Ht. apply O3.
    exists img_path. split; [exact Hip|]. exists img_cats. split; [exact Hic|]. exists (n, tags). auto.
Qed.

Lemma fold_pres {A B} (P : B -> Prop) (f : B -> A -> B) L :
  (forall x d, P d -> P (f d x)) -> forall d, P d -> P (fold_left f L d).
Proof. intros H. induction L as [|x L IH]; intros d Hd; simpl; [exact Hd|]. apply IH, H, Hd. Qed.

Lemma in_fst_dict_set {V} (d : list (str * V)) k v x :
  In x (map fst (dict_set d k v)) -> x = k \/ In x (map fst d).
Proof.
  induction d as [|[k' v'] r IH]; simpl; [intros [<-|[]]; auto|].
  destruct (str_eqb k k'); simpl; intros [H|H]; auto. apply IH in H as [H|H]; auto.
Qed.

Lemma nodup_fst_dict_set {V} (d : list (str * V)) k v :
  NoDup (map fst d) -> NoDup (map fst (dict_set d k v)).
Proof.
  induction d as [|[k' v'] r IH]; simpl; intros H; [repeat constructor; auto|].
  inversion H as [|? ? Hk Hr]; subst. destruct (str_eqb k k') eqn:E; simpl; [exact H|].
  constructor; [|apply IH, Hr]. intros Hin. apply in_fst_dict_set in Hin as [->|Hin].
  - rewrite str_eqb_refl in E. discriminate.
  - contradiction.
Qed.

Lemma ttc_nodup il images_data : NoDup (map fst (tag_to_categories il images_data)).
Proof.
  unfold tag_to_categories. apply fold_pres; [|constructor].
  intros img_path d Hd. destruct (dict_get images_data (path_name img_path)) as [img_cats|]; [|exact Hd].
  apply fold_pres; [|exact Hd]. intros ct d' Hd'. apply fold_pres; [|exact Hd'].
  intros tag d'' Hd''. destruct (dict_get d'' tag); [exact Hd''|]. apply nodup_fst_dict_set, Hd''.
Qed.

Lemma dict_get_in {V} (d : list (str * V)) k v : dict_get d k = Some v -> In (k, v) d.
Proof.
  induction d as [|[k' v'] r IH]; simpl; [discriminate|].
  destruct (str_eqb k k') eqn:E; [apply str_eqb_true in E; injection 1 as <-; subst; auto|auto].
Qed.

Lemma in_dict_get {V} (d : list (str * V)) k v : NoDup (map fst d) -> In (k, v) d -> dict_get d k = Some v.
Proof.
  induction d as [|[k' v'] r IH]; simpl; [contradiction|].
  intros H [E|Hin]; inversion H as [|? ? Hk Hr]; subst.
  - injection E as -> ->. rewrite str_eqb_refl. reflexivity.
  - destruct (str_eqb k k') eqn:E; [|apply IH; assumption].
    apply str_eqb_true in E. subst. exfalso. apply Hk. apply in_map_iff. exists (k', v). auto.
Qed.

Lemma load_project_groups_facts il images_data cats :
  Forall (fun c => cat_tags c = []) cats ->
  let ttc := tag_to_categories il images_data in
  let cats' := load_project_groups il images_data cats in
  (forall t n, dict_get ttc t = Some n ->
     exists img_path img_cats tags, In img_path il /\
       dict_get images_data (path_name img_path) = Some img_cats /\ In (n, tags) img_cats /\ In t tags) /\
  (forall t n img_path img_cats tags, In img_path il ->
     dict_get images_data (path_name img_path) = Some img_cats -> In (n, tags) img_cats -> In t tags ->
     dict_get ttc t <> None) /\
  map cat_name cats' = map cat_name cats /\ map auto_keywords cats' = map auto_keywords cats /\
  NoDup (concat (map cat_tags cats')) /\
  (forall c t, In c cats' -> In t (cat_tags c) -> dict_get ttc t = Some (cat_name c)) /\
  (forall t n, dict_get ttc t = Some n -> In n (map cat_name cats) ->
     exists c, find (fun c => str_eqb (cat_name c) n) cats' = Some c /\ In t (cat_tags c)).
Proof.
  intros Hempty. cbv zeta. destruct (ttc_spec il images_data) as [T1 T2].
  split; [exact T1|]. split; [exact T2|].
  unfold load_project_groups.
  assert (Hcat : concat (map cat_tags cats) = []).
  { induction Hempty as [|c r Hc _ IH]; [reflexivity|]. simpl. rewrite Hc, IH. reflexivity. }
  destruct (load_fold (tag_to_categories il images_data) cats [] (ttc_nodup il images_data))
    as [H1 [H2 [H3 [H4 H5]]]].
  - rewrite Hcat. constructor.
  - intros c x Hc Hx. rewrite Forall_forall in Hempty. rewrite (Hempty c Hc) in Hx. contradiction.
  - intros x m [].
  - simpl in H4, H5. split; [exact H1|]. split; [exact H2|]. split; [exact H3|]. split.
    + intros c t Hc Ht. apply in_dict_get; [apply ttc_nodup|]. apply H4; assumption.
    + intros t n Hn Hm. apply H5; [|exact Hm]. apply dict_get_in, Hn.
Qed.

Lemma ttc_flat il images_data :
  tag_to_categories il images_data = fold_left ttc_step (listings il images_data) [].
Proof.
  unfold tag_to_categories, listings. generalize (@nil (str * str)) at 1 3 as d.
  induction il as [|img_path il IH]; intros d; simpl; [reflexivity|].
  rewrite fold_left_app, <- IH. f_equal.
  destruct (dict_get images_data (path_name img_path)) as [img_cats|]; [|reflexivity].
  revert d. induction img_cats as [|ct img_cats IHc]; intros d; simpl; [reflexivity|].
  rewrite fold_left_app, <- IHc. f_equal.
  revert d. induction (snd ct) as [|tag tags IHt]; intros d; simpl; [reflexivity|].
  rewrite <- IHt. reflexivity.
Qed.

Lemma ttc_step_first L d t :
  dict_get (fold_left ttc_step L d) t =
  match dict_get d t with
  | Some v => Some v
  | None => option_map snd (find (fun p => str_eqb (fst p) t) L)
  end.
Proof.
  revert d. induction L as [|p L IH]; intros d; simpl.
  - destruct (dict_get d t); reflexivity.
  - rewrite IH. unfold ttc_step. destruct (str_eqb (fst p) t) eqn:Hp.
    + apply str_eqb_true in Hp. rewrite <- Hp.
      destruct (dict_get d (fst p)) as [v|] eqn:Hd; [rewrite Hd; reflexivity|].
      rewrite dict_get_set_same. reflexivity.
    + assert (Ht : str_eqb t (fst p) = false).
      { destruct (str_eqb t (fst p)) eqn:H'; [|reflexivity].
        apply str_eqb_true in H'. subst. rewrite str_eqb_refl in Hp. discriminate. }
      destruct (dict_get d (fst p)); [reflexivity|].
      rewrite dict_get_set_other by exact Ht. reflexivity.
Qed.

(** [_load_project_groups] into categories with no tags: each tag is given
    to the first category it is listed under for an image of the list (the
    first pair of [listings] with that tag wins), and
    every tag so listed gets one; no tag ends up in two categories, category
    names and keywords are kept, and a tag whose category name exists ends
    up in the first category of that name. *)
Theorem load_project_groups_spec il images_data cats :
  Forall (fun c => cat_tags c = []) cats ->
  let ttc := tag_to_categories il images_data in
  let cats' := load_project_groups il images_data cats in
  (forall t, dict_get ttc t = option_map snd (find (fun p => str_eqb (fst p) t) (listings il images_data))) /\
  (forall t n, dict_get ttc t = Some n ->
     exists img_path img_cats tags, In img_path il /\
       dict_get images_data (path_name img_path) = Some img_cats /\ In (n, tags) img_cats /\ In t tags) /\
  (forall t n img_path img_cats tags, In img_path il ->
     dict_get images_data (path_name img_path) = Some img_cats -> In (n, tags) img_cats -> In t tags ->
     dict_get ttc t <> None) /\
  map cat_name cats' = map cat_name cats /\ map auto_keywords cats' = map auto_keywords cats /\
  NoDup (concat (map cat_tags cats')) /\
  (forall c t, In c cats' -> In t (cat_tags c) -> dict_get ttc t = Some (cat_name c)) /\
  (forall t n, dict_get ttc t = Some n -> In n (map cat_name cats) ->
     exists c, find (fun c => str_eqb (cat_name c) n) cats' = Some c /\ In t (cat_tags c)).
Proof.
  intros Hempty. cbv zeta. split.
  - intros t. rewrite ttc_flat, ttc_step_first. reflexivity.
  - exact (load_project_groups_facts il images_data cats Hempty).
Qed.

Lemma load_project_groups_spec_witness :
  let il := [s "1.png"; s "2.png"] in let images_data := groups_two in
  let cats := [mkCategory (s "A") [] []; mkCategory (s "B") [] []] in
  Forall (fun c => cat_tags c = []) cats /\
  (let ttc := tag_to_categories il images_data in
   let cats' := load_project_groups il images_data cats in
   (forall t, dict_get ttc t = option_map snd (find (fun p => str_eqb (fst p) t) (listings il images_data))) /\
   (forall t n, dict_get ttc t = Some n ->
      exists img_path img_cats tags, In img_path il /\
        dict_get images_data (path_name img_path) = Some img_cats /\ In (n, tags) img_cats /\ In t tags) /\
   (forall t n img_path img_cats tags, In img_path il ->
      dict_get images_data (path_name img_path) = Some img_cats -> In (n, tags) img_cats -> In t tags ->
      dict_get ttc t <> None) /\
   map cat_name cats' = map cat_name cats /\ map auto_keywords cats' = map auto_keywords cats /\
   NoDup (concat (map cat_tags cats')) /\
   (forall c t, In c cats' -> In t (cat_tags c) -> dict_get ttc t = Some (cat_name c)) /\
   (forall t n, dict_get ttc t = Some n -> In n (map cat_name cats) ->
      exists c, find (fun c => str_eqb (cat_name c) n) cats' = Some c /\ In t (cat_tags c))) /\
  load_project_groups il images_data cats = [mkCategory (s "A") [] [s "b"]; mkCategory (s "B") [] []].
Proof.
  cbv zeta.
  assert (H : Forall (fun c => cat_tags c = []) [mkCategory (s "A") [] []; mkCategory (s "B") [] []])
    by (repeat constructor).
  split; [exact H|]. split.
  - exact (load_project_groups_spec [s "1.png"; s "2.png"] groups_two
             [mkCategory (s "A") [] []; mkCategory (s "B") [] []] H).
  - vm_compute. reflexivity.
Defined.







